(** * rakia-tech-test: the post entity, the in-memory post repository and the
    post service, embedded from the Go sources.

    - [internal/domain/entities/post.go]                      (entity)
    - [internal/domain/repositories/post_repository.go]       (errors)
    - [internal/infrastructure/repositories/memory_post_repository.go]
    - [internal/application/services/post_service.go]
    - [internal/infrastructure/loader/data_loader.go]         (data file)
    - [internal/interfaces/rest/dto]                          (response structs)
    - [internal/interfaces/rest/post_handler.go], [router.go] (handlers, routes)
    - [cmd/main.go]                                           (start-up)

    Go values of type [*entities.Post] are pointers: the embedding keeps a
    heap of [Post] cells and the repository's map holds addresses, so that
    the copies the code makes ([postCopy := *post]) are visible as fresh
    cells.  Go's [int] is the 64-bit two's complement integer. *)

From Stdlib Require Import ZArith Lia List Ascii String Permutation Sorted.
From stdpp Require Import base option list gmap strings.

Local Open Scope Z_scope.

(** ** Go's [int] *)

Module GoInt.

Definition intSize : Z := 64.
Definition MaxInt : Z := 2 ^ (intSize - 1) - 1.
Definition MinInt : Z := - 2 ^ (intSize - 1).

(** Two's complement wrap-around of an arithmetic result. *)
Definition wrap (z : Z) : Z :=
  (z - MinInt) mod 2 ^ intSize + MinInt.

(** [x + y] and [x++] on [int]. *)
Definition add (x y : Z) : Z := wrap (x + y).
Definition incr (x : Z) : Z := add x 1.

Definition in_range (z : Z) : Prop := MinInt <= z <= MaxInt.

Definition in_rangeb (z : Z) : bool := (MinInt <=? z) && (z <=? MaxInt).

End GoInt.

(** ** The parts of Go's standard library that [Validate] calls

    [strings.TrimSpace], [unicode.IsSpace], [utf8.DecodeRuneInString] and
    [utf8.DecodeLastRuneInString].  A Go string is a sequence of bytes; it is
    embedded as a [string] of 8-bit [ascii] characters. *)

Module GoStrings.

Definition byte (c : ascii) : Z := Z.of_N (N_of_ascii c).

(** [len(s)] *)
Definition len (s : string) : Z := Z.of_nat (String.length s).

(** [s[i:]] *)
Fixpoint slice_from (i : nat) (s : string) : string :=
  match i, s with
  | O, _ => s
  | S k, String _ s' => slice_from k s'
  | S _, EmptyString => EmptyString
  end.

(** [s[:i]] *)
Definition slice_to (i : nat) (s : string) : string := String.substring 0 i s.

(** [strings.Repeat(s, count)] *)
Fixpoint Repeat (s : string) (count : nat) : string :=
  match count with
  | O => EmptyString
  | S k => String.append s (Repeat s k)
  end.

Definition RuneError : Z := 65533.
Definition RuneSelf : Z := 128.
Definition UTFMax : nat := 4.

(** The table [first] of package utf8: information about the first byte of
    an encoding. *)
Definition t_as : Z := 240.  (* 0xF0: ASCII, size 1 *)
Definition t_xx : Z := 241.  (* 0xF1: invalid, size 1 *)
Definition t_s1 : Z := 2.    (* 0x02: accept 0, size 2 *)
Definition t_s2 : Z := 19.   (* 0x13: accept 1, size 3 *)
Definition t_s3 : Z := 3.    (* 0x03: accept 0, size 3 *)
Definition t_s4 : Z := 35.   (* 0x23: accept 2, size 3 *)
Definition t_s5 : Z := 52.   (* 0x34: accept 3, size 4 *)
Definition t_s6 : Z := 4.    (* 0x04: accept 0, size 4 *)
Definition t_s7 : Z := 68.   (* 0x44: accept 4, size 4 *)

Definition first (b : Z) : Z :=
  if b <? 128 then t_as        (* 0x00-0x7F *)
  else if b <? 194 then t_xx   (* 0x80-0xC1 *)
  else if b <? 224 then t_s1   (* 0xC2-0xDF *)
  else if b =? 224 then t_s2   (* 0xE0 *)
  else if b <? 237 then t_s3   (* 0xE1-0xEC *)
  else if b =? 237 then t_s4   (* 0xED *)
  else if b <? 240 then t_s3   (* 0xEE-0xEF *)
  else if b =? 240 then t_s5   (* 0xF0 *)
  else if b <? 244 then t_s6   (* 0xF1-0xF3 *)
  else if b =? 244 then t_s7   (* 0xF4 *)
  else t_xx.                   (* 0xF5-0xFF *)

Definition locb : Z := 128.
Definition hicb : Z := 191.

(** [acceptRanges]: the admissible range of the second byte. *)
Definition acceptRanges (i : Z) : Z * Z :=
  if i =? 0 then (locb, hicb)
  else if i =? 1 then (160, hicb)
  else if i =? 2 then (locb, 159)
  else if i =? 3 then (144, hicb)
  else (locb, 143).

Definition maskx : Z := 63.
Definition mask2 : Z := 31.
Definition mask3 : Z := 15.
Definition mask4 : Z := 7.

Definition byte_at (i : nat) (s : string) : option Z :=
  byte <$> String.get i s.

(** [utf8.DecodeRuneInString]: the first rune of [s] and its width in
    bytes; [(RuneError, 1)] on an invalid encoding, [(RuneError, 0)] on the
    empty string. *)
Definition DecodeRuneInString (s : string) : Z * nat :=
  match byte_at 0 s with
  | None => (RuneError, O)
  | Some s0 =>
    let x := first s0 in
    if t_as <=? x then
      (* the mask of the source is all ones exactly when x is odd (xx) *)
      (if Z.testbit x 0 then RuneError else s0, 1%nat)
    else
      let sz := Z.to_nat (Z.land x 7) in
      let accept := acceptRanges (Z.shiftr x 4) in
      if bool_decide (String.length s < sz)%nat then (RuneError, 1%nat)
      else match byte_at 1 s with
      | None => (RuneError, 1%nat)
      | Some s1 =>
        if (s1 <? fst accept) || (snd accept <? s1) then (RuneError, 1%nat)
        else if bool_decide (sz <= 2)%nat then
          (Z.lor (Z.shiftl (Z.land s0 mask2) 6) (Z.land s1 maskx), 2%nat)
        else
          match byte_at 2 s with
          | None => (RuneError, 1%nat)
          | Some s2 =>
            if (s2 <? locb) || (hicb <? s2) then (RuneError, 1%nat)
            else if bool_decide (sz <= 3)%nat then
              (Z.lor (Z.lor (Z.shiftl (Z.land s0 mask3) 12)
                            (Z.shiftl (Z.land s1 maskx) 6))
                     (Z.land s2 maskx), 3%nat)
            else
              match byte_at 3 s with
              | None => (RuneError, 1%nat)
              | Some s3 =>
                if (s3 <? locb) || (hicb <? s3) then (RuneError, 1%nat)
                else
                  (Z.lor (Z.lor (Z.lor (Z.shiftl (Z.land s0 mask4) 18)
                                       (Z.shiftl (Z.land s1 maskx) 12))
                                (Z.shiftl (Z.land s2 maskx) 6))
                         (Z.land s3 maskx), 4%nat)
              end
          end
      end
  end.

(** [utf8.RuneStart] *)
Definition RuneStart (b : Z) : bool := negb (Z.land b 192 =? 128).

(** The backwards scan of [DecodeLastRuneInString]:
    [for start--; start >= lim; start-- { if RuneStart(s[start]) { break } }],
    entered with [start] one past the first index tried; [None] stands for
    leaving the loop at [lim - 1]. *)
Fixpoint scan_start (s : string) (start lim : nat) : option nat :=
  match start with
  | O => None
  | S k =>
    if bool_decide (k < lim)%nat then None
    else match byte_at k s with
         | Some b => if RuneStart b then Some k else scan_start s k lim
         | None => None
         end
  end.

(** [utf8.DecodeLastRuneInString] *)
Definition DecodeLastRuneInString (s : string) : Z * nat :=
  let end_ := String.length s in
  match end_ with
  | O => (RuneError, O)
  | S start =>
    match byte_at start s with
    | None => (RuneError, O)
    | Some r =>
      if r <? RuneSelf then (r, 1%nat)
      else
        let lim := (end_ - UTFMax)%nat in
        (* leaving the loop at lim - 1, a negative start is clamped to 0 *)
        let start' :=
          match scan_start s start lim with
          | Some k => k
          | None => (lim - 1)%nat
          end in
        let '(r', size) := DecodeRuneInString (slice_from start' s) in
        if bool_decide ((start' + size)%nat = end_) then (r', size)
        else (RuneError, 1%nat)
    end
  end.

(** [unicode.IsSpace] *)
Definition IsSpace (r : Z) : bool :=
  if r <=? 255 then
    (r =? 9) || (r =? 10) || (r =? 11) || (r =? 12) || (r =? 13) || (r =? 32)
    || (r =? 133) || (r =? 160)
  else
    (* White_Space outside Latin-1 *)
    (r =? 5760) || ((8192 <=? r) && (r <=? 8202)) || (r =? 8232) || (r =? 8233)
    || (r =? 8239) || (r =? 8287) || (r =? 12288).

(** The table [asciiSpace] of package strings. *)
Definition asciiSpace (c : Z) : bool :=
  (c =? 9) || (c =? 10) || (c =? 11) || (c =? 12) || (c =? 13) || (c =? 32).

(** [strings.TrimLeftFunc(s, f)]: [indexFunc(s, f, false)] ranges over the
    runes of [s]; [skip] counts the remaining bytes of the rune being
    stepped over. *)
Fixpoint TrimLeftFunc_from (f : Z -> bool) (s : string) (skip : nat) : string :=
  match s with
  | EmptyString => EmptyString
  | String _ s' =>
    match skip with
    | S k => TrimLeftFunc_from f s' k
    | O =>
      let '(r, size) := DecodeRuneInString s in
      if f r then TrimLeftFunc_from f s' (size - 1) else s
    end
  end.

Definition TrimLeftFunc (s : string) (f : Z -> bool) : string :=
  TrimLeftFunc_from f s 0.

(** [lastIndexFunc(s, f, false)]: [None] stands for -1. *)
Fixpoint lastIndexFunc_from (f : Z -> bool) (s : string) (i skip : nat) : option nat :=
  match i with
  | O => None
  | S k =>
    match skip with
    | S j => lastIndexFunc_from f s k j
    | O =>
      let '(r, size) := DecodeLastRuneInString (slice_to i s) in
      if f r then lastIndexFunc_from f s k (size - 1)
      else Some (i - size)%nat
    end
  end.

(** [strings.TrimRightFunc] *)
Definition TrimRightFunc (s : string) (f : Z -> bool) : string :=
  match lastIndexFunc_from f s (String.length s) 0 with
  | None => slice_to 0 s
  | Some i =>
    match byte_at i s with
    | Some b =>
      if RuneSelf <=? b then
        let '(_, wid) := DecodeRuneInString (slice_from i s) in
        slice_to (i + wid) s
      else slice_to (i + 1) s
    | None => slice_to (i + 1) s
    end
  end.

(** [strings.TrimFunc] *)
Definition TrimFunc (s : string) (f : Z -> bool) : string :=
  TrimRightFunc (TrimLeftFunc s f) f.

(** The second loop of [TrimSpace], over [t = s[start:]], [stop] counted
    from the start of [t]. *)
Fixpoint TrimSpace_stop (t : string) (stop : nat) : string :=
  match stop with
  | O => slice_to 0 t
  | S k =>
    match byte_at k t with
    | Some c =>
      if RuneSelf <=? c then TrimRightFunc (slice_to stop t) IsSpace
      else if asciiSpace c then TrimSpace_stop t k
      else slice_to stop t
    | None => slice_to stop t
    end
  end.

(** [strings.TrimSpace]: the fast path over ASCII bytes, falling back to
    the rune-aware functions at the first non-ASCII byte. *)
Fixpoint TrimSpace (s : string) : string :=
  match s with
  | EmptyString => EmptyString
  | String c s' =>
    if RuneSelf <=? byte c then TrimFunc s IsSpace
    else if asciiSpace (byte c) then TrimSpace s'
    else TrimSpace_stop s (String.length s)
  end.

End GoStrings.

(** ** The data model *)

(** [entities.Post] *)
Record Post := mkPost {
  ID : Z;
  Title : string;
  Content : string;
  Author : string
}.

(** Go's [error] values: the two package-level errors of
    [domain/repositories] and the values made by [errors.New]; the [nil]
    error is [None] of [option error]. *)
Inductive error :=
| ErrPostNotFound            (* errors.New("post not found") *)
| ErrPostExists              (* errors.New("post already exists") *)
| errors_New (msg : string).

(** [err.Error()] *)
Definition Error (e : error) : string :=
  match e with
  | ErrPostNotFound => "post not found"
  | ErrPostExists => "post already exists"
  | errors_New msg => msg
  end.

(** Addresses of [Post] cells; a [*entities.Post] is [nil] or an address. *)
Abbreviation loc := nat (only parsing).
Abbreviation ptr := (option nat) (only parsing).
Definition nil : ptr := None.

(** [MemoryPostRepository]; the mutex has no state of its own in a
    sequential run, every method holding it from entry to return. *)
Record MemoryPostRepository := mkRepo {
  posts : gmap Z loc;
  nextID : Z
}.

(** The memory a run works on: the [Post] cells allocated so far (cell [l]
    is the [l]-th allocation; Go never frees a reachable cell) and the one
    repository instance. *)
Record World := mkWorld {
  mem : list Post;
  repo : MemoryPostRepository
}.

(** ** Computations over the world: state passing, [None] for a panic *)

Definition M (A : Type) : Type := World -> option (A * World).

#[global] Instance M_ret : MRet M := fun A a w => Some (a, w).
#[global] Instance M_bind : MBind M := fun A B f m w =>
  match m w with
  | Some (a, w') => f a w'
  | None => None
  end.

Definition panic {A : Type} : M A := fun _ => None.

(** [&Post{...}] and [c := *p; &c]: a new cell. *)
Definition alloc (v : Post) : M loc := fun w =>
  Some (length (mem w), mkWorld (mem w ++ [v]) (repo w)).

(** [*p]; dereferencing [nil] panics. *)
Definition load (p : ptr) : M Post := fun w =>
  match p with
  | Some l => match mem w !! l with
              | Some v => Some (v, w)
              | None => None
              end
  | None => None
  end.

(** [*p = v] *)
Definition store (p : ptr) (v : Post) : M unit := fun w =>
  match p with
  | Some l => match mem w !! l with
              | Some _ => Some (tt, mkWorld (<[l := v]> (mem w)) (repo w))
              | None => None
              end
  | None => None
  end.

Definition get_repo : M MemoryPostRepository := fun w => Some (repo w, w).
Definition put_repo (r : MemoryPostRepository) : M unit := fun w =>
  Some (tt, mkWorld (mem w) r).

(** [r.posts[id] = p] and [r.nextID = n] *)
Definition set_post (id : Z) (p : loc) : M unit :=
  r ← get_repo; put_repo (mkRepo (<[id := p]> (posts r)) (nextID r)).
Definition set_nextID (n : Z) : M unit :=
  r ← get_repo; put_repo (mkRepo (posts r) n).
(** [delete(r.posts, id)] *)
Definition delete_post (id : Z) : M unit :=
  r ← get_repo; put_repo (mkRepo (delete id (posts r)) (nextID r)).

(** ** [entities]: post.go *)

Definition title_required : string := "title is required".
Definition content_required : string := "content is required".
Definition author_required : string := "author is required".
Definition title_too_long : string := "title must be less than 255 characters".

(** The body of [Validate] over the fields of the receiver. *)
Definition validate (p : Post) : option error :=
  if bool_decide (GoStrings.TrimSpace (Title p) = "") then
    Some (errors_New title_required)
  else if bool_decide (GoStrings.TrimSpace (Content p) = "") then
    Some (errors_New content_required)
  else if bool_decide (GoStrings.TrimSpace (Author p) = "") then
    Some (errors_New author_required)
  else if 255 <? GoStrings.len (Title p) then
    Some (errors_New title_too_long)
  else None.

(** [func (p *Post) Validate() error] *)
Definition Validate (p : ptr) : M (option error) :=
  v ← load p; mret (validate v).

(** [func NewPost(id int, title, content, author string)], returning a
    [*Post] and an [error] *)
Definition NewPost (id : Z) (title content author : string)
  : M (ptr * option error) :=
  post ← alloc (mkPost id title content author);
  err ← Validate (Some post);
  match err with
  | Some e => mret (nil, Some e)
  | None => mret (Some post, None)
  end.

(** [func (p *Post) Update(title, content, author string) error] *)
Definition Update (p : ptr) (title content author : string) : M (option error) :=
  v ← load p;
  temp ← alloc (mkPost (ID v) title content author);
  err ← Validate (Some temp);
  match err with
  | Some e => mret (Some e)
  | None =>
    v ← load p; store p (mkPost (ID v) title (Content v) (Author v));;
    v ← load p; store p (mkPost (ID v) (Title v) content (Author v));;
    v ← load p; store p (mkPost (ID v) (Title v) (Content v) author);;
    mret None
  end.

(** ** [repositories]: memory_post_repository.go *)

Module Repo.

(** [NewMemoryPostRepository] *)
Definition NewMemoryPostRepository : MemoryPostRepository :=
  mkRepo ∅ 1.

(** [func (r *MemoryPostRepository) Create(post *entities.Post) error] *)
Definition Create (post : ptr) : M (option error) :=
  v ← load post;
  r ← get_repo;
  match posts r !! ID v with
  | Some _ => mret (Some ErrPostExists)
  | None =>
    postCopy ← alloc v;
    set_post (ID v) postCopy;;
    (if nextID r <=? ID v then set_nextID (GoInt.add (ID v) 1) else mret tt);;
    mret None
  end.

(** [func (r *MemoryPostRepository) CreatePost(title, content, author string)],
    returning a [*entities.Post] and an [error] *)
Definition CreatePost (title content author : string) : M (ptr * option error) :=
  r ← get_repo;
  let id := nextID r in
  set_nextID (GoInt.incr (nextID r));;
  '(post, err) ← NewPost id title content author;
  match err with
  | Some e => mret (nil, Some e)
  | None =>
    v ← load post;
    postCopy ← alloc v;
    set_post (ID v) postCopy;;
    v' ← load post;
    resultCopy ← alloc v';
    mret (Some resultCopy, None)
  end.

(** [func (r *MemoryPostRepository) GetByID(id int)], returning a
    [*entities.Post] and an [error] *)
Definition GetByID (id : Z) : M (ptr * option error) :=
  r ← get_repo;
  match posts r !! id with
  | None => mret (nil, Some ErrPostNotFound)
  | Some post =>
    v ← load (Some post);
    postCopy ← alloc v;
    mret (Some postCopy, None)
  end.

(** The loop of [GetAll] over the entries of the map in the order the
    [range] statement happens to visit them. *)
Fixpoint GetAll_range (entries : list (Z * loc)) (acc : list ptr) : M (list ptr) :=
  match entries with
  | [] => mret acc
  | (_, post) :: rest =>
    v ← load (Some post);
    postCopy ← alloc v;
    GetAll_range rest (acc ++ [Some postCopy])
  end.

(** [sort.Slice(posts, func(i, j int) bool { return posts[i].ID < posts[j].ID })]:
    the keys are read through the pointers; the sort itself is an insertion
    sort on the [less] of the source. *)
Definition less (a b : Z * ptr) : bool := fst a <? fst b.

Fixpoint sort_insert (x : Z * ptr) (l : list (Z * ptr)) : list (Z * ptr) :=
  match l with
  | [] => [x]
  | y :: l' => if less y x then y :: sort_insert x l' else x :: l
  end.

Fixpoint sort_keyed (l : list (Z * ptr)) : list (Z * ptr) :=
  match l with
  | [] => []
  | x :: l' => sort_insert x (sort_keyed l')
  end.

Fixpoint read_keys (ps : list ptr) : M (list (Z * ptr)) :=
  match ps with
  | [] => mret []
  | p :: rest =>
    v ← load p;
    ks ← read_keys rest;
    mret ((ID v, p) :: ks)
  end.

Definition sort_Slice (ps : list ptr) : M (list ptr) :=
  ks ← read_keys ps; mret (snd <$> sort_keyed ks).

(** The body of [GetAll] once the [range] statement has settled on the
    order [entries] in which it visits the map. *)
Definition GetAll_in (entries : list (Z * loc)) : M (list ptr * option error) :=
  ps ← GetAll_range entries [];
  sorted ← sort_Slice ps;
  mret (sorted, None).

(** [func (r *MemoryPostRepository) GetAll()], returning a slice of
    [*entities.Post] and an [error].  Go leaves the iteration order of a map
    open: [map_to_list] is one order, and the statements about [GetAll] are
    made of [GetAll_in] for every order. *)
Definition GetAll : M (list ptr * option error) :=
  r ← get_repo; GetAll_in (map_to_list (posts r)).

(** [func (r *MemoryPostRepository) Update(id int, post *entities.Post) error] *)
Definition Update (id : Z) (post : ptr) : M (option error) :=
  r ← get_repo;
  match posts r !! id with
  | None => mret (Some ErrPostNotFound)
  | Some _ =>
    v ← load post;
    postCopy ← alloc v;
    w ← load (Some postCopy);
    store (Some postCopy) (mkPost id (Title w) (Content w) (Author w));;
    set_post id postCopy;;
    mret None
  end.

(** [func (r *MemoryPostRepository) Delete(id int) error] *)
Definition Delete (id : Z) : M (option error) :=
  r ← get_repo;
  match posts r !! id with
  | None => mret (Some ErrPostNotFound)
  | Some _ => delete_post id;; mret None
  end.

(** [func (r *MemoryPostRepository) Exists(id int) bool] *)
Definition Exists (id : Z) : M bool :=
  r ← get_repo; mret (bool_decide (is_Some (posts r !! id))).

(** One iteration of the loop of [LoadData]. *)
Definition LoadData_step (post : ptr) : M unit :=
  v ← load post;
  postCopy ← alloc v;
  set_post (ID v) postCopy;;
  r ← get_repo;
  if nextID r <=? ID v then set_nextID (GoInt.add (ID v) 1) else mret tt.

(** [func (r *MemoryPostRepository) LoadData(posts []*entities.Post) error] *)
Fixpoint LoadData (ps : list ptr) : M (option error) :=
  match ps with
  | [] => mret None
  | post :: rest => LoadData_step post;; LoadData rest
  end.

End Repo.

(** ** [services]: post_service.go, over the in-memory repository; the
    logger calls write to the log only and are left out. *)

Module Service.

(** [func (s *PostService) CreatePost(title, content, author string)] *)
Definition CreatePost (title content author : string) : M (ptr * option error) :=
  '(post, err) ← Repo.CreatePost title content author;
  match err with
  | Some e => mret (nil, Some e)
  | None => mret (post, None)
  end.

(** [func (s *PostService) GetPostByID(id int)] *)
Definition GetPostByID (id : Z) : M (ptr * option error) :=
  '(post, err) ← Repo.GetByID id;
  match err with
  | Some e => mret (nil, Some e)
  | None => mret (post, None)
  end.

(** [func (s *PostService) GetAllPosts()] *)
Definition GetAllPosts : M (list ptr * option error) :=
  '(ps, err) ← Repo.GetAll;
  match err with
  | Some e => mret ([], Some e)
  | None => mret (ps, None)
  end.

(** [func (s *PostService) UpdatePost(id int, title, content, author string)] *)
Definition UpdatePost (id : Z) (title content author : string)
  : M (ptr * option error) :=
  '(existingPost, err) ← Repo.GetByID id;
  match err with
  | Some e => mret (nil, Some e)
  | None =>
    err ← Update existingPost title content author;
    match err with
    | Some e => mret (nil, Some e)
    | None =>
      err ← Repo.Update id existingPost;
      match err with
      | Some e => mret (nil, Some e)
      | None => mret (existingPost, None)
      end
    end
  end.

(** [func (s *PostService) DeletePost(id int) error] *)
Definition DeletePost (id : Z) : M (option error) :=
  err ← Repo.Delete id;
  match err with
  | Some e => mret (Some e)
  | None => mret None
  end.

End Service.

(** ** Callers

    What code outside the repository can do in one step: build a [Post]
    value of its own, assign to a [Post] it holds a pointer to, or call a
    method of the repository (or [UpdatePost] of the service) on pointers it
    holds; [DoGetAll] comes with the order in which the run visits the map.  [held] is the set of pointers callers know: the ones they made
    and every pointer a call returned to them.  [entities.NewPost] and the
    entity's [Update], called by a caller on its own pointers, are covered by
    [CallerNew] and [CallerWrite]. *)

Record Sys := mkSys {
  world : World;
  held : list loc
}.

Inductive call :=
| CallerNew (v : Post)
| CallerWrite (l : loc) (v : Post)
| DoCreate (post : ptr)
| DoCreatePost (title content author : string)
| DoGetByID (id : Z)
| DoGetAll (order : list (Z * loc))
| DoUpdate (id : Z) (post : ptr)
| DoDelete (id : Z)
| DoExists (id : Z)
| DoLoadData (ps : list ptr)
| DoUpdatePost (id : Z) (title content author : string).

(** A pointer a caller can pass: [nil] or one it holds. *)
Definition known (h : list loc) (p : ptr) : Prop :=
  match p with
  | Some l => l ∈ h
  | None => True
  end.

#[global] Instance known_dec h p : Decision (known h p).
Proof. destruct p; simpl; apply _. Defined.

(** The pointers a caller holds after a call returned [p]. *)
Definition received (p : ptr) (h : list loc) : list loc :=
  match p with
  | Some l => l :: h
  | None => h
  end.

Definition run_call (c : call) (s : Sys) : option Sys :=
  match c with
  | CallerNew v =>
    '(l, w) ← alloc v (world s); Some (mkSys w (l :: held s))
  | CallerWrite l v =>
    if decide (l ∈ held s)
    then '(_, w) ← store (Some l) v (world s); Some (mkSys w (held s))
    else None
  | DoCreate post =>
    if decide (known (held s) post)
    then '(_, w) ← Repo.Create post (world s); Some (mkSys w (held s))
    else None
  | DoCreatePost title content author =>
    '(r, w) ← Repo.CreatePost title content author (world s);
    Some (mkSys w (received (fst r) (held s)))
  | DoGetByID id =>
    '(r, w) ← Repo.GetByID id (world s);
    Some (mkSys w (received (fst r) (held s)))
  | DoGetAll order =>
    if decide (order ≡ₚ map_to_list (posts (repo (world s))))
    then '(r, w) ← Repo.GetAll_in order (world s);
         Some (mkSys w (foldr received (held s) (fst r)))
    else None
  | DoUpdate id post =>
    if decide (known (held s) post)
    then '(_, w) ← Repo.Update id post (world s); Some (mkSys w (held s))
    else None
  | DoDelete id =>
    '(_, w) ← Repo.Delete id (world s); Some (mkSys w (held s))
  | DoExists id =>
    '(_, w) ← Repo.Exists id (world s); Some (mkSys w (held s))
  | DoLoadData ps =>
    if decide (Forall (known (held s)) ps)
    then '(_, w) ← Repo.LoadData ps (world s); Some (mkSys w (held s))
    else None
  | DoUpdatePost id title content author =>
    '(r, w) ← Service.UpdatePost id title content author (world s);
    Some (mkSys w (received (fst r) (held s)))
  end.

Fixpoint run (cs : list call) (s : Sys) : option Sys :=
  match cs with
  | [] => Some s
  | c :: cs' =>
    match run_call c s with
    | Some s' => run cs' s'
    | None => None
    end
  end.

(** The program starts with a new repository and no [Post] allocated. *)
Definition init : Sys := mkSys (mkWorld [] Repo.NewMemoryPostRepository) [].

Definition reachable (s : Sys) : Prop := exists cs, run cs init = Some s.

(** What the repository holds, by value: every key with the [Post] its
    pointer leads to. *)
Definition contents (w : World) : gmap Z Post :=
  omap (fun l => mem w !! l) (posts (repo w)).

(** The observable state of the store: its contents and its counter. *)
Definition store_state (w : World) : gmap Z Post * Z :=
  (contents w, nextID (repo w)).

(** *** Runs in which the counter does not wrap around

    [nowrap c s]: the sums that call [c] computes on [int] in state [s]
    ([r.nextID++], [post.ID + 1]) are representable. *)

Definition id_nowrap (w : World) (p : ptr) : bool :=
  match p with
  | Some l => match mem w !! l with
              | Some v => GoInt.in_rangeb (ID v + 1)
              | None => true
              end
  | None => true
  end.

Definition nowrap (c : call) (s : Sys) : bool :=
  match c with
  | DoCreate post => id_nowrap (world s) post
  | DoCreatePost _ _ _ => GoInt.in_rangeb (nextID (repo (world s)) + 1)
  | DoLoadData ps => forallb (id_nowrap (world s)) ps
  | _ => true
  end.

Fixpoint nowrap_run (cs : list call) (s : Sys) : bool :=
  match cs with
  | [] => true
  | c :: cs' =>
    nowrap c s &&
    match run_call c s with
    | Some s' => nowrap_run cs' s'
    | None => true
    end
  end.

(** The world after the repository has taken a copy of [v] under [v]'s
    own ID: the state a successful [Create] and one iteration of [LoadData]
    leave. *)
Definition inserted (v : Post) (w : World) : World :=
  mkWorld (mem w ++ [v])
          (mkRepo (<[ID v := length (mem w)]> (posts (repo w)))
                  (if nextID (repo w) <=? ID v then GoInt.add (ID v) 1
                   else nextID (repo w))).

(** The world after [LoadData] has gone through a batch holding the values
    [vs]. *)
Definition loaded (vs : list Post) (w : World) : World :=
  foldl (fun w v => inserted v w) w vs.

(** [p] points to a cell holding [v]. *)
Definition points_to (w : World) (p : ptr) (v : Post) : Prop :=
  exists l, p = Some l /\ mem w !! l = Some v.

(** *** Invariants of the reachable states *)

(** Every pointer in the map leads to an allocated cell whose [ID] field
    is the key it is stored under. *)
Definition cells_ok (w : World) : Prop :=
  forall id l, posts (repo w) !! id = Some l ->
    exists v, mem w !! l = Some v /\ ID v = id.

(** No caller holds a pointer that the map holds. *)
Definition private (s : Sys) : Prop :=
  forall id l, posts (repo (world s)) !! id = Some l -> l ∉ held s.

(** Callers hold allocated cells only. *)
Definition held_ok (s : Sys) : Prop :=
  forall l, l ∈ held s -> (l < length (mem (world s)))%nat.

Record wf (s : Sys) : Prop := mk_wf {
  wf_cells : cells_ok (world s);
  wf_private : private s;
  wf_held : held_ok s
}.

(** The counter is above every key of the map. *)
Definition keys_below (w : World) : Prop :=
  forall id, is_Some (posts (repo w) !! id) -> id < nextID (repo w).

(** *** The validation rules as the specification lists them

    "title is required", "content is required", "author is required",
    "title must be less than 255 characters", checked in that order: the
    three blank-after-trim checks, then the length check on the title. *)

Inductive rule := TitleBlank | ContentBlank | AuthorBlank | TitleTooLong.

Definition rules : list rule :=
  [TitleBlank; ContentBlank; AuthorBlank; TitleTooLong].

Definition blank (s : string) : Prop := GoStrings.TrimSpace s = "".

Definition violates (title content author : string) (r : rule) : Prop :=
  match r with
  | TitleBlank => blank title
  | ContentBlank => blank content
  | AuthorBlank => blank author
  | TitleTooLong => 255 < GoStrings.len title
  end.

#[global] Instance violates_dec title content author r :
  Decision (violates title content author r).
Proof. destruct r; unfold violates, blank; apply _. Defined.

Definition message (r : rule) : string :=
  match r with
  | TitleBlank => "title is required"
  | ContentBlank => "content is required"
  | AuthorBlank => "author is required"
  | TitleTooLong => "title must be less than 255 characters"
  end.

(** The first rule of the list that the fields violate. *)
Definition first_violated (title content author : string) : option rule :=
  List.find (fun r => bool_decide (violates title content author r)) rules.

(** The [Post] a pointer leads to, if any. *)
Definition deref (w : World) (p : ptr) : option Post :=
  match p with
  | Some l => mem w !! l
  | None => None
  end.

(** The state a sequence of calls leads to from the start. *)
Definition after (cs : list call) : Sys := default init (run cs init).

(** The order [sort.Slice] sorts the keyed pointers by, and its strict
    version. *)
Definition key_le (a b : Z * ptr) : Prop := a.1 <= b.1.
Definition key_lt (a b : Z * ptr) : Prop := a.1 < b.1.

(** The [Post] behind a keyed pointer (an empty post when it leads
    nowhere). *)
Definition value_at (w : World) (x : Z * ptr) : Post :=
  default (mkPost 0 "" "" "") (deref w x.2).

(** A stored post listed with its ID. *)
Definition with_ID (v : Post) : Z * Post := (ID v, v).

(** The posts a run of [GetAll] hands out, read through the pointers it
    returned. *)
Definition posts_returned (r : option (list ptr * option error * World))
  : option (list (option Post)) :=
  match r with
  | Some (ps, _, w') => Some (deref w' <$> ps)
  | None => None
  end.

(** *** Characters and bytes

    [len(s)] is the number of bytes of [s]; its number of characters is
    the number of runes, [utf8.RuneCountInString(s)], counted as a [range]
    over [s] does: one [DecodeRuneInString] after the other, an invalid or
    short encoding counting as one rune of one byte.  [skip] counts the
    remaining bytes of the rune being stepped over. *)
Fixpoint RuneCount_from (s : string) (skip : nat) : nat :=
  match s with
  | EmptyString => O
  | String _ s' =>
    match skip with
    | S k => RuneCount_from s' k
    | O =>
      let '(_, size) := GoStrings.DecodeRuneInString s in
      S (RuneCount_from s' (size - 1))
    end
  end.

Definition RuneCountInString (s : string) : Z := Z.of_nat (RuneCount_from s 0).

(** The string of the one character U+00E9 (the letter e with an acute
    accent): the two bytes 0xC3 0xA9 in UTF-8. *)
Definition e_acute : string :=
  String (ascii_of_nat 195) (String (ascii_of_nat 169) EmptyString).

(** ** [strconv.Atoi] of Go's library, which the handlers parse the id of
    the route with

    [Atoi] has a fast path for strings of 1 to 18 bytes and goes through
    [ParseInt(s, 10, 0)] and [ParseUint(s, 10, 0)] otherwise; an error is
    a [*NumError] wrapping [ErrSyntax] or [ErrRange]. *)

Module strconv.

Inductive NumError := ErrSyntax | ErrRange.

Definition maxUint64 : Z := 2 ^ 64 - 1.

(** The loop of the fast path: [ch -= '0'] on a byte wraps around below
    ['0'], so that [ch > 9] refuses every byte that is not a digit. *)
Fixpoint Atoi_digits (s : string) (n : Z) : option Z :=
  match s with
  | EmptyString => Some n
  | String c s' =>
    let ch := (GoStrings.byte c - 48) mod 256 in
    if 9 <? ch then None else Atoi_digits s' (n * 10 + ch)
  end.

(** The loop of [ParseUint] in base 10 with [bitSize] 0, which stands for
    the 64 bits of [int]: [cutoff] is [maxUint64/10 + 1], [maxVal] is
    [maxUint64]; a letter is a digit of value 10 or more and refused like
    every other byte that is no decimal digit. *)
Fixpoint ParseUint_digits (s : string) (n : Z) : Z * option NumError :=
  match s with
  | EmptyString => (n, None)
  | String c s' =>
    let b := GoStrings.byte c in
    if (48 <=? b) && (b <=? 57) then
      let d := b - 48 in
      if maxUint64 / 10 + 1 <=? n then (maxUint64, Some ErrRange)
      else
        let n10 := (n * 10) mod 2 ^ 64 in
        let n1 := (n10 + d) mod 2 ^ 64 in
        if (n1 <? n10) || (maxUint64 <? n1) then (maxUint64, Some ErrRange)
        else ParseUint_digits s' n1
    else (0, Some ErrSyntax)
  end.

(** [ParseUint(s, 10, 0)] *)
Definition ParseUint (s : string) : Z * option NumError :=
  match s with
  | EmptyString => (0, Some ErrSyntax)
  | _ => ParseUint_digits s 0
  end.

(** [ParseInt(s, 10, 0)] *)
Definition ParseInt (s : string) : Z * option NumError :=
  match s with
  | EmptyString => (0, Some ErrSyntax)
  | String c rest =>
    let neg := Ascii.eqb c "-" in
    let s1 := if Ascii.eqb c "+" || neg then rest else s in
    let '(un, err) := ParseUint s1 in
    match err with
    | Some ErrSyntax => (0, Some ErrSyntax)
    | _ =>
      let cutoff := 2 ^ (GoInt.intSize - 1) in
      if negb neg && (cutoff <=? un) then (cutoff - 1, Some ErrRange)
      else if neg && (cutoff <? un) then (- cutoff, Some ErrRange)
      else
        let n := GoInt.wrap un in
        (if neg then GoInt.wrap (- n) else n, None)
    end
  end.

(** [func Atoi(s string) (int, error)] *)
Definition Atoi (s : string) : Z * option NumError :=
  let sLen := GoStrings.len s in
  if (0 <? sLen) && (sLen <? 19) then
    match s with
    | EmptyString => (0, Some ErrSyntax)
    | String c rest =>
      let sign := Ascii.eqb c "-" || Ascii.eqb c "+" in
      let s1 := if sign then rest else s in
      if sign && (GoStrings.len s1 <? 1) then (0, Some ErrSyntax)
      else
        match Atoi_digits s1 0 with
        | None => (0, Some ErrSyntax)
        | Some n => (if Ascii.eqb c "-" then - n else n, None)
        end
    end
  else ParseInt s.

End strconv.

(** ** [loader]: data_loader.go *)

Module loader.

(** [PostData], a record of the data file *)
Module PostData.
Record t := mk {
  ID : Z;
  Title : string;
  Content : string;
  Author : string
}.
End PostData.

(** What [os.ReadFile] and [json.Unmarshal] make of the file named: the
    error of the first, the error of the second, or the [BlogData] read. *)
Inductive file :=
| ReadFile_error (err : error)
| Unmarshal_error (err : error)
| BlogData (Posts : list PostData.t).

(** The loop of [LoadFromFile] over the records: [NewPost] on each, the
    first error ending the function. *)
Fixpoint LoadFromFile_range (data : list PostData.t) (posts : list ptr)
  : M (list ptr * option error) :=
  match data with
  | [] => mret (posts, None)
  | postData :: rest =>
    '(post, err) ← NewPost (PostData.ID postData) (PostData.Title postData)
                           (PostData.Content postData) (PostData.Author postData);
    match err with
    | Some e => mret (posts, Some e)
    | None => LoadFromFile_range rest (posts ++ [post])
    end
  end.

(** [func (dl *DataLoader) LoadFromFile(filename string) error], on what
    the file named gives. *)
Definition LoadFromFile (f : file) : M (option error) :=
  match f with
  | ReadFile_error err => mret (Some err)
  | Unmarshal_error err => mret (Some err)
  | BlogData data =>
    '(posts, err) ← LoadFromFile_range data [];
    match err with
    | Some e => mret (Some e)
    | None =>
      err ← Repo.LoadData posts;
      match err with
      | Some e => mret (Some e)
      | None => mret None
      end
    end
  end.

End loader.

(** ** [dto]: the request and response structs of the REST interface *)

Module dto.

Module CreatePostRequest.
Record t := mk {
  Title : string;
  Content : string;
  Author : string
}.
End CreatePostRequest.

Module UpdatePostRequest.
Record t := mk {
  Title : string;
  Content : string;
  Author : string
}.
End UpdatePostRequest.

Module PostResponse.
Record t := mk {
  ID : Z;
  Title : string;
  Content : string;
  Author : string
}.
End PostResponse.

Module ErrorResponse.
Record t := mk {
  Error : string;
  Message : string
}.
End ErrorResponse.

Module PostsResponse.
Record t := mk {
  Posts : list PostResponse.t;
  Total : Z
}.
End PostsResponse.

(** [func ToPostResponse(post *entities.Post) PostResponse] *)
Definition ToPostResponse (post : ptr) : M PostResponse.t :=
  v ← load post;
  mret (PostResponse.mk (ID v) (Title v) (Content v) (Author v)).

(** The loop of [ToPostsResponse]. *)
Fixpoint ToPostsResponse_range (posts : list ptr) : M (list PostResponse.t) :=
  match posts with
  | [] => mret []
  | post :: rest =>
    response ← ToPostResponse post;
    responses ← ToPostsResponse_range rest;
    mret (response :: responses)
  end.

(** [func ToPostsResponse(posts []*entities.Post) PostsResponse] *)
Definition ToPostsResponse (posts : list ptr) : M PostsResponse.t :=
  responses ← ToPostsResponse_range posts;
  mret (PostsResponse.mk responses (Z.of_nat (length posts))).

End dto.

(** ** [rest]: post_handler.go and the routes of router.go

    A handler answers with one [c.JSON(code, obj)]: the status code and the
    value serialised.  The id of the route ([c.Param("id")]) and what
    [c.ShouldBindJSON(&req)] makes of the body (its error, or the request
    struct bound) are the arguments of a handler. *)

Module http.
Definition StatusOK : Z := 200.
Definition StatusCreated : Z := 201.
Definition StatusNoContent : Z := 204.
Definition StatusBadRequest : Z := 400.
Definition StatusNotFound : Z := 404.
Definition StatusInternalServerError : Z := 500.
End http.

Inductive JSON :=
| JSON_nil
| JSON_ErrorResponse (obj : dto.ErrorResponse.t)
| JSON_PostResponse (obj : dto.PostResponse.t)
| JSON_PostsResponse (obj : dto.PostsResponse.t).

Record Response := mkResponse {
  code : Z;
  obj : JSON
}.

(** [GetAllPosts] of the service once the [range] statement of the
    repository's [GetAll] has settled on the order [entries]
    ([Service.GetAllPosts] is this function on the order [map_to_list]). *)
Definition Service_GetAllPosts_in (entries : list (Z * loc))
  : M (list ptr * option error) :=
  '(ps, err) ← Repo.GetAll_in entries;
  match err with
  | Some e => mret ([], Some e)
  | None => mret (ps, None)
  end.

Module rest.

Definition c_JSON (code : Z) (obj : JSON) : M Response :=
  mret (mkResponse code obj).

Definition error_response (code : Z) (err message : string) : M Response :=
  c_JSON code (JSON_ErrorResponse (dto.ErrorResponse.mk err message)).

(** [func (h *PostHandler) CreatePost(c *gin.Context)] *)
Definition CreatePost (bind : error + dto.CreatePostRequest.t) : M Response :=
  match bind with
  | inl err =>
    error_response http.StatusBadRequest "validation_error" (Error err)
  | inr req =>
    '(post, err) ← Service.CreatePost (dto.CreatePostRequest.Title req)
                                      (dto.CreatePostRequest.Content req)
                                      (dto.CreatePostRequest.Author req);
    match err with
    | Some e => error_response http.StatusBadRequest "creation_failed" (Error e)
    | None =>
      response ← dto.ToPostResponse post;
      c_JSON http.StatusCreated (JSON_PostResponse response)
    end
  end.

(** The start of [GetPost], [UpdatePost] and [DeletePost]: the id of the
    route is checked and parsed, and [next] goes on with the number. *)
Definition with_id (idStr : string) (next : Z -> M Response) : M Response :=
  if bool_decide (idStr = "") then
    error_response http.StatusBadRequest "validation_error" "Post ID is required"
  else
    let '(id, err) := strconv.Atoi idStr in
    match err with
    | Some _ =>
      error_response http.StatusBadRequest "validation_error"
                     "Invalid post ID format"
    | None => next id
    end.

(** [func (h *PostHandler) GetPost(c *gin.Context)] *)
Definition GetPost (idStr : string) : M Response :=
  with_id idStr (fun id =>
    '(post, err) ← Service.GetPostByID id;
    match err with
    | Some ErrPostNotFound =>
      error_response http.StatusNotFound "not_found" "Post not found"
    | Some _ =>
      error_response http.StatusInternalServerError "internal_error"
                     "Failed to retrieve post"
    | None =>
      response ← dto.ToPostResponse post;
      c_JSON http.StatusOK (JSON_PostResponse response)
    end).

(** [func (h *PostHandler) GetAllPosts(c *gin.Context)], the repository
    visiting its map in the order [entries]. *)
Definition GetAllPosts_in (entries : list (Z * loc)) : M Response :=
  '(posts, err) ← Service_GetAllPosts_in entries;
  match err with
  | Some _ =>
    error_response http.StatusInternalServerError "internal_error"
                   "Failed to retrieve posts"
  | None =>
    response ← dto.ToPostsResponse posts;
    c_JSON http.StatusOK (JSON_PostsResponse response)
  end.

Definition GetAllPosts : M Response :=
  r ← get_repo; GetAllPosts_in (map_to_list (posts r)).

(** [func (h *PostHandler) UpdatePost(c *gin.Context)] *)
Definition UpdatePost (idStr : string) (bind : error + dto.UpdatePostRequest.t)
  : M Response :=
  with_id idStr (fun id =>
    match bind with
    | inl err =>
      error_response http.StatusBadRequest "validation_error" (Error err)
    | inr req =>
      '(post, err) ← Service.UpdatePost id (dto.UpdatePostRequest.Title req)
                                        (dto.UpdatePostRequest.Content req)
                                        (dto.UpdatePostRequest.Author req);
      match err with
      | Some ErrPostNotFound =>
        error_response http.StatusNotFound "not_found" "Post not found"
      | Some e => error_response http.StatusBadRequest "update_failed" (Error e)
      | None =>
        response ← dto.ToPostResponse post;
        c_JSON http.StatusOK (JSON_PostResponse response)
      end
    end).

(** [func (h *PostHandler) DeletePost(c *gin.Context)] *)
Definition DeletePost (idStr : string) : M Response :=
  with_id idStr (fun id =>
    err ← Service.DeletePost id;
    match err with
    | Some ErrPostNotFound =>
      error_response http.StatusNotFound "not_found" "Post not found"
    | Some _ =>
      error_response http.StatusInternalServerError "internal_error"
                     "Failed to delete post"
    | None => c_JSON http.StatusNoContent JSON_nil
    end).

End rest.

(** The requests on the routes of the group [/api/v1/posts] that
    [SetupRouter] registers, each with what its handler reads of it; the
    request for all posts comes with the order in which the run visits the
    map. *)
Inductive request :=
| POST_posts (bind : error + dto.CreatePostRequest.t)
| GET_posts (order : list (Z * loc))
| GET_posts_id (id : string)
| PUT_posts_id (id : string) (bind : error + dto.UpdatePostRequest.t)
| DELETE_posts_id (id : string).

(** The handler a request is routed to; a request for all posts with an
    order that is no order of the map at that point is no run of the
    program ([None]). *)
Definition route (r : request) : M Response :=
  match r with
  | POST_posts bind => rest.CreatePost bind
  | GET_posts order => fun w =>
    if decide (order ≡ₚ map_to_list (posts (repo w)))
    then rest.GetAllPosts_in order w
    else None
  | GET_posts_id id => rest.GetPost id
  | PUT_posts_id id bind => rest.UpdatePost id bind
  | DELETE_posts_id id => rest.DeletePost id
  end.

(** The server answering a sequence of requests one after the other. *)
Fixpoint serve (rs : list request) : M (list Response) :=
  match rs with
  | [] => mret []
  | r :: rs' =>
    response ← route r;
    responses ← serve rs';
    mret (response :: responses)
  end.

(** *** Validity of what is stored *)

(** Every stored post passes [Validate]. *)
Definition all_valid (w : World) : Prop :=
  forall id v, contents w !! id = Some v -> validate v = None.

(** [p] leads to a post that passes [Validate]. *)
Definition valid_at (w : World) (p : ptr) : bool :=
  match deref w p with
  | Some v => match validate v with None => true | Some _ => false end
  | None => true
  end.

(** [validated c s]: the posts that call [c] hands to a method that stores
    them as they are ([Create], [Update] and [LoadData] of the repository
    do not validate) pass [Validate] in state [s]. *)
Definition validated (c : call) (s : Sys) : bool :=
  match c with
  | DoCreate post => valid_at (world s) post
  | DoUpdate _ post => valid_at (world s) post
  | DoLoadData ps => forallb (valid_at (world s)) ps
  | _ => true
  end.

Fixpoint validated_run (cs : list call) (s : Sys) : bool :=
  match cs with
  | [] => true
  | c :: cs' =>
    validated c s &&
    match run_call c s with
    | Some s' => validated_run cs' s'
    | None => true
    end
  end.

(** The [Post] of a record of the data file. *)
Definition to_Post (d : loader.PostData.t) : Post :=
  mkPost (loader.PostData.ID d) (loader.PostData.Title d)
         (loader.PostData.Content d) (loader.PostData.Author d).

(** The response struct of a [Post]. *)
Definition to_response (v : Post) : dto.PostResponse.t :=
  dto.PostResponse.mk (ID v) (Title v) (Content v) (Author v).

(** *** The answers of the handlers *)

(** The answer to a request whose id or body is refused. *)
Definition validation_error (message : string) : Response :=
  mkResponse http.StatusBadRequest
    (JSON_ErrorResponse (dto.ErrorResponse.mk "validation_error" message)).

(** The answer to a request for a post that is not stored. *)
Definition not_found : Response :=
  mkResponse http.StatusNotFound
    (JSON_ErrorResponse (dto.ErrorResponse.mk "not_found" "Post not found")).

(** The answer that carries a post. *)
Definition post_response (code : Z) (v : Post) : Response :=
  mkResponse code (JSON_PostResponse (to_response v)).

(** The id of a route as the handlers read it: the number, or the answer
    to an id that is empty or that [Atoi] refuses. *)
Definition route_id (idStr : string) : Z + Response :=
  if bool_decide (idStr = "") then inr (validation_error "Post ID is required")
  else
    match strconv.Atoi idStr with
    | (id, None) => inl id
    | (_, Some _) => inr (validation_error "Invalid post ID format")
    end.

(** The call of the repository or of the service that the handler of a
    request makes, if it gets that far: none when the id of the route or
    the body is refused. *)
Definition calls_of (r : request) : list call :=
  match r with
  | POST_posts (inl _) => []
  | POST_posts (inr req) =>
    [DoCreatePost (dto.CreatePostRequest.Title req)
                  (dto.CreatePostRequest.Content req)
                  (dto.CreatePostRequest.Author req)]
  | GET_posts order => [DoGetAll order]
  | GET_posts_id idStr =>
    match route_id idStr with inl id => [DoGetByID id] | inr _ => [] end
  | PUT_posts_id idStr bind =>
    match route_id idStr, bind with
    | inl id, inr req =>
      [DoUpdatePost id (dto.UpdatePostRequest.Title req)
                    (dto.UpdatePostRequest.Content req)
                    (dto.UpdatePostRequest.Author req)]
    | _, _ => []
    end
  | DELETE_posts_id idStr =>
    match route_id idStr with inl id => [DoDelete id] | inr _ => [] end
  end.

(** The status codes the handlers answer with when nothing goes wrong
    inside the server. *)
Definition expected_codes : list Z :=
  [http.StatusOK; http.StatusCreated; http.StatusNoContent;
   http.StatusBadRequest; http.StatusNotFound].

(** ** [main]: a new repository, the data file loaded into it (a failure
    is logged and the server starts all the same), then the server on the
    routes above. *)
Definition main (f : loader.file) (rs : list request) : M (list Response) :=
  _ ← loader.LoadFromFile f;
  serve rs.

(** *** Fields made of ASCII bytes *)

(** Every byte of [s] satisfies [f]. *)
Fixpoint all_bytes (f : Z -> bool) (s : string) : bool :=
  match s with
  | EmptyString => true
  | String c s' => f (GoStrings.byte c) && all_bytes f s'
  end.

(** [s] holds ASCII bytes only (every byte is below [utf8.RuneSelf]). *)
Definition is_ascii (s : string) : bool :=
  all_bytes (fun b => b <? GoStrings.RuneSelf) s.

(** [s] is empty or holds only the six ASCII white space bytes (tab, line
    feed, vertical tab, form feed, carriage return, space). *)
Definition white_space_only (s : string) : bool :=
  all_bytes GoStrings.asciiSpace s.

(** [orders_fit rs w]: along the requests [rs] answered from the world
    [w], every request for all posts comes with an order in which the map
    can be visited at that point (a permutation of its entries). *)
Fixpoint orders_fit (rs : list request) (w : World) : bool :=
  match rs with
  | [] => true
  | r :: rs' =>
    match r with
    | GET_posts order => bool_decide (order ≡ₚ map_to_list (posts (repo w)))
    | _ => true
    end &&
    match route r w with
    | Some (_, w') => orders_fit rs' w'
    | None => true
    end
  end.

(** The same for [main]: the requests are answered from the world the
    loader leaves. *)
Definition main_orders_fit (f : loader.file) (rs : list request) : bool :=
  match loader.LoadFromFile f (world init) with
  | Some (_, w0) => orders_fit rs w0
  | None => true
  end.


(** * Proofs *)

(** ** Running a computation: one equation per primitive *)

Section run_equations.
Context {A B : Type}.

Lemma run_bind (m : M A) (f : A -> M B) (w : World) :
  (m ≫= f) w = match m w with Some (a, w') => f a w' | None => None end.
Proof. reflexivity. Qed.

Lemma run_ret (a : A) (w : World) : (mret a : M A) w = Some (a, w).
Proof. reflexivity. Qed.

End run_equations.

Lemma run_alloc v w :
  alloc v w = Some (length (mem w), mkWorld (mem w ++ [v]) (repo w)).
Proof. reflexivity. Qed.

Lemma run_load l w :
  load (Some l) w = match mem w !! l with Some v => Some (v, w) | None => None end.
Proof. reflexivity. Qed.

Lemma run_store l v w :
  store (Some l) v w =
  match mem w !! l with
  | Some _ => Some (tt, mkWorld (<[l := v]> (mem w)) (repo w))
  | None => None
  end.
Proof. reflexivity. Qed.

Lemma run_get_repo w : get_repo w = Some (repo w, w).
Proof. reflexivity. Qed.

Lemma run_set_post id p w :
  set_post id p w =
  Some (tt, mkWorld (mem w) (mkRepo (<[id := p]> (posts (repo w))) (nextID (repo w)))).
Proof. reflexivity. Qed.

Lemma run_set_nextID n w :
  set_nextID n w = Some (tt, mkWorld (mem w) (mkRepo (posts (repo w)) n)).
Proof. reflexivity. Qed.

Lemma run_delete_post id w :
  delete_post id w =
  Some (tt, mkWorld (mem w) (mkRepo (delete id (posts (repo w))) (nextID (repo w)))).
Proof. reflexivity. Qed.

Lemma run_Validate l w :
  Validate (Some l) w =
  match mem w !! l with Some v => Some (validate v, w) | None => None end.
Proof. unfold Validate. rewrite run_bind, run_load. by destruct (mem w !! l). Qed.

Lemma lookup_new_cell (m : list Post) (v : Post) : (m ++ [v]) !! length m = Some v.
Proof. by apply list_lookup_middle. Qed.

Lemma lookup_old_cell (m : list Post) (v x : Post) (l : nat) :
  m !! l = Some x -> (m ++ [v]) !! l = Some x.
Proof. intros H. rewrite lookup_app_l; [done|]. by eapply lookup_lt_Some. Qed.

Lemma lookup_written_cell (m : list Post) (v x : Post) (l : nat) :
  m !! l = Some x -> <[l := v]> m !! l = Some v.
Proof. intros H. apply list_lookup_insert_eq. by eapply lookup_lt_Some. Qed.

Ltac mred := cbn [mem repo posts nextID fst snd ID Title Content Author].

Ltac mstep :=
  first [ rewrite run_bind | rewrite run_ret | rewrite run_alloc
        | rewrite run_load | rewrite run_store | rewrite run_get_repo
        | rewrite run_set_post | rewrite run_set_nextID
        | rewrite run_delete_post | rewrite run_Validate ];
  mred.

Ltac mrun := repeat mstep.

Lemma NewPost_eq id t c a w :
  NewPost id t c a w =
  Some (match validate (mkPost id t c a) with
        | Some e => (nil, Some e)
        | None => (Some (length (mem w)), None)
        end, mkWorld (mem w ++ [mkPost id t c a]) (repo w)).
Proof.
  unfold NewPost. mrun. rewrite lookup_new_cell.
  destruct (validate _); reflexivity.
Qed.

Lemma Update_eq p v t c a w :
  mem w !! p = Some v ->
  Update (Some p) t c a w =
  Some (match validate (mkPost (ID v) t c a) with
        | Some e => (Some e, mkWorld (mem w ++ [mkPost (ID v) t c a]) (repo w))
        | None => (None, mkWorld (<[p := mkPost (ID v) t c a]>
                                    (mem w ++ [mkPost (ID v) t c a])) (repo w))
        end).
Proof.
  intros H. unfold Update. mrun. rewrite H. mrun. rewrite lookup_new_cell.
  destruct (validate _); [reflexivity|].
  pose proof (lookup_old_cell _ (mkPost (ID v) t c a) _ _ H) as H1.
  repeat first [ mstep | rewrite H1 | rewrite list_insert_insert_eq
               | rewrite (lookup_written_cell _ _ _ _ H1) ].
  reflexivity.
Qed.
Lemma insert_new_cell (m : list Post) (v x : Post) :
  <[length m := x]> (m ++ [v]) = m ++ [x].
Proof.
  replace (length m) with (length m + 0)%nat at 1 by lia.
  by rewrite insert_app_r.
Qed.

Lemma World_eta w : mkWorld (mem w) (repo w) = w.
Proof. by destruct w. Qed.

Lemma Repo_eta r : mkRepo (posts r) (nextID r) = r.
Proof. by destruct r. Qed.

Lemma Create_eq p v w :
  mem w !! p = Some v ->
  Repo.Create (Some p) w =
  Some (match posts (repo w) !! ID v with
        | Some _ => (Some ErrPostExists, w)
        | None => (None, inserted v w)
        end).
Proof.
  intros H. unfold Repo.Create, inserted. mrun. rewrite H. mrun.
  destruct (posts (repo w) !! ID v); mrun; [done|].
  destruct (nextID (repo w) <=? ID v); mrun; try done.
  all: by rewrite ?Repo_eta.
Qed.

Lemma CreatePost_eq t c a w :
  Repo.CreatePost t c a w =
  let v := mkPost (nextID (repo w)) t c a in
  Some (match validate v with
        | Some e =>
          ((nil, Some e),
           mkWorld (mem w ++ [v])
                   (mkRepo (posts (repo w)) (GoInt.incr (nextID (repo w)))))
        | None =>
          ((Some (S (S (length (mem w)))), None),
           mkWorld (mem w ++ [v; v; v])
                   (mkRepo (<[nextID (repo w) := S (length (mem w))]> (posts (repo w)))
                           (GoInt.incr (nextID (repo w)))))
        end).
Proof.
  unfold Repo.CreatePost. mrun. rewrite NewPost_eq. mrun.
  destruct (validate _); mrun; [done|].
  rewrite lookup_new_cell. mrun.
  rewrite (lookup_old_cell _ _ _ _ (lookup_new_cell _ _)). mrun.
  rewrite !length_app, <- !app_assoc. simpl.
  by rewrite !Nat.add_1_r.
Qed.

Lemma GetByID_eq id w :
  Repo.GetByID id w =
  match posts (repo w) !! id with
  | None => Some ((nil, Some ErrPostNotFound), w)
  | Some l =>
    match mem w !! l with
    | Some v => Some ((Some (length (mem w)), None), mkWorld (mem w ++ [v]) (repo w))
    | None => None
    end
  end.
Proof.
  unfold Repo.GetByID. mrun.
  destruct (posts (repo w) !! id); mrun; [|done].
  destruct (mem w !! _); mrun; done.
Qed.

Lemma Repo_Update_absent id post w :
  posts (repo w) !! id = None ->
  Repo.Update id post w = Some (Some ErrPostNotFound, w).
Proof. intros H. unfold Repo.Update. mrun. rewrite H. by mrun. Qed.

Lemma Repo_Update_eq id p v l0 w :
  posts (repo w) !! id = Some l0 ->
  mem w !! p = Some v ->
  Repo.Update id (Some p) w =
  Some (None,
        mkWorld (mem w ++ [mkPost id (Title v) (Content v) (Author v)])
                (mkRepo (<[id := length (mem w)]> (posts (repo w)))
                        (nextID (repo w)))).
Proof.
  intros H0 H. unfold Repo.Update. mrun. rewrite H0. mrun. rewrite H. mrun.
  rewrite lookup_new_cell. mrun. rewrite lookup_new_cell. mrun.
  by rewrite insert_new_cell.
Qed.

Lemma Delete_eq id w :
  Repo.Delete id w =
  Some (match posts (repo w) !! id with
        | None => (Some ErrPostNotFound, w)
        | Some _ => (None, mkWorld (mem w)
                             (mkRepo (delete id (posts (repo w))) (nextID (repo w))))
        end).
Proof.
  unfold Repo.Delete. mrun. destruct (posts (repo w) !! id); by mrun.
Qed.

Lemma Exists_eq id w :
  Repo.Exists id w = Some (bool_decide (is_Some (posts (repo w) !! id)), w).
Proof. unfold Repo.Exists. by mrun. Qed.

Lemma LoadData_step_eq p v w :
  mem w !! p = Some v ->
  Repo.LoadData_step (Some p) w = Some (tt, inserted v w).
Proof.
  intros H. unfold Repo.LoadData_step, inserted. mrun. rewrite H. mrun.
  destruct (nextID (repo w) <=? ID v); mrun; try done.
  all: by rewrite ?Repo_eta.
Qed.
Lemma points_to_inserted w p v x :
  points_to w p v -> points_to (inserted x w) p v.
Proof.
  intros (l & -> & H). exists l. split; [done|].
  unfold inserted. mred. by apply lookup_old_cell.
Qed.

Lemma LoadData_eq ps vs w :
  Forall2 (points_to w) ps vs ->
  Repo.LoadData ps w = Some (None, loaded vs w).
Proof.
  intros H. revert w H. revert vs.
  induction ps as [|p ps IH]; intros vs w H.
  - apply Forall2_nil_inv_l in H as ->. reflexivity.
  - apply Forall2_cons_inv_l in H as (v & vs' & (l & -> & Hl) & Hrest & ->).
    cbn [Repo.LoadData]. rewrite run_bind, (LoadData_step_eq _ _ _ Hl).
    cbn [loaded foldl]. apply IH.
    eapply Forall2_impl; [exact Hrest|].
    intros ? ? ?. by apply points_to_inserted.
Qed.

Lemma GetAll_range_eq entries vs acc w :
  Forall2 (fun e v => mem w !! e.2 = Some v) entries vs ->
  Repo.GetAll_range entries acc w =
  Some (acc ++ (Some <$> seq (length (mem w)) (length vs)),
        mkWorld (mem w ++ vs) (repo w)).
Proof.
  intros H. revert acc w H. revert vs.
  induction entries as [|[k l] entries IH]; intros vs acc w H.
  - apply Forall2_nil_inv_l in H as ->. cbn.
    by rewrite !app_nil_r, World_eta.
  - apply Forall2_cons_inv_l in H as (v & vs' & Hl & Hrest & ->).
    cbn [Repo.GetAll_range]. mrun. cbn in Hl. rewrite Hl. mrun.
    erewrite IH; cycle 1.
    { eapply Forall2_impl; [exact Hrest|]. intros ? ? ?. mred.
      by apply lookup_old_cell. }
    mred. rewrite length_app. cbn [length seq fmap list_fmap].
    rewrite <- !app_assoc. cbn [app].
    by rewrite Nat.add_1_r.
Qed.

Lemma read_keys_eq ps vs w :
  Forall2 (points_to w) ps vs ->
  Repo.read_keys ps w = Some (zip (ID <$> vs) ps, w).
Proof.
  intros H. induction H as [|p v ps vs (l & -> & Hl) _ IH]; [done|].
  cbn [Repo.read_keys]. mrun. rewrite Hl. mrun. rewrite IH. by mrun.
Qed.
Lemma insert_at_length (m : list Post) (x v : Post) (rest : list Post) :
  <[length m := x]> (m ++ v :: rest) = m ++ x :: rest.
Proof.
  rewrite <- (Nat.add_0_r (length m)) at 1.
  by rewrite insert_app_r.
Qed.

Lemma UpdatePost_absent id t c a w :
  posts (repo w) !! id = None ->
  Service.UpdatePost id t c a w = Some ((nil, Some ErrPostNotFound), w).
Proof.
  intros H. unfold Service.UpdatePost. rewrite run_bind, GetByID_eq, H. by mrun.
Qed.

Lemma UpdatePost_eq id l v t c a w :
  posts (repo w) !! id = Some l ->
  mem w !! l = Some v ->
  Service.UpdatePost id t c a w =
  let new := mkPost (ID v) t c a in
  Some (match validate new with
        | Some e => ((nil, Some e), mkWorld (mem w ++ [v; new]) (repo w))
        | None =>
          ((Some (length (mem w)), None),
           mkWorld (mem w ++ [new; new; mkPost id t c a])
                   (mkRepo (<[id := S (S (length (mem w)))]> (posts (repo w)))
                           (nextID (repo w))))
        end).
Proof.
  intros Hid Hl. unfold Service.UpdatePost.
  rewrite run_bind, GetByID_eq, Hid, Hl. mrun.
  rewrite (Update_eq _ v) by (mred; apply lookup_new_cell). mred.
  destruct (validate _); mrun.
  - by rewrite <- app_assoc.
  - erewrite Repo_Update_eq; cycle 1.
    + mred. exact Hid.
    + mred. apply list_lookup_insert_eq. rewrite !length_app. simpl. lia.
    + mrun. rewrite length_insert, !length_app. simpl.
      rewrite <- (app_assoc (mem w)). cbn [app].
      rewrite insert_at_length, <- app_assoc. cbn [app].
      by rewrite !Nat.add_1_r.
Qed.
(** ** The invariants hold in every reachable state *)

Lemma wf_init : wf init.
Proof.
  split.
  - intros id l H. cbn in H. by rewrite lookup_empty in H.
  - intros id l H. cbn in H. by rewrite lookup_empty in H.
  - intros l H. cbn in H. by apply elem_of_nil in H.
Qed.

(** A step that leaves the cells callers do not hold as they are, and adds
    to the map and to the callers' pointers new cells only, disjointly,
    keeps the invariants. *)
Lemma wf_grow s m' ps' n' h' :
  wf s ->
  (forall l, (l < length (mem (world s)))%nat -> l ∉ held s ->
             m' !! l = mem (world s) !! l) ->
  (length (mem (world s)) <= length m')%nat ->
  (forall id l, ps' !! id = Some l ->
     posts (repo (world s)) !! id = Some l \/
     ((length (mem (world s)) <= l)%nat /\ (l ∉ h') /\
      exists v, m' !! l = Some v /\ ID v = id)) ->
  (forall l, l ∈ h' ->
     l ∈ held s \/ (length (mem (world s)) <= l < length m')%nat) ->
  wf (mkSys (mkWorld m' (mkRepo ps' n')) h').
Proof.
  intros [Hc Hp Hh] Hold Hlen Hposts Hheld. split.
  - intros id l H. cbn in H. destruct (Hposts _ _ H) as [H0|(_ & _ & Hv)]; [|done].
    destruct (Hc _ _ H0) as (v & Hv & Hid). exists v. split; [|done].
    cbn. rewrite Hold; [done| |by eapply Hp].
    by eapply lookup_lt_Some.
  - intros id l H. cbn in H. cbn.
    destruct (Hposts _ _ H) as [H0|(_ & Hn & _)]; [|done].
    intros Hin. destruct (Hheld _ Hin) as [Hin'|[Hge _]].
    + by eapply Hp.
    + destruct (Hc _ _ H0) as (v & Hv & _).
      apply lookup_lt_Some in Hv. lia.
  - intros l H. cbn in *. destruct (Hheld _ H) as [Hin|[_ Hlt]]; [|done].
    specialize (Hh _ Hin). lia.
Qed.

(** The same for a step that only allocates: [ext] are the new cells. *)
Lemma wf_alloc s ext ps' n' h' :
  wf s ->
  (forall id l, ps' !! id = Some l ->
     posts (repo (world s)) !! id = Some l \/
     ((length (mem (world s)) <= l)%nat /\ (l ∉ h') /\
      exists v, (mem (world s) ++ ext) !! l = Some v /\ ID v = id)) ->
  (forall l, l ∈ h' ->
     l ∈ held s \/
     (length (mem (world s)) <= l < length (mem (world s)) + length ext)%nat) ->
  wf (mkSys (mkWorld (mem (world s) ++ ext) (mkRepo ps' n')) h').
Proof.
  intros Hwf Hposts Hheld. apply wf_grow with (s := s); try done.
  - intros l Hl _. by apply lookup_app_l.
  - rewrite length_app. lia.
  - intros l Hl. rewrite length_app. by apply Hheld.
Qed.

Lemma known_points_to s p :
  wf s -> known (held s) p -> p = None \/ exists v, points_to (world s) p v.
Proof.
  intros Hwf H. destruct p as [l|]; [right|by left].
  cbn in H. apply (wf_held _ Hwf) in H.
  apply lookup_lt_is_Some_2 in H as [v Hv]. exists v, l. done.
Qed.

Lemma sort_insert_perm x l : Repo.sort_insert x l ≡ₚ x :: l.
Proof.
  induction l as [|y l IH]; [done|]. cbn.
  destruct (Repo.less y x); [|done].
  rewrite IH. apply Permutation_swap.
Qed.

Lemma sort_keyed_perm l : Repo.sort_keyed l ≡ₚ l.
Proof.
  induction l as [|x l IH]; [done|]. cbn.
  by rewrite sort_insert_perm, IH.
Qed.

Lemma snd_zip_keys (vs : list Post) (ps : list (option nat)) :
  length vs = length ps -> (zip (ID <$> vs) ps).*2 = ps.
Proof. intros H. apply snd_zip. rewrite length_fmap. lia. Qed.

Lemma new_cells_point (m : list Post) r (vs : list Post) :
  Forall2 (points_to (mkWorld (m ++ vs) r))
          (Some <$> seq (length m) (length vs)) vs.
Proof.
  induction vs as [|v vs IH] using rev_ind; [constructor|].
  rewrite length_app, Nat.add_1_r, seq_S, fmap_app. cbn [fmap list_fmap].
  apply Forall2_app.
  - eapply Forall2_impl; [exact IH|].
    intros p x (l & -> & Hl). exists l. split; [done|].
    cbn in *. rewrite app_assoc. by apply lookup_old_cell.
  - constructor; [|constructor]. eexists. split; [done|].
    cbn. rewrite app_assoc, <- length_app. apply lookup_new_cell.
Qed.

Lemma GetAll_in_eq w entries :
  cells_ok w ->
  entries ≡ₚ map_to_list (posts (repo w)) ->
  exists vs,
    Forall2 (fun e v => mem w !! e.2 = Some v /\ ID v = e.1) entries vs /\
    Repo.GetAll_in entries w =
    Some ((snd <$> Repo.sort_keyed
                     (zip (ID <$> vs)
                          (Some <$> seq (length (mem w)) (length vs))), None),
          mkWorld (mem w ++ vs) (repo w)).
Proof.
  intros Hc Hperm.
  assert (exists vs, Forall2 (fun e v => mem w !! e.2 = Some v /\ ID v = e.1)
                             entries vs) as [vs Hvs].
  { assert (Forall (fun e => posts (repo w) !! e.1 = Some e.2) entries) as Hall.
    { apply Forall_forall. intros [k l] Hin. rewrite Hperm in Hin.
      by apply elem_of_map_to_list in Hin. }
    clear Hperm. induction Hall as [|[k l] es Hk _ [vs IH]]; [by exists []|].
    destruct (Hc _ _ Hk) as (v & Hv & Hid).
    exists (v :: vs). by constructor. }
  exists vs. split; [done|].
  unfold Repo.GetAll_in. mrun.
  erewrite GetAll_range_eq; cycle 1.
  { eapply Forall2_impl; [exact Hvs|]. by intros ? ? [? _]. }
  mrun. unfold Repo.sort_Slice. mrun.
  erewrite (read_keys_eq _ vs); cycle 1.
  { mred. cbn [app]. apply new_cells_point. }
  by mrun.
Qed.

Lemma GetAll_unfold w :
  Repo.GetAll w = Repo.GetAll_in (map_to_list (posts (repo w))) w.
Proof. reflexivity. Qed.
Lemma wf_inserted w h v :
  wf (mkSys w h) -> wf (mkSys (inserted v w) h).
Proof.
  intros Hwf. unfold inserted.
  apply (wf_alloc (mkSys w h) [v]); [done| |by left].
  intros id l H. cbn in *.
  destruct (decide (ID v = id)) as [<-|Hne].
  - rewrite lookup_insert_eq in H. injection H as <-. right.
    split; [done|]. split.
    + intros Hin. apply (wf_held _ Hwf) in Hin. cbn in Hin. lia.
    + exists v. split; [apply lookup_new_cell|done].
  - rewrite lookup_insert_ne in H by done. by left.
Qed.

Lemma wf_loaded vs w h :
  wf (mkSys w h) -> wf (mkSys (loaded vs w) h).
Proof.
  revert w. induction vs as [|v vs IH]; intros w Hwf; [done|].
  cbn [loaded foldl]. apply IH. by apply wf_inserted.
Qed.

Lemma LoadData_nil ps w :
  None ∈ ps -> Repo.LoadData ps w = None.
Proof.
  revert w. induction ps as [|p ps IH]; intros w Hin.
  - by apply elem_of_nil in Hin.
  - cbn [Repo.LoadData]. rewrite run_bind.
    destruct p as [l|]; [|done].
    apply elem_of_cons in Hin as [?|Hin]; [done|].
    destruct (Repo.LoadData_step (Some l) w) as [[[] w']|]; [|done].
    by apply IH.
Qed.

Lemma known_batch s ps :
  wf s -> Forall (known (held s)) ps ->
  None ∈ ps \/ exists vs, Forall2 (points_to (world s)) ps vs.
Proof.
  intros Hwf H. induction H as [|p ps Hp _ [IH|[vs IH]]].
  - right. by exists [].
  - left. by right.
  - destruct (known_points_to _ _ Hwf Hp) as [->|[v Hv]].
    + left. by left.
    + right. exists (v :: vs). by constructor.
Qed.

Lemma elem_of_received_all (ps : list (option nat)) h l :
  l ∈ foldr received h ps -> l ∈ h \/ Some l ∈ ps.
Proof.
  induction ps as [|p ps IH]; cbn; [by left|].
  destruct p as [l'|]; cbn.
  - intros [->|Hin]%elem_of_cons; [right; by left|].
    destruct (IH Hin); [by left|right; by right].
  - intros Hin. destruct (IH Hin); [by left|right; by right].
Qed.

Lemma wf_step c s s' : wf s -> run_call c s = Some s' -> wf s'.
Proof.
  intros Hwf Hrun. destruct s as [w h].
  destruct c as [v|l v|post|t c a|id|order|id post|id|id|ps|id t c a];
    cbn [run_call world held] in Hrun.
  - (* CallerNew *)
    rewrite run_alloc in Hrun. cbn in Hrun. injection Hrun as <-.
    rewrite <- (Repo_eta (repo w)).
    apply (wf_alloc (mkSys w h) [v]); [done|by left|].
    intros l [->|Hin]%elem_of_cons; [right; cbn; lia|by left].
  - (* CallerWrite *)
    destruct (decide (l ∈ h)) as [Hin|]; [|done].
    rewrite run_store in Hrun.
    destruct (mem w !! l) as [v0|] eqn:Hl; [|done].
    cbn in Hrun. injection Hrun as <-.
    rewrite <- (Repo_eta (repo w)).
    apply (wf_grow (mkSys w h)); cbn; [done| | |by left|by left].
    + intros l' _ Hn. apply list_lookup_insert_ne. by intros ->.
    + by rewrite length_insert.
  - (* Create *)
    destruct (decide (known h post)) as [Hk|]; [|done].
    destruct (known_points_to _ _ Hwf Hk) as [->|(v & p & -> & Hp)]; [done|].
    cbn in Hp. rewrite (Create_eq _ _ _ Hp) in Hrun. cbn in Hrun.
    destruct (posts (repo w) !! ID v); injection Hrun as <-; [done|].
    by apply wf_inserted.
  - (* CreatePost *)
    rewrite CreatePost_eq in Hrun. cbn zeta in Hrun.
    destruct (validate _); cbn in Hrun; injection Hrun as <-.
    + apply (wf_alloc (mkSys w h) [_]); [done|by left|by left].
    + apply (wf_alloc (mkSys w h) [_; _; _]); [done| |]; cbn.
      * intros id l H.
        destruct (decide (nextID (repo w) = id)) as [<-|Hne].
        -- rewrite lookup_insert_eq in H. injection H as <-. right.
           split; [lia|]. split.
           ++ intros [?|Hin]%elem_of_cons; [lia|].
              apply (wf_held _ Hwf) in Hin. cbn in Hin. lia.
           ++ exists (mkPost (nextID (repo w)) t c a). split; [|done].
              rewrite lookup_app_r by lia.
              by replace (S (length (mem w)) - length (mem w))%nat with 1%nat by lia.
        -- rewrite lookup_insert_ne in H by done. by left.
      * intros l [->|Hin]%elem_of_cons; [right; lia|by left].
  - (* GetByID *)
    rewrite GetByID_eq in Hrun.
    destruct (posts (repo w) !! id) as [l|] eqn:Hid.
    + destruct (wf_cells _ Hwf _ _ Hid) as (v & Hv & _). cbn in Hv.
      rewrite Hv in Hrun. cbn in Hrun. injection Hrun as <-.
      rewrite <- (Repo_eta (repo w)).
      apply (wf_alloc (mkSys w h) [v]); [done|by left|].
      intros l' [->|Hin]%elem_of_cons; [right; cbn; lia|by left].
    + cbn in Hrun. by injection Hrun as <-.
  - (* GetAll *)
    destruct (decide (order ≡ₚ map_to_list (posts (repo w)))) as [Hord|]; [|done].
    destruct (GetAll_in_eq w order (wf_cells _ Hwf) Hord) as (vs & Hvs & Heq).
    rewrite Heq in Hrun. cbn in Hrun. injection Hrun as <-.
    rewrite <- (Repo_eta (repo w)).
    apply (wf_alloc (mkSys w h) vs); [done|by left|].
    intros l Hin. apply elem_of_received_all in Hin as [?|Hin]; [by left|right].
    rewrite sort_keyed_perm, snd_zip_keys in Hin
      by (by rewrite length_fmap, length_seq).
    apply list_elem_of_fmap in Hin as (l' & [= <-] & Hin).
    apply elem_of_seq in Hin. cbn. lia.
  - (* Update *)
    destruct (decide (known h post)) as [Hk|]; [|done].
    destruct (posts (repo w) !! id) as [l0|] eqn:Hid.
    + destruct (known_points_to _ _ Hwf Hk) as [->|(v & p & -> & Hp)].
      * unfold Repo.Update in Hrun. rewrite run_bind, run_get_repo in Hrun.
        cbn in Hrun. by rewrite Hid in Hrun.
      * cbn in Hp. rewrite (Repo_Update_eq _ _ _ _ _ Hid Hp) in Hrun.
        cbn in Hrun. injection Hrun as <-.
        apply (wf_alloc (mkSys w h) [_]); [done| |by left]; cbn.
        intros id' l H.
        destruct (decide (id = id')) as [<-|Hne].
        -- rewrite lookup_insert_eq in H. injection H as <-. right.
           split; [done|]. split.
           ++ intros Hin. apply (wf_held _ Hwf) in Hin. cbn in Hin. lia.
           ++ eexists. split; [apply lookup_new_cell|done].
        -- rewrite lookup_insert_ne in H by done. by left.
    + rewrite (Repo_Update_absent _ _ _ Hid) in Hrun. cbn in Hrun.
      by injection Hrun as <-.
  - (* Delete *)
    rewrite Delete_eq in Hrun. cbn in Hrun.
    destruct (posts (repo w) !! id) eqn:Hid; injection Hrun as <-; [|done].
    rewrite <- (app_nil_r (mem w)).
    apply (wf_alloc (mkSys w h) []); [done| |by left]; cbn.
    intros id' l H. left.
    destruct (decide (id = id')) as [<-|Hne].
    * by rewrite lookup_delete_eq in H.
    * by rewrite lookup_delete_ne in H.
  - (* Exists *)
    rewrite Exists_eq in Hrun. cbn in Hrun. by injection Hrun as <-.
  - (* LoadData *)
    destruct (decide (Forall (known h) ps)) as [Hk|]; [|done].
    destruct (known_batch _ _ Hwf Hk) as [Hnil|[vs Hvs]].
    + by rewrite (LoadData_nil _ _ Hnil) in Hrun.
    + cbn in Hvs. rewrite (LoadData_eq _ _ _ Hvs) in Hrun. cbn in Hrun.
      injection Hrun as <-. by apply wf_loaded.
  - (* UpdatePost *)
    destruct (posts (repo w) !! id) as [l|] eqn:Hid.
    + destruct (wf_cells _ Hwf _ _ Hid) as (v & Hv & _). cbn in Hv.
      rewrite (UpdatePost_eq _ _ _ _ _ _ _ Hid Hv) in Hrun. cbn zeta in Hrun.
      destruct (validate _); cbn in Hrun; injection Hrun as <-.
      * rewrite <- (Repo_eta (repo w)).
        apply (wf_alloc (mkSys w h) [_; _]); [done|by left|by left].
      * apply (wf_alloc (mkSys w h) [_; _; _]); [done| |]; cbn.
        -- intros id' l' H.
           destruct (decide (id = id')) as [<-|Hne].
           ++ rewrite lookup_insert_eq in H. injection H as <-. right.
              split; [lia|]. split.
              ** intros [?|Hin]%elem_of_cons; [lia|].
                 apply (wf_held _ Hwf) in Hin. cbn in Hin. lia.
              ** exists (mkPost id t c a). split; [|done].
                 rewrite lookup_app_r by lia.
                 by replace (S (S (length (mem w))) - length (mem w))%nat
                   with 2%nat by lia.
           ++ rewrite lookup_insert_ne in H by done. by left.
        -- intros l' [->|Hin]%elem_of_cons; [right; lia|by left].
    + rewrite (UpdatePost_absent _ _ _ _ _ Hid) in Hrun. cbn in Hrun.
      by injection Hrun as <-.
Qed.

Lemma wf_run cs s s' : wf s -> run cs s = Some s' -> wf s'.
Proof.
  revert s. induction cs as [|c cs IH]; intros s Hwf Hrun; cbn in Hrun.
  - by injection Hrun as <-.
  - destruct (run_call c s) as [s1|] eqn:Hc; [|done].
    eapply IH; [|exact Hrun]. by eapply wf_step.
Qed.

Lemma reachable_wf s : reachable s -> wf s.
Proof. intros [cs Hrun]. eapply wf_run; [apply wf_init|exact Hrun]. Qed.
(** ** The post entity *)

Lemma validate_first_violated id title content author :
  validate (mkPost id title content author) =
  (fun r => errors_New (message r)) <$> first_violated title content author.
Proof.
  unfold validate, first_violated, rules. cbn [List.find Title Content Author].
  unfold violates.
  destruct (decide (blank title)) as [H1|H1].
  { by rewrite !bool_decide_eq_true_2 by done. }
  rewrite !(bool_decide_eq_false_2 _ H1).
  destruct (decide (blank content)) as [H2|H2].
  { by rewrite !bool_decide_eq_true_2 by done. }
  rewrite !(bool_decide_eq_false_2 _ H2).
  destruct (decide (blank author)) as [H3|H3].
  { by rewrite !bool_decide_eq_true_2 by done. }
  rewrite !(bool_decide_eq_false_2 _ H3).
  destruct (255 <? GoStrings.len title) eqn:E.
  - apply Z.ltb_lt in E. by rewrite bool_decide_eq_true_2.
  - apply Z.ltb_ge in E. by rewrite bool_decide_eq_false_2 by lia.
Qed.

Lemma find_first {A} (f : A -> bool) (l : list A) (x : A) :
  List.find f l = Some x ->
  exists pre post, l = pre ++ x :: post /\ Forall (fun y => f y = false) pre /\
                   f x = true.
Proof.
  induction l as [|y l IH]; [done|]. cbn.
  destruct (f y) eqn:E.
  - intros [= <-]. exists [], l. by repeat split.
  - intros H. destruct (IH H) as (pre & post & -> & Hpre & Hx).
    exists (y :: pre), post. repeat split; [|done]. by constructor.
Qed.

Lemma find_none_all {A} (f : A -> bool) (l : list A) :
  List.find f l = None <-> Forall (fun y => f y = false) l.
Proof.
  induction l as [|y l IH]; cbn; [by split; [constructor|]|].
  destruct (f y) eqn:E.
  - split; [done|]. intros H. apply Forall_cons in H as [? _]. congruence.
  - rewrite IH. split; [by constructor|]. by intros [_ ?]%Forall_cons.
Qed.

Lemma first_violated_Some title content author r :
  first_violated title content author = Some r ->
  exists pre post, rules = pre ++ r :: post /\
    Forall (fun r' => ~ violates title content author r') pre /\
    violates title content author r.
Proof.
  intros H. apply find_first in H as (pre & post & Heq & Hpre & Hr).
  exists pre, post. repeat split; [done| |].
  - eapply Forall_impl; [exact Hpre|]. intros r' Hr'. cbn in Hr'.
    by apply bool_decide_eq_false in Hr'.
  - by apply bool_decide_eq_true in Hr.
Qed.

Lemma first_violated_None title content author :
  first_violated title content author = None <->
  forall r, ~ violates title content author r.
Proof.
  unfold first_violated. rewrite find_none_all. split.
  - intros H r. rewrite Forall_forall in H.
    assert (r ∈ rules) as Hin by (destruct r; unfold rules; set_solver).
    specialize (H r Hin). cbn in H. by apply bool_decide_eq_false in H.
  - intros H. apply Forall_forall. intros r _. by apply bool_decide_eq_false.
Qed.

Lemma NewPost_valid id title content author w :
  ~ blank title -> ~ blank content -> ~ blank author ->
  GoStrings.len title <= 255 ->
  NewPost id title content author w =
  Some ((Some (length (mem w)), None),
        mkWorld (mem w ++ [mkPost id title content author]) (repo w)).
Proof.
  intros H1 H2 H3 H4. rewrite NewPost_eq, validate_first_violated.
  replace (first_violated title content author) with (@None rule); [done|].
  symmetry. apply first_violated_None. intros []; cbn; [done..|lia].
Qed.

Lemma NewPost_too_long id title content author w :
  ~ blank title -> ~ blank content -> ~ blank author ->
  255 < GoStrings.len title ->
  NewPost id title content author w =
  Some ((nil, Some (errors_New title_too_long)),
        mkWorld (mem w ++ [mkPost id title content author]) (repo w)).
Proof.
  intros H1 H2 H3 H4. rewrite NewPost_eq. unfold validate.
  cbn [Title Content Author]. fold (blank title) (blank content) (blank author).
  rewrite !bool_decide_eq_false_2 by done.
  by apply Z.ltb_lt in H4 as ->.
Qed.

Lemma NewPost_length_error_nonblank id title content author w w' :
  NewPost id title content author w =
    Some ((nil, Some (errors_New title_too_long)), w') ->
  ~ blank title /\ 255 < GoStrings.len title.
Proof.
  rewrite NewPost_eq. unfold validate. cbn [Title Content Author].
  fold (blank title) (blank content) (blank author).
  repeat (case_bool_decide; [intros [= ?]; discriminate|]).
  destruct (255 <? GoStrings.len title) eqn:E; [|done].
  intros _. apply Z.ltb_lt in E. done.
Qed.

(** The rules of [NewPost] for every input, lengths being [len], the
    number of bytes: constructing a [Post] fails exactly when one of the
    four rules is violated, with the message of the first violated rule in
    the order title blank, content blank, author blank, title too long;
    otherwise a new cell with the four fields is returned.  A non-blank
    title of 255 bytes passes and one of 256 bytes gets the length message
    (for example 255 and 256 letters a, which are as many characters). *)
Theorem NewPost_first_violated_rule id title content author w :
  NewPost id title content author w =
    Some (match first_violated title content author with
          | Some r => (nil, Some (errors_New (message r)))
          | None => (Some (length (mem w)), None)
          end,
          mkWorld (mem w ++ [mkPost id title content author]) (repo w))
  /\ (first_violated title content author = None <->
      forall r, ~ violates title content author r)
  /\ (forall r, first_violated title content author = Some r ->
        exists pre post, rules = pre ++ r :: post /\
          Forall (fun r' => ~ violates title content author r') pre /\
          violates title content author r)
  /\ (~ blank title -> ~ blank content -> ~ blank author ->
      (GoStrings.len title = 255 ->
       first_violated title content author = None) /\
      (GoStrings.len title = 256 ->
       first_violated title content author = Some TitleTooLong))
  /\ (~ blank content -> ~ blank author ->
      NewPost id (GoStrings.Repeat "a" 255) content author w =
        Some ((Some (length (mem w)), None),
              mkWorld (mem w ++ [mkPost id (GoStrings.Repeat "a" 255)
                                        content author]) (repo w)) /\
      NewPost id (GoStrings.Repeat "a" 256) content author w =
        Some ((nil, Some (errors_New "title must be less than 255 characters")),
              mkWorld (mem w ++ [mkPost id (GoStrings.Repeat "a" 256)
                                        content author]) (repo w))).
Proof.
  split; [|split; [|split; [|split]]].
  - rewrite NewPost_eq, validate_first_violated.
    by destruct (first_violated title content author).
  - apply first_violated_None.
  - apply first_violated_Some.
  - intros H1 H2 H3. split; intros Hlen.
    + apply first_violated_None. intros []; cbn; [done..|lia].
    + unfold first_violated, rules. cbn [List.find]. unfold violates.
      rewrite !bool_decide_eq_false_2 by done.
      by rewrite bool_decide_eq_true_2 by lia.
  - intros H2 H3. split.
    + apply NewPost_valid; [by vm_compute|done|done|by vm_compute].
    + apply NewPost_too_long; [by vm_compute|done|done|by vm_compute].
Qed.

Lemma NewPost_first_violated_rule_witness :
  let w := world init in
  NewPost 1 "Valid Title" "   " "" w =
    Some ((nil, Some (errors_New "content is required")),
          mkWorld [mkPost 1 "Valid Title" "   " ""] (repo w)) /\
  NewPost 1 (GoStrings.Repeat "a" 255) "Content" "Author" w =
    Some ((Some 0%nat, None),
          mkWorld [mkPost 1 (GoStrings.Repeat "a" 255) "Content" "Author"]
                  (repo w)) /\
  NewPost 1 (GoStrings.Repeat "a" 256) "Content" "Author" w =
    Some ((nil, Some (errors_New "title must be less than 255 characters")),
          mkWorld [mkPost 1 (GoStrings.Repeat "a" 256) "Content" "Author"]
                  (repo w)).
Proof.
  intros w. split.
  - destruct (NewPost_first_violated_rule 1 "Valid Title" "   " "" w)
      as (H & _). exact H.
  - destruct (NewPost_first_violated_rule 1 "" "Content" "Author" w)
      as (_ & _ & _ & _ & H).
    apply H; by vm_compute.
Defined.

(** C3, on the code.  [Validate] compares [len(p.Title)], the number of
    bytes of the title, with 255, under the message "title must be less
    than 255 characters".  A title of exactly 255 characters that take two
    bytes each (510 bytes) is refused with the length message, and so is
    one of 128 such characters (256 bytes); 127 of them (254 bytes) pass.
    So a title of exactly 255 characters is valid only when its characters
    are single bytes. *)
Theorem NewPost_counts_bytes_for_characters :
  RuneCountInString (GoStrings.Repeat e_acute 255) = 255
  /\ GoStrings.len (GoStrings.Repeat e_acute 255) = 510
  /\ NewPost 1 (GoStrings.Repeat e_acute 255) "Content" "Author" (world init) =
       Some ((nil, Some (errors_New "title must be less than 255 characters")),
             mkWorld [mkPost 1 (GoStrings.Repeat e_acute 255) "Content" "Author"]
                     (repo (world init)))
  /\ RuneCountInString (GoStrings.Repeat e_acute 128) = 128
  /\ NewPost 1 (GoStrings.Repeat e_acute 128) "Content" "Author" (world init) =
       Some ((nil, Some (errors_New "title must be less than 255 characters")),
             mkWorld [mkPost 1 (GoStrings.Repeat e_acute 128) "Content" "Author"]
                     (repo (world init)))
  /\ RuneCountInString (GoStrings.Repeat e_acute 127) = 127
  /\ NewPost 1 (GoStrings.Repeat e_acute 127) "Content" "Author" (world init) =
       Some ((Some 0%nat, None),
             mkWorld [mkPost 1 (GoStrings.Repeat e_acute 127) "Content" "Author"]
                     (repo (world init))).
Proof.
  split; [by vm_compute|]. split; [by vm_compute|].
  split; [rewrite NewPost_eq; by vm_compute|].
  split; [by vm_compute|].
  split; [rewrite NewPost_eq; by vm_compute|].
  split; [by vm_compute|].
  rewrite NewPost_eq. by vm_compute.
Qed.

(** C10. The length check reads the title as given, not trimmed.  A title
    that is non-blank after trimming and longer than 255 bytes is always
    refused, whatever the length of the trimmed title: with the length
    message when content and author are non-blank, and with the message of
    the blank field otherwise, the blank checks coming first (one letter
    followed by 300 spaces trims to one letter and is refused).  And the
    length message is only ever returned for a title that is non-blank after
    trimming. *)
Theorem length_check_on_untrimmed_title id title content author w :
  (~ blank title -> 255 < GoStrings.len title ->
   exists e,
     NewPost id title content author w =
       Some ((nil, Some e),
             mkWorld (mem w ++ [mkPost id title content author]) (repo w)) /\
     (~ blank content -> ~ blank author ->
      e = errors_New "title must be less than 255 characters") /\
     (blank content -> e = errors_New "content is required") /\
     (~ blank content -> blank author -> e = errors_New "author is required"))
  /\ (forall w', NewPost id title content author w =
                   Some ((nil, Some (errors_New
                           "title must be less than 255 characters")), w') ->
                 ~ blank title)
  /\ (let t := String.append "a" (GoStrings.Repeat " " 300) in
      GoStrings.TrimSpace t = "a" /\
      (~ blank content -> ~ blank author ->
       NewPost id t content author w =
         Some ((nil, Some (errors_New "title must be less than 255 characters")),
               mkWorld (mem w ++ [mkPost id t content author]) (repo w)))).
Proof.
  split; [|split].
  - intros H1 H4. rewrite NewPost_eq. unfold validate.
    cbn [Title Content Author]. fold (blank title) (blank content) (blank author).
    rewrite (bool_decide_eq_false_2 _ H1).
    apply Z.ltb_lt in H4 as ->.
    destruct (decide (blank content)) as [H2|H2].
    { rewrite (bool_decide_eq_true_2 _ H2). eexists. by split. }
    rewrite (bool_decide_eq_false_2 _ H2).
    destruct (decide (blank author)) as [H3|H3].
    { rewrite (bool_decide_eq_true_2 _ H3). eexists. by split. }
    rewrite (bool_decide_eq_false_2 _ H3). eexists. by split.
  - intros w' H. by apply NewPost_length_error_nonblank in H as [? _].
  - split; [by vm_compute|]. intros H2 H3.
    apply NewPost_too_long; [by vm_compute|done|done|by vm_compute].
Qed.

Lemma length_check_on_untrimmed_title_witness :
  let w := world init in
  let t := String.append "a" (GoStrings.Repeat " " 300) in
  GoStrings.TrimSpace t = "a" /\
  exists e,
    NewPost 1 t "Content" "Author" w =
      Some ((nil, Some e), mkWorld [mkPost 1 t "Content" "Author"] (repo w)) /\
    e = errors_New "title must be less than 255 characters".
Proof.
  intros w t.
  destruct (length_check_on_untrimmed_title 1 t "Content" "Author" w)
    as (H & _ & Ht & _).
  split; [exact Ht|].
  destruct (H ltac:(by vm_compute) ltac:(by vm_compute)) as (e & Hrun & He & _).
  exists e. split; [exact Hrun|]. apply He; by vm_compute.
Defined.

(** C4. The entity's [Update] validates the would-be state first: when it
    fails validation the error is returned and the post still holds its four
    fields; when it passes, title, content and author are the supplied ones
    and the ID is the old one.  No other cell and nothing of the repository
    changes. *)
Theorem Update_all_or_nothing w p v title content author :
  mem w !! p = Some v ->
  exists w',
    match validate (mkPost (ID v) title content author) with
    | Some e =>
      Update (Some p) title content author w = Some (Some e, w') /\
      mem w' !! p = Some v
    | None =>
      Update (Some p) title content author w = Some (None, w') /\
      mem w' !! p = Some (mkPost (ID v) title content author)
    end
    /\ repo w' = repo w
    /\ (forall l, l <> p -> (l < length (mem w))%nat -> mem w' !! l = mem w !! l).
Proof.
  intros H. rewrite (Update_eq _ _ _ _ _ _ H).
  pose proof (lookup_lt_Some _ _ _ H) as Hlt.
  destruct (validate _); eexists; (split; [split; [reflexivity|]|split; [done|]]);
    cbn [mem].
  - by apply lookup_old_cell.
  - intros l _ Hl. by apply lookup_app_l.
  - apply list_lookup_insert_eq. rewrite length_app. lia.
  - intros l Hne Hl. rewrite list_lookup_insert_ne by done. by apply lookup_app_l.
Qed.

Lemma Update_all_or_nothing_witness :
  let w := mkWorld [mkPost 7 "Old" "Body" "Ann"] Repo.NewMemoryPostRepository in
  (exists w', Update (Some 0%nat) "   " "New body" "Bob" w =
                Some (Some (errors_New "title is required"), w') /\
              mem w' !! 0%nat = Some (mkPost 7 "Old" "Body" "Ann")) /\
  (exists w', Update (Some 0%nat) "New" "New body" "Bob" w = Some (None, w') /\
              mem w' !! 0%nat = Some (mkPost 7 "New" "New body" "Bob")).
Proof.
  intros w. split.
  - destruct (Update_all_or_nothing w 0%nat (mkPost 7 "Old" "Body" "Ann")
                "   " "New body" "Bob" eq_refl) as (w' & H & _).
    exists w'. exact H.
  - destruct (Update_all_or_nothing w 0%nat (mkPost 7 "Old" "Body" "Ann")
                "New" "New body" "Bob" eq_refl) as (w' & H & _).
    exists w'. exact H.
Defined.
(** ** The contents of the store *)

Lemma contents_lookup w id :
  contents w !! id = posts (repo w) !! id ≫= (fun l => mem w !! l).
Proof. unfold contents. apply lookup_omap. Qed.

Lemma contents_alloc w ext :
  cells_ok w -> contents (mkWorld (mem w ++ ext) (repo w)) = contents w.
Proof.
  intros Hc. apply map_eq. intros id. rewrite !contents_lookup. mred.
  destruct (posts (repo w) !! id) as [l|] eqn:Hid; [|done]. cbn.
  destruct (Hc _ _ Hid) as (v & Hv & _).
  apply lookup_app_l. by eapply lookup_lt_Some.
Qed.

Lemma contents_insert w ext id l v n :
  cells_ok w -> (mem w ++ ext) !! l = Some v ->
  contents (mkWorld (mem w ++ ext) (mkRepo (<[id := l]> (posts (repo w))) n)) =
  <[id := v]> (contents w).
Proof.
  intros Hc Hl. apply map_eq. intros id'. rewrite contents_lookup. mred.
  destruct (decide (id = id')) as [<-|Hne].
  - by rewrite !lookup_insert_eq.
  - rewrite !lookup_insert_ne by done. rewrite contents_lookup.
    destruct (posts (repo w) !! id') as [l'|] eqn:Hid; [|done]. cbn.
    destruct (Hc _ _ Hid) as (v' & Hv' & _).
    apply lookup_app_l. by eapply lookup_lt_Some.
Qed.

Lemma contents_delete w id n :
  contents (mkWorld (mem w) (mkRepo (delete id (posts (repo w))) n)) =
  delete id (contents w).
Proof.
  apply map_eq. intros id'. rewrite contents_lookup. mred.
  destruct (decide (id = id')) as [<-|Hne].
  - by rewrite !lookup_delete_eq.
  - rewrite !lookup_delete_ne by done. by rewrite contents_lookup.
Qed.

Lemma contents_write w l v :
  (forall id, posts (repo w) !! id <> Some l) ->
  contents (mkWorld (<[l := v]> (mem w)) (repo w)) = contents w.
Proof.
  intros Hl. apply map_eq. intros id. rewrite !contents_lookup. mred.
  destruct (posts (repo w) !! id) as [l'|] eqn:Hid; [|done]. cbn.
  apply list_lookup_insert_ne. intros ->. by apply (Hl id).
Qed.

Lemma contents_ID w id v :
  cells_ok w -> contents w !! id = Some v -> ID v = id.
Proof.
  intros Hc. rewrite contents_lookup.
  destruct (posts (repo w) !! id) as [l|] eqn:Hid; [|done]. cbn.
  destruct (Hc _ _ Hid) as (v' & Hv' & <-). congruence.
Qed.

Lemma contents_is_Some w id :
  cells_ok w -> is_Some (posts (repo w) !! id) -> is_Some (contents w !! id).
Proof.
  intros Hc [l Hid]. rewrite contents_lookup, Hid. cbn.
  destruct (Hc _ _ Hid) as (v & -> & _). by eexists.
Qed.

Lemma after_reachable cs : is_Some (run cs init) -> reachable (after cs).
Proof. intros [s H]. exists cs. unfold after. by rewrite H. Qed.

(** ** The store's [Update] *)

(** C5. [Update] on an absent id returns the not-found error and leaves
    the world as it is; on a present id the entry becomes a copy of the
    supplied post (a new cell, not the caller's) whose ID is the id of the
    call, whatever ID the supplied post carries; the other entries, the
    counter and the caller's post stay as they are. *)
Theorem Repo_Update_forces_id s id :
  reachable s ->
  (posts (repo (world s)) !! id = None ->
   forall post, Repo.Update id post (world s) = Some (Some ErrPostNotFound, world s))
  /\ (is_Some (posts (repo (world s)) !! id) ->
      forall p v, mem (world s) !! p = Some v ->
        exists w',
          Repo.Update id (Some p) (world s) = Some (None, w') /\
          contents w' =
            <[id := mkPost id (Title v) (Content v) (Author v)]>
              (contents (world s)) /\
          nextID (repo w') = nextID (repo (world s)) /\
          (exists l, posts (repo w') !! id = Some l /\ l <> p /\
                     (length (mem (world s)) <= l)%nat) /\
          mem w' !! p = Some v).
Proof.
  intros Hr. apply reachable_wf in Hr as [Hc _ _]. split.
  - intros Hid post. by apply Repo_Update_absent.
  - intros [l0 Hid] p v Hp. rewrite (Repo_Update_eq _ _ _ _ _ Hid Hp).
    eexists. split; [reflexivity|]. split; [|split; [done|split]].
    + apply contents_insert; [done|]. apply lookup_new_cell.
    + exists (length (mem (world s))). mred. rewrite lookup_insert_eq.
      split; [done|]. apply lookup_lt_Some in Hp. split; lia.
    + mred. by apply lookup_old_cell.
Qed.

Lemma Repo_Update_forces_id_witness :
  let s := after [CallerNew (mkPost 1 "Title" "Content" "Author");
                  DoCreate (Some 0%nat);
                  CallerNew (mkPost 42 "Updated" "Body" "Bob")] in
  Repo.Update 5 (Some 2%nat) (world s) = Some (Some ErrPostNotFound, world s) /\
  exists w', Repo.Update 1 (Some 2%nat) (world s) = Some (None, w') /\
             contents w' !! 1 = Some (mkPost 1 "Updated" "Body" "Bob").
Proof.
  intros s.
  assert (reachable s) as Hr by (apply after_reachable; vm_compute; eauto).
  destruct (Repo_Update_forces_id s 5 Hr) as [Habsent _].
  destruct (Repo_Update_forces_id s 1 Hr) as [_ Hpresent].
  split.
  - apply Habsent. by vm_compute.
  - destruct (Hpresent ltac:(vm_compute; eauto) 2%nat
                (mkPost 42 "Updated" "Body" "Bob") eq_refl)
      as (w' & Hrun & Hcontents & _).
    exists w'. split; [exact Hrun|].
    rewrite Hcontents. apply lookup_insert_eq.
Defined.
(** ** [GetAll] *)

Lemma sort_insert_sorted x l :
  StronglySorted key_le l -> StronglySorted key_le (Repo.sort_insert x l).
Proof.
  induction 1 as [|y l Hs IH Hy]; cbn; [by repeat constructor|].
  unfold Repo.less. destruct (y.1 <? x.1) eqn:E.
  - apply Z.ltb_lt in E. constructor; [done|].
    rewrite sort_insert_perm. constructor; [unfold key_le; lia|done].
  - apply Z.ltb_ge in E. constructor; [by constructor|].
    constructor; [done|].
    eapply Forall_impl; [exact Hy|]. unfold key_le. intros; lia.
Qed.

Lemma sort_keyed_sorted l : StronglySorted key_le (Repo.sort_keyed l).
Proof.
  induction l as [|x l IH]; cbn; [constructor|]. by apply sort_insert_sorted.
Qed.

Lemma sorted_strict (l : list (Z * option nat)) :
  StronglySorted key_le l -> NoDup l.*1 -> StronglySorted key_lt l.
Proof.
  induction 1 as [|x l Hs IH Hx]; cbn; [constructor|].
  intros [Hnin Hnd]%NoDup_cons. constructor; [by apply IH|].
  apply Forall_forall. intros y Hy.
  rewrite Forall_forall in Hx. specialize (Hx y Hy).
  assert (x.1 <> y.1).
  { intros Heq. apply Hnin. rewrite Heq. by apply list_elem_of_fmap_2. }
  unfold key_le, key_lt in *. lia.
Qed.

Lemma zip_keys_Forall2 (P : option nat -> Post -> Prop) ps vs :
  Forall2 P ps vs ->
  Forall2 (fun x v => x.1 = ID v /\ P x.2 v) (zip (ID <$> vs) ps) vs.
Proof. induction 1; cbn; by constructor. Qed.

Lemma points_to_deref w p v : points_to w p v <-> deref w p = Some v.
Proof.
  split.
  - by intros (l & -> & H).
  - destruct p as [l|]; [|done]. intros H. by exists l.
Qed.

Lemma value_at_keyed w (l : list (Z * option nat)) vs :
  Forall2 (fun x v => x.1 = ID v /\ points_to w x.2 v) l vs ->
  value_at w <$> l = vs.
Proof.
  induction 1 as [|x v l vs [_ Hp] _ IH]; cbn; [done|].
  apply points_to_deref in Hp. unfold value_at at 1. rewrite Hp. cbn.
  by rewrite IH.
Qed.

Lemma stored_values_perm w entries vs :
  cells_ok w ->
  entries ≡ₚ map_to_list (posts (repo w)) ->
  Forall2 (fun e v => mem w !! e.2 = Some v /\ ID v = e.1) entries vs ->
  with_ID <$> vs ≡ₚ map_to_list (contents w).
Proof.
  intros Hc Hperm Hvs.
  assert (ID <$> vs = entries.*1) as Hkeys.
  { clear Hperm.
    induction Hvs as [|e v es vs [_ Hid] _ IH]; cbn; [done|]. by rewrite Hid, IH. }
  apply NoDup_Permutation.
  - apply (NoDup_fmap_1 fst). rewrite <- list_fmap_compose.
    replace (fst ∘ with_ID) with ID by done.
    rewrite Hkeys, Hperm. apply NoDup_fst_map_to_list.
  - apply NoDup_map_to_list.
  - intros [k v]. rewrite elem_of_map_to_list, contents_lookup. split.
    + intros (v' & [= -> ->] & Hin)%list_elem_of_fmap.
      apply list_elem_of_lookup in Hin as [i Hi].
      destruct (Forall2_lookup_r _ _ _ _ _ Hvs Hi) as ([k l] & He & Hl & Hid).
      apply list_elem_of_lookup_2 in He. rewrite Hperm in He.
      apply elem_of_map_to_list in He.
      cbn in *. subst k. by rewrite He.
    + destruct (posts (repo w) !! k) as [l|] eqn:Hk; [|done]. cbn. intros Hl.
      apply elem_of_map_to_list in Hk. rewrite <- Hperm in Hk.
      apply list_elem_of_lookup in Hk as [i Hi].
      destruct (Forall2_lookup_l _ _ _ _ _ Hvs Hi) as (v' & Hv' & Hl' & Hid).
      cbn in *. assert (v' = v) as -> by congruence.
      apply list_elem_of_fmap. exists v. split; [by rewrite <- Hid|].
      by eapply list_elem_of_lookup_2.
Qed.

Lemma GetAll_in_sorted w entries :
  cells_ok w ->
  entries ≡ₚ map_to_list (posts (repo w)) ->
  exists ps vs w',
    Repo.GetAll_in entries w = Some ((ps, None), w') /\
    Forall2 (points_to w') ps vs /\
    with_ID <$> vs ≡ₚ map_to_list (contents w) /\
    StronglySorted (fun a b => ID a < ID b) vs /\
    Forall (fun p => exists l, p = Some l /\ (length (mem w) <= l)%nat) ps /\
    NoDup ps /\
    repo w' = repo w /\
    (forall l, (l < length (mem w))%nat -> mem w' !! l = mem w !! l).
Proof.
  intros Hc Hperm. destruct (GetAll_in_eq w entries Hc Hperm) as (vs & Hvs & Heq).
  set (w' := mkWorld (mem w ++ vs) (repo w)) in *.
  set (L := zip (ID <$> vs) (Some <$> seq (length (mem w)) (length vs))) in *.
  pose proof (zip_keys_Forall2 _ _ _ (new_cells_point (mem w) (repo w) vs)) as HL.
  fold w' L in HL.
  assert (Forall (fun x => x.1 = ID (value_at w' x) /\
                           points_to w' x.2 (value_at w' x) /\
                           exists l, x.2 = Some l /\ (length (mem w) <= l)%nat) L)
    as HQ.
  { apply Forall_forall. intros x Hx.
    apply list_elem_of_lookup in Hx as [i Hi].
    destruct (Forall2_lookup_l _ _ _ _ _ HL Hi) as (v & Hv & Hk & Hp).
    pose proof Hp as Hd. apply points_to_deref in Hd.
    unfold value_at. rewrite Hd. cbn. split; [done|]. split; [done|].
    unfold L in Hi. apply lookup_zip_with_Some in Hi as (k & p & -> & _ & Hp').
    apply list_lookup_fmap_Some in Hp' as (l & -> & Hl). cbn.
    apply lookup_seq in Hl as [-> _]. exists (length (mem w) + i)%nat.
    split; [done|lia]. }
  assert (Repo.sort_keyed L ≡ₚ L) as HP by apply sort_keyed_perm.
  rewrite <- HP in HQ.
  assert (L.*1 = entries.*1) as Hkeys.
  { unfold L. rewrite fst_zip by (rewrite !length_fmap, length_seq; lia).
    clear -Hvs. induction Hvs as [|e v es vs [_ Hid] _ IH]; cbn; [done|].
    by rewrite Hid, IH. }
  exists (Repo.sort_keyed L).*2, (value_at w' <$> Repo.sort_keyed L), w'.
  split; [exact Heq|]. split; [|split; [|split; [|split; [|split; [|split]]]]].
  - apply Forall2_fmap, Forall_Forall2_diag.
    eapply Forall_impl; [exact HQ|]. by intros x (_ & ? & _).
  - rewrite HP, (value_at_keyed _ _ _ HL). by eapply stored_values_perm.
  - assert (StronglySorted key_lt (Repo.sort_keyed L)) as Hs.
    { apply sorted_strict; [apply sort_keyed_sorted|].
      rewrite HP, Hkeys, Hperm. apply NoDup_fst_map_to_list. }
    clear -Hs HQ. induction Hs as [|x l Hs IH Hx]; cbn; [constructor|].
    apply Forall_cons in HQ as [(Hx1 & _) HQ].
    constructor; [by apply IH|].
    apply Forall_fmap, Forall_forall. intros y Hy. cbn.
    rewrite Forall_forall in Hx, HQ.
    destruct (HQ y Hy) as (Hy1 & _). specialize (Hx y Hy).
    unfold key_lt in Hx. lia.
  - apply Forall_fmap. eapply Forall_impl; [exact HQ|]. by intros x (_ & _ & ?).
  - rewrite HP. unfold L.
    rewrite snd_zip by (rewrite !length_fmap, length_seq; lia).
    apply (NoDup_fmap_2 Some), NoDup_seq.
  - done.
  - intros l Hl. cbn. by apply lookup_app_l.
Qed.
(** C6. In every reachable state, whatever the order in which the run
    visits the map, [GetAll] returns, with a [nil] error, pointers to new
    cells holding one copy of every stored post, in strictly ascending order
    of ID, and leaves the store as it is; on an empty store the slice is
    empty.  (Posts created with the IDs 3, 1, 2 come back as 1, 2, 3: see the
    instance below.) *)
Theorem GetAll_sorted_copies s entries :
  reachable s ->
  entries ≡ₚ map_to_list (posts (repo (world s))) ->
  exists ps vs w',
    Repo.GetAll_in entries (world s) = Some ((ps, None), w') /\
    Forall2 (points_to w') ps vs /\
    with_ID <$> vs ≡ₚ map_to_list (contents (world s)) /\
    StronglySorted (fun a b => ID a < ID b) vs /\
    Forall (fun p => exists l, p = Some l /\
                               (length (mem (world s)) <= l)%nat) ps /\
    NoDup ps /\
    store_state w' = store_state (world s) /\
    (contents (world s) = ∅ -> ps = []).
Proof.
  intros Hr Hperm. apply reachable_wf in Hr as [Hc _ _].
  destruct (GetAll_in_sorted _ _ Hc Hperm)
    as (ps & vs & w' & Heq & Hpt & Hvs & Hsorted & Hfresh & Hnd & Hrepo & Hold).
  exists ps, vs, w'. repeat (split; [done|]). split.
  - unfold store_state. rewrite Hrepo. f_equal.
    apply map_eq. intros id. rewrite !contents_lookup, Hrepo.
    destruct (posts (repo (world s)) !! id) as [l|] eqn:Hid; [|done]. cbn.
    destruct (Hc _ _ Hid) as (v & Hv & _). apply Hold. by eapply lookup_lt_Some.
  - intros Hempty. rewrite Hempty, map_to_list_empty in Hvs.
    apply Permutation_nil_r, fmap_nil_inv in Hvs. subst vs.
    by apply Forall2_nil_inv_r in Hpt.
Qed.

Lemma GetAll_sorted_copies_witness :
  let s := after [CallerNew (mkPost 3 "Title 3" "Content 3" "Author 3");
                  CallerNew (mkPost 1 "Title 1" "Content 1" "Author 1");
                  CallerNew (mkPost 2 "Title 2" "Content 2" "Author 2");
                  DoCreate (Some 0%nat); DoCreate (Some 1%nat);
                  DoCreate (Some 2%nat)] in
  exists ps vs w',
    Repo.GetAll (world s) = Some ((ps, None), w') /\
    Forall2 (points_to w') ps vs /\
    StronglySorted (fun a b => ID a < ID b) vs /\
    deref w' <$> ps =
      [Some (mkPost 1 "Title 1" "Content 1" "Author 1");
       Some (mkPost 2 "Title 2" "Content 2" "Author 2");
       Some (mkPost 3 "Title 3" "Content 3" "Author 3")].
Proof.
  intros s.
  assert (reachable s) as Hr by (apply after_reachable; vm_compute; eauto).
  destruct (GetAll_sorted_copies s (map_to_list (posts (repo (world s)))) Hr
              (Permutation_refl _))
    as (ps & vs & w' & Heq & Hpt & _ & Hsorted & _).
  rewrite <- GetAll_unfold in Heq.
  exists ps, vs, w'. repeat (split; [assumption|]).
  assert (posts_returned (Repo.GetAll (world s)) =
          Some [Some (mkPost 1 "Title 1" "Content 1" "Author 1");
                Some (mkPost 2 "Title 2" "Content 2" "Author 2");
                Some (mkPost 3 "Title 3" "Content 3" "Author 3")]) as Hc
    by (vm_compute; reflexivity).
  rewrite Heq in Hc. cbn [posts_returned] in Hc. by injection Hc.
Defined.
(** ** [LoadData] *)

Lemma wrap_in_range z : GoInt.in_range z -> GoInt.wrap z = z.
Proof.
  unfold GoInt.in_range, GoInt.wrap, GoInt.MinInt, GoInt.MaxInt, GoInt.intSize.
  intros H. rewrite Z.mod_small; lia.
Qed.

Lemma in_rangeb_in_range z : GoInt.in_rangeb z = true <-> GoInt.in_range z.
Proof. unfold GoInt.in_rangeb, GoInt.in_range. lia. Qed.

Lemma nextID_inserted v w :
  GoInt.in_range (ID v + 1) ->
  nextID (repo (inserted v w)) = Z.max (nextID (repo w)) (ID v + 1).
Proof.
  intros H. unfold inserted. mred. unfold GoInt.add. rewrite wrap_in_range by done.
  destruct (nextID (repo w) <=? ID v) eqn:E; lia.
Qed.

Lemma posts_inserted v w :
  posts (repo (inserted v w)) = <[ID v := length (mem w)]> (posts (repo w)).
Proof. reflexivity. Qed.

Lemma contents_inserted v w :
  cells_ok w -> contents (inserted v w) = <[ID v := v]> (contents w).
Proof. intros Hc. apply contents_insert; [done|]. apply lookup_new_cell. Qed.

Lemma cells_ok_inserted v w : cells_ok w -> cells_ok (inserted v w).
Proof.
  intros Hc id l. rewrite posts_inserted. unfold inserted. mred.
  destruct (decide (ID v = id)) as [<-|Hne].
  - rewrite lookup_insert_eq. intros [= <-]. exists v.
    split; [apply lookup_new_cell|done].
  - rewrite lookup_insert_ne by done. intros H.
    destruct (Hc _ _ H) as (x & Hx & Hid). exists x.
    split; [by apply lookup_old_cell|done].
Qed.

Lemma nextID_loaded vs w :
  Forall (fun v => GoInt.in_range (ID v + 1)) vs ->
  nextID (repo (loaded vs w)) =
  foldl Z.max (nextID (repo w)) ((fun v => ID v + 1) <$> vs).
Proof.
  intros H. revert w. induction H as [|v vs Hv _ IH]; intros w; [done|].
  cbn [loaded foldl fmap list_fmap]. fold (loaded vs (inserted v w)).
  by rewrite IH, nextID_inserted.
Qed.

Lemma contents_loaded vs w id :
  cells_ok w ->
  contents (loaded vs w) !! id =
  match last (filter (fun v => ID v = id) vs) with
  | Some v => Some v
  | None => contents w !! id
  end.
Proof.
  revert w. induction vs as [|v vs IH]; intros w Hc; [done|].
  cbn [loaded foldl]. fold (loaded vs (inserted v w)).
  rewrite IH by (by apply cells_ok_inserted).
  rewrite filter_cons. destruct (decide (ID v = id)) as [<-|Hne].
  - rewrite last_cons. destruct (last (filter _ vs)); [done|].
    by rewrite contents_inserted, lookup_insert_eq.
  - destruct (last (filter _ vs)); [done|].
    by rewrite contents_inserted, lookup_insert_ne.
Qed.

Lemma foldl_max_le (a : Z) (l : list Z) : a <= foldl Z.max a l.
Proof.
  revert a. induction l as [|x l IH]; intros a; cbn; [lia|].
  specialize (IH (Z.max a x)). lia.
Qed.

Lemma foldl_max_upper (a b : Z) (l : list Z) :
  a <= b -> Forall (fun x => x <= b) l -> foldl Z.max a l <= b.
Proof.
  intros Ha H. revert a Ha. induction H as [|x l Hx _ IH]; intros a Ha; cbn; [done|].
  apply IH. lia.
Qed.

Lemma foldl_max_elem (a x : Z) (l : list Z) : x ∈ l -> x <= foldl Z.max a l.
Proof.
  revert a. induction l as [|y l IH]; intros a Hin; [by apply elem_of_nil in Hin|].
  cbn. apply elem_of_cons in Hin as [->|Hin]; [|by apply IH].
  pose proof (foldl_max_le (Z.max a y) l). lia.
Qed.

(** C7, as the code has it.  On a batch of pointers to posts whose IDs are
    below the largest [int], [LoadData] returns no error; every post of the
    batch is stored under its ID, the last one of the batch winning and
    entries already there being overwritten; the counter ends at the larger
    of its old value and one past the largest ID of the batch.  On a store
    whose counter is still 1, with [m] the largest ID of the batch and
    [0 <= m], a following [CreatePost] with valid fields gets the ID
    [m + 1]. *)
Theorem LoadData_overwrites_and_advances s ps vs :
  reachable s ->
  Forall2 (points_to (world s)) ps vs ->
  Forall (fun v => GoInt.in_range (ID v + 1)) vs ->
  exists w',
    Repo.LoadData ps (world s) = Some (None, w') /\
    (forall id,
       contents w' !! id =
       match last (filter (fun v => ID v = id) vs) with
       | Some v => Some v
       | None => contents (world s) !! id
       end) /\
    nextID (repo w') =
      foldl Z.max (nextID (repo (world s))) ((fun v => ID v + 1) <$> vs) /\
    (nextID (repo (world s)) = 1 ->
     forall m, m ∈ (ID <$> vs) -> Forall (fun v => ID v <= m) vs -> 0 <= m ->
     forall title content author,
       validate (mkPost (m + 1) title content author) = None ->
       exists p w'',
         Repo.CreatePost title content author w' = Some ((Some p, None), w'') /\
         mem w'' !! p = Some (mkPost (m + 1) title content author)).
Proof.
  intros Hr Hps Hrange. apply reachable_wf in Hr as [Hc _ _].
  exists (loaded vs (world s)). split; [by apply LoadData_eq|].
  split; [intros id; by apply contents_loaded|].
  split; [by apply nextID_loaded|].
  intros Hfresh m Hm Hmax Hpos title content author Hvalid.
  assert (nextID (repo (loaded vs (world s))) = m + 1) as Hnext.
  { rewrite nextID_loaded, Hfresh by done. apply Z.le_antisymm.
    - apply foldl_max_upper; [lia|]. apply Forall_fmap.
      eapply Forall_impl; [exact Hmax|]. cbn. intros; lia.
    - apply foldl_max_elem.
      apply list_elem_of_fmap in Hm as (v & -> & Hv).
      apply list_elem_of_fmap. by exists v. }
  rewrite CreatePost_eq. cbn zeta. rewrite Hnext, Hvalid.
  eexists _, _. split; [reflexivity|]. mred.
  rewrite lookup_app_r by lia.
  by replace (S (S (length (mem (loaded vs (world s))))) -
              length (mem (loaded vs (world s))))%nat with 2%nat by lia.
Qed.

(** The test of the repository: posts 1, 3, 2 loaded into a new store, then
    a post created: it gets the ID 4. *)
Lemma LoadData_overwrites_and_advances_witness :
  let s := after [CallerNew (mkPost 1 "Post 1" "Content 1" "Author 1");
                  CallerNew (mkPost 3 "Post 3" "Content 3" "Author 3");
                  CallerNew (mkPost 2 "Post 2" "Content 2" "Author 2")] in
  exists w',
    Repo.LoadData [Some 0%nat; Some 1%nat; Some 2%nat] (world s) = Some (None, w') /\
    contents w' !! 3 = Some (mkPost 3 "Post 3" "Content 3" "Author 3") /\
    nextID (repo w') = 4 /\
    exists p w'',
      Repo.CreatePost "New Title" "New Content" "New Author" w' =
        Some ((Some p, None), w'') /\
      mem w'' !! p = Some (mkPost 4 "New Title" "New Content" "New Author").
Proof.
  intros s.
  assert (reachable s) as Hr by (apply after_reachable; vm_compute; eauto).
  destruct (LoadData_overwrites_and_advances s
              [Some 0%nat; Some 1%nat; Some 2%nat]
              [mkPost 1 "Post 1" "Content 1" "Author 1";
               mkPost 3 "Post 3" "Content 3" "Author 3";
               mkPost 2 "Post 2" "Content 2" "Author 2"] Hr)
    as (w' & Hrun & Hcontents & Hnext & Hcreate).
  - repeat constructor; eexists; (split; [reflexivity|]); by vm_compute.
  - repeat constructor; by vm_compute.
  - exists w'. split; [exact Hrun|]. split; [by rewrite Hcontents|].
    split; [by rewrite Hnext|].
    apply (Hcreate eq_refl 3); [set_solver|repeat constructor; by vm_compute|lia|done].
Defined.

(** C7 as stated fails: with the counter at 10, loading a batch whose only
    ID is 1 leaves the counter at 10, not at 2. *)
Lemma LoadData_keeps_larger_counter :
  exists w',
    deref (world (after [CallerNew (mkPost 9 "Title" "Content" "Author");
                         DoCreate (Some 0%nat);
                         CallerNew (mkPost 1 "Other" "Content" "Author")]))
          (Some 2%nat) = Some (mkPost 1 "Other" "Content" "Author") /\
    Repo.LoadData [Some 2%nat]
      (world (after [CallerNew (mkPost 9 "Title" "Content" "Author");
                     DoCreate (Some 0%nat);
                     CallerNew (mkPost 1 "Other" "Content" "Author")]))
    = Some (None, w') /\
    nextID (repo w') = 10 /\
    nextID (repo w') <> 1 + 1.
Proof.
  eexists. split; [by vm_compute|]. split; [by vm_compute|].
  split; [by vm_compute|]. by vm_compute.
Qed.
(** ** [CreatePost] and the counter *)

(** Whatever the fields, [CreatePost] has advanced the counter when it
    returns: a call refused by validation leaves the map as it is and the
    counter one further. *)
Lemma CreatePost_invalid title content author e w :
  validate (mkPost (nextID (repo w)) title content author) = Some e ->
  exists w',
    Repo.CreatePost title content author w = Some ((nil, Some e), w') /\
    posts (repo w') = posts (repo w) /\
    nextID (repo w') = GoInt.incr (nextID (repo w)).
Proof.
  intros H. rewrite CreatePost_eq. cbn zeta. rewrite H.
  eexists. split; [reflexivity|]. done.
Qed.

(** C1, on the code.  On a new repository [CreatePost] with an empty title
    is refused with "title is required" and the counter has gone from 1 to
    2; the next, valid, [CreatePost] gets the ID 2, not the ID 1 that the
    refused call was given. *)
Theorem CreatePost_invalid_consumes_id :
  exists w1 p w2,
    nextID (repo (world init)) = 1 /\
    Repo.CreatePost "" "Content" "Author" (world init) =
      Some ((nil, Some (errors_New "title is required")), w1) /\
    nextID (repo w1) = 2 /\
    store_state w1 <> store_state (world init) /\
    Repo.CreatePost "Title" "Content" "Author" w1 = Some ((Some p, None), w2) /\
    mem w2 !! p = Some (mkPost 2 "Title" "Content" "Author").
Proof.
  eexists _, _, _. split; [reflexivity|].
  split; [by vm_compute|]. split; [by vm_compute|].
  split; [|split; by vm_compute].
  unfold store_state. intros H. apply (f_equal snd) in H. by vm_compute in H.
Qed.

(** ** The service's [UpdatePost] *)

Lemma validate_ID_irrelevant id id' title content author :
  validate (mkPost id title content author) =
  validate (mkPost id' title content author).
Proof. reflexivity. Qed.

(** C9. With [id] present and fields that fail validation, the service's
    [UpdatePost] returns the validation error, and the repository (map and
    counter), the stored posts and every cell allocated before the call are
    as before: the run is the run of [GetByID] followed by the entity's
    [Update] on the copy, the store's [Update] is not reached. *)
Theorem UpdatePost_invalid_leaves_store s id title content author e :
  reachable s ->
  is_Some (posts (repo (world s)) !! id) ->
  validate (mkPost id title content author) = Some e ->
  exists w',
    Service.UpdatePost id title content author (world s) =
      Some ((nil, Some e), w') /\
    (exists r, e = errors_New (message r)) /\
    repo w' = repo (world s) /\
    store_state w' = store_state (world s) /\
    (forall l, (l < length (mem (world s)))%nat ->
               mem w' !! l = mem (world s) !! l) /\
    (x ← Repo.GetByID id;
     err ← Update x.1 title content author;
     mret (nil, err)) (world s) = Some ((nil, Some e), w').
Proof.
  intros Hr [l Hid] Hinvalid. apply reachable_wf in Hr as [Hc _ _].
  destruct (Hc _ _ Hid) as (v & Hv & HID).
  rewrite (UpdatePost_eq _ _ _ _ _ _ _ Hid Hv). cbn zeta.
  rewrite (validate_ID_irrelevant (ID v) id), Hinvalid.
  eexists. split; [reflexivity|]. split; [|split; [done|split; [|split]]].
  - rewrite validate_first_violated in Hinvalid.
    destruct (first_violated title content author) as [r|]; [|done].
    injection Hinvalid as <-. by exists r.
  - unfold store_state. f_equal. by apply contents_alloc.
  - intros l' Hl'. mred. by apply lookup_app_l.
  - rewrite run_bind, GetByID_eq, Hid, Hv. cbn [fst].
    rewrite run_bind.
    rewrite (Update_eq _ v) by (mred; apply lookup_new_cell). mred.
    rewrite (validate_ID_irrelevant (ID v) id), Hinvalid. mrun.
    by rewrite <- app_assoc.
Qed.

Lemma UpdatePost_invalid_leaves_store_witness :
  let s := after [DoCreatePost "Title" "Content" "Author"] in
  exists w',
    Service.UpdatePost 1 "   " "New content" "Bob" (world s) =
      Some ((nil, Some (errors_New "title is required")), w') /\
    store_state w' = store_state (world s) /\
    contents w' !! 1 = Some (mkPost 1 "Title" "Content" "Author").
Proof.
  intros s.
  assert (reachable s) as Hr by (apply after_reachable; vm_compute; eauto).
  destruct (UpdatePost_invalid_leaves_store s 1 "   " "New content" "Bob"
              (errors_New "title is required") Hr
              ltac:(vm_compute; eauto) eq_refl)
    as (w' & Hrun & _ & _ & Hstate & _).
  exists w'. split; [exact Hrun|]. split; [exact Hstate|].
  injection Hstate as Hcontents _. rewrite Hcontents. by vm_compute.
Defined.

(** ** Copies at the boundary of the store *)

Lemma run_app cs1 cs2 s :
  run (cs1 ++ cs2) s =
  match run cs1 s with Some s1 => run cs2 s1 | None => None end.
Proof.
  revert s. induction cs1 as [|c cs1 IH]; intros s; cbn; [done|].
  destruct (run_call c s); [apply IH|done].
Qed.

Lemma reachable_step c s s' :
  reachable s -> run_call c s = Some s' -> reachable s'.
Proof.
  intros [cs Hcs] Hc. exists (cs ++ [c]). rewrite run_app, Hcs. cbn.
  by rewrite Hc.
Qed.

(** C8. [held s] holds every pointer callers have: the ones they made
    themselves and passed into the store, and every pointer a method of the
    store returned ([run_call]).  In every reachable state an assignment
    through any of them goes through and leaves the repository and what it
    holds as they were.  In particular, when [GetByID] has returned [p],
    whatever the caller writes to [p], a later [GetByID] of the same id
    returns what the first one returned, which is the stored post. *)
Theorem callers_cannot_touch_store s :
  reachable s ->
  (forall l v, l ∈ held s ->
     exists w',
       store (Some l) v (world s) = Some (tt, w') /\
       repo w' = repo (world s) /\
       store_state w' = store_state (world s))
  /\ (forall id p w1 v' w2,
        Repo.GetByID id (world s) = Some ((Some p, None), w1) ->
        store (Some p) v' w1 = Some (tt, w2) ->
        exists p2 w3,
          Repo.GetByID id w2 = Some ((Some p2, None), w3) /\
          deref w3 (Some p2) = deref w1 (Some p) /\
          deref w1 (Some p) = contents (world s) !! id /\
          is_Some (contents (world s) !! id) /\
          store_state w2 = store_state (world s)).
Proof.
  intros Hr. apply reachable_wf in Hr as [Hc Hp Hh]. split.
  - intros l v Hl. rewrite run_store.
    destruct (lookup_lt_is_Some_2 _ _ (Hh _ Hl)) as [v0 ->].
    eexists. split; [reflexivity|]. split; [done|].
    unfold store_state. f_equal. mred. apply contents_write.
    intros id Hid. by apply (Hp _ _ Hid).
  - intros id p w1 v' w2. rewrite GetByID_eq.
    destruct (posts (repo (world s)) !! id) as [l|] eqn:Hid; [|done].
    destruct (Hc _ _ Hid) as (v & Hv & _). rewrite Hv.
    intros [= <- <-]. rewrite run_store. mred. rewrite lookup_new_cell.
    intros [= <-]. rewrite insert_new_cell.
    rewrite GetByID_eq. mred. rewrite Hid, (lookup_old_cell _ _ _ _ Hv).
    eexists _, _. split; [reflexivity|]. cbn [deref mem].
    rewrite !lookup_new_cell, contents_lookup, Hid. cbn.
    rewrite Hv. split; [done|]. split; [done|]. split; [by eexists|].
    unfold store_state. f_equal. by apply contents_alloc.
Qed.

Lemma callers_cannot_touch_store_witness :
  let s := after [DoCreatePost "Title" "Content" "Author"; DoGetByID 1] in
  exists w',
    held s = [3%nat; 2%nat] /\
    store (Some 3%nat) (mkPost 1 "Modified Title" "Content" "Author") (world s) =
      Some (tt, w') /\
    contents w' !! 1 = Some (mkPost 1 "Title" "Content" "Author").
Proof.
  intros s.
  assert (reachable s) as Hr by (apply after_reachable; vm_compute; eauto).
  destruct (callers_cannot_touch_store s Hr) as [Hwrite _].
  destruct (Hwrite 3%nat (mkPost 1 "Modified Title" "Content" "Author")
              ltac:(vm_compute; set_solver))
    as (w' & Hrun & _ & Hstate).
  exists w'. split; [by vm_compute|]. split; [exact Hrun|].
  injection Hstate as Hcontents _. rewrite Hcontents. by vm_compute.
Defined.
(** ** The counter and the keys *)

Lemma keys_below_inserted v w :
  GoInt.in_range (ID v + 1) -> keys_below w ->
  keys_below (inserted v w) /\
  nextID (repo w) <= nextID (repo (inserted v w)).
Proof.
  intros Hv Hk. unfold keys_below. rewrite nextID_inserted by done.
  split; [|lia]. intros id. rewrite posts_inserted.
  destruct (decide (ID v = id)) as [<-|Hne].
  - intros _. lia.
  - rewrite lookup_insert_ne by done. intros H. specialize (Hk _ H). lia.
Qed.

Lemma keys_below_loaded vs w :
  Forall (fun v => GoInt.in_range (ID v + 1)) vs -> keys_below w ->
  keys_below (loaded vs w) /\ nextID (repo w) <= nextID (repo (loaded vs w)).
Proof.
  intros H. revert w. induction H as [|v vs Hv _ IH]; intros w Hk.
  - split; [done|]. cbn. lia.
  - cbn [loaded foldl]. fold (loaded vs (inserted v w)).
    destruct (keys_below_inserted v w Hv Hk) as [Hk' Hle].
    destruct (IH _ Hk') as [Hk'' Hle']. split; [done|lia].
Qed.

Lemma batch_nowrap w ps vs :
  Forall2 (points_to w) ps vs ->
  forallb (id_nowrap w) ps = true ->
  Forall (fun v => GoInt.in_range (ID v + 1)) vs.
Proof.
  induction 1 as [|p v ps vs (l & -> & Hl) _ IH]; cbn; [constructor|].
  rewrite Hl. intros [Hv Hrest]%andb_prop.
  constructor; [by apply in_rangeb_in_range|by apply IH].
Qed.

(** One call that does not wrap keeps the counter above the keys and does
    not lower it. *)
Lemma nowrap_step c s s' :
  wf s -> keys_below (world s) -> nowrap c s = true ->
  run_call c s = Some s' ->
  keys_below (world s') /\
  nextID (repo (world s)) <= nextID (repo (world s')).
Proof.
  intros Hwf Hk Hnw Hrun. destruct s as [w h].
  destruct c as [v|l v|post|t c a|id|order|id post|id|id|ps|id t c a];
    cbn [run_call nowrap world held] in *.
  - rewrite run_alloc in Hrun. cbn in Hrun. injection Hrun as <-.
    cbn. split; [done|lia].
  - destruct (decide (l ∈ h)); [|done]. rewrite run_store in Hrun.
    destruct (mem w !! l); [|done]. cbn in Hrun. injection Hrun as <-.
    cbn. split; [done|lia].
  - destruct (decide (known h post)) as [Hkn|]; [|done].
    destruct (known_points_to _ _ Hwf Hkn) as [->|(v & p & -> & Hp)]; [done|].
    cbn in Hp. rewrite (Create_eq _ _ _ Hp) in Hrun. cbn in Hrun.
    cbn in Hnw. rewrite Hp in Hnw. apply in_rangeb_in_range in Hnw.
    destruct (posts (repo w) !! ID v); injection Hrun as <-; cbn [world].
    + split; [done|lia].
    + by apply keys_below_inserted.
  - rewrite CreatePost_eq in Hrun. cbn zeta in Hrun.
    apply in_rangeb_in_range in Hnw.
    assert (GoInt.incr (nextID (repo w)) = nextID (repo w) + 1) as Hincr
      by (by apply wrap_in_range).
    destruct (validate _); cbn in Hrun; injection Hrun as <-; cbn; rewrite Hincr.
    + split; [|lia]. intros id H. specialize (Hk _ H). cbn. lia.
    + split; [|lia]. intros id. cbn.
      destruct (decide (nextID (repo w) = id)) as [<-|Hne]; [intros _; lia|].
      rewrite lookup_insert_ne by done. intros H. specialize (Hk _ H). lia.
  - rewrite GetByID_eq in Hrun.
    destruct (posts (repo w) !! id) as [l|].
    + destruct (mem w !! l); [|done]. cbn in Hrun. injection Hrun as <-.
      cbn. split; [done|lia].
    + cbn in Hrun. injection Hrun as <-. cbn. split; [done|lia].
  - destruct (decide (order ≡ₚ map_to_list (posts (repo w)))) as [Hord|]; [|done].
    destruct (GetAll_in_eq w order (wf_cells _ Hwf) Hord) as (vs & _ & Heq).
    rewrite Heq in Hrun. cbn in Hrun. injection Hrun as <-.
    cbn. split; [done|lia].
  - destruct (decide (known h post)) as [Hkn|]; [|done].
    destruct (posts (repo w) !! id) as [l0|] eqn:Hid.
    + destruct (known_points_to _ _ Hwf Hkn) as [->|(v & p & -> & Hp)].
      * unfold Repo.Update in Hrun. rewrite run_bind, run_get_repo in Hrun.
        cbn in Hrun. by rewrite Hid in Hrun.
      * cbn in Hp. rewrite (Repo_Update_eq _ _ _ _ _ Hid Hp) in Hrun.
        cbn in Hrun. injection Hrun as <-. cbn. split; [|lia].
        intros id'. cbn. destruct (decide (id = id')) as [<-|Hne].
        -- intros _. apply Hk. by eexists.
        -- rewrite lookup_insert_ne by done. apply Hk.
    + rewrite (Repo_Update_absent _ _ _ Hid) in Hrun. cbn in Hrun.
      injection Hrun as <-. cbn. split; [done|lia].
  - rewrite Delete_eq in Hrun. cbn in Hrun.
    destruct (posts (repo w) !! id) eqn:Hid; injection Hrun as <-; cbn.
    + split; [|lia]. intros id'. cbn.
      destruct (decide (id = id')) as [<-|Hne].
      * rewrite lookup_delete_eq. by intros [? ?].
      * rewrite lookup_delete_ne by done. apply Hk.
    + split; [done|lia].
  - rewrite Exists_eq in Hrun. cbn in Hrun. injection Hrun as <-.
    cbn. split; [done|lia].
  - destruct (decide (Forall (known h) ps)) as [Hkn|]; [|done].
    destruct (known_batch _ _ Hwf Hkn) as [Hnil|[vs Hvs]].
    + by rewrite (LoadData_nil _ _ Hnil) in Hrun.
    + cbn in Hvs. rewrite (LoadData_eq _ _ _ Hvs) in Hrun. cbn in Hrun.
      injection Hrun as <-. cbn [world].
      apply keys_below_loaded; [|done]. by eapply batch_nowrap.
  - destruct (posts (repo w) !! id) as [l|] eqn:Hid.
    + destruct (wf_cells _ Hwf _ _ Hid) as (v & Hv & _). cbn in Hv.
      rewrite (UpdatePost_eq _ _ _ _ _ _ _ Hid Hv) in Hrun. cbn zeta in Hrun.
      destruct (validate _); cbn in Hrun; injection Hrun as <-; cbn.
      * split; [done|lia].
      * split; [|lia]. intros id'. cbn.
        destruct (decide (id = id')) as [<-|Hne].
        -- intros _. apply Hk. by eexists.
        -- rewrite lookup_insert_ne by done. apply Hk.
    + rewrite (UpdatePost_absent _ _ _ _ _ Hid) in Hrun. cbn in Hrun.
      injection Hrun as <-. cbn. split; [done|lia].
Qed.

Lemma nowrap_steps cs s s' :
  wf s -> keys_below (world s) -> nowrap_run cs s = true ->
  run cs s = Some s' ->
  keys_below (world s') /\
  nextID (repo (world s)) <= nextID (repo (world s')).
Proof.
  revert s. induction cs as [|c cs IH]; intros s Hwf Hk Hnw Hrun; cbn in *.
  - injection Hrun as <-. split; [done|lia].
  - destruct (run_call c s) as [s1|] eqn:Hc; [|done].
    apply andb_prop in Hnw as [Hnw1 Hnw2].
    destruct (nowrap_step _ _ _ Hwf Hk Hnw1 Hc) as [Hk1 Hle1].
    destruct (IH s1 (wf_step _ _ _ Hwf Hc) Hk1 Hnw2 Hrun) as [Hk2 Hle2].
    split; [done|lia].
Qed.

Lemma nowrap_run_app cs1 cs2 s s1 :
  run cs1 s = Some s1 -> nowrap_run (cs1 ++ cs2) s = true ->
  nowrap_run cs1 s = true /\ nowrap_run cs2 s1 = true.
Proof.
  revert s. induction cs1 as [|c cs1 IH]; intros s Hrun Hnw; cbn in *.
  - by injection Hrun as <-.
  - destruct (run_call c s) as [s'|] eqn:Hc; [|done].
    apply andb_prop in Hnw as [Hnw1 Hnw2].
    destruct (IH _ Hrun Hnw2) as [H1 H2]. by rewrite Hnw1.
Qed.

Lemma keys_below_init : keys_below (world init).
Proof. intros id [l H]. cbn in H. by rewrite lookup_empty in H. Qed.

(** C2, as the code has it.  Along a run from the initial store in which
    no sum on the counter wraps around ([nowrap_run]: every ID inserted
    explicitly or loaded in bulk, and the counter at every [CreatePost], is
    below the largest [int]), the counter of any later state [s2] is above
    every key the map held in any earlier state [s1] (and in [s2] itself,
    with no call in between), and it never decreases.  So the ID a
    successful [CreatePost] hands out in [s2] is above every key ever held:
    above every ID generated before, and never an ID that was deleted. *)
Theorem nextID_above_all_keys cs1 cs2 s1 s2 :
  run cs1 init = Some s1 ->
  run cs2 s1 = Some s2 ->
  nowrap_run (cs1 ++ cs2) init = true ->
  (forall id, is_Some (posts (repo (world s1)) !! id) ->
              id < nextID (repo (world s2)))
  /\ nextID (repo (world s1)) <= nextID (repo (world s2))
  /\ (forall title content author p w',
        Repo.CreatePost title content author (world s2) =
          Some ((Some p, None), w') ->
        exists v, mem w' !! p = Some v /\
                  ID v = nextID (repo (world s2)) /\
                  posts (repo w') !! ID v = Some (p - 1)%nat /\
                  forall id, is_Some (posts (repo (world s1)) !! id) ->
                             id < ID v).
Proof.
  intros H1 H2 Hnw.
  destruct (nowrap_run_app _ _ _ _ H1 Hnw) as [Hnw1 Hnw2].
  destruct (nowrap_steps _ _ _ wf_init keys_below_init Hnw1 H1) as [Hk1 _].
  destruct (nowrap_steps _ _ _ (wf_run _ _ _ wf_init H1) Hk1 Hnw2 H2)
    as [Hk2 Hle].
  assert (forall id, is_Some (posts (repo (world s1)) !! id) ->
                     id < nextID (repo (world s2))) as Hall.
  { intros id Hid. specialize (Hk1 _ Hid). lia. }
  split; [done|]. split; [done|].
  intros title content author p w'. rewrite CreatePost_eq. cbn zeta.
  destruct (validate _); [done|]. intros [= <- <-].
  eexists. split.
  - mred. rewrite lookup_app_r by lia.
    by replace (S (S (length (mem (world s2)))) - length (mem (world s2)))%nat
      with 2%nat by lia.
  - cbn [ID]. split; [done|]. split; [|done]. mred.
    rewrite lookup_insert_eq. f_equal; lia.
Qed.

(** The scenario of the specification: post 1 is created and deleted; the
    next post created gets the ID 2. *)
Lemma nextID_above_all_keys_witness :
  exists s1 s2 p w',
    run [DoCreatePost "First" "Content" "Author"] init = Some s1 /\
    run [DoDelete 1] s1 = Some s2 /\
    is_Some (posts (repo (world s1)) !! 1) /\
    posts (repo (world s2)) !! 1 = None /\
    1 < nextID (repo (world s2)) /\
    Repo.CreatePost "Second" "Content" "Author" (world s2) =
      Some ((Some p, None), w') /\
    exists v, mem w' !! p = Some v /\ 1 < ID v.
Proof.
  destruct (run [DoCreatePost "First" "Content" "Author"] init)
    as [s1|] eqn:H1; [|by vm_compute in H1].
  destruct (run [DoDelete 1] s1) as [s2|] eqn:H2;
    [|vm_compute in H1; injection H1 as <-; by vm_compute in H2].
  assert (nowrap_run ([DoCreatePost "First" "Content" "Author"] ++ [DoDelete 1])
                     init = true) as Hnw by (by vm_compute).
  destruct (nextID_above_all_keys _ _ _ _ H1 H2 Hnw) as (Hkeys & _ & Hcreate).
  assert (is_Some (posts (repo (world s1)) !! 1)) as Hone
    by (vm_compute in H1; injection H1 as <-; vm_compute; eauto).
  destruct (Repo.CreatePost "Second" "Content" "Author" (world s2))
    as [[[[p|] [e|]] w']|] eqn:Hc;
    try (vm_compute in H1; injection H1 as <-; vm_compute in H2;
         injection H2 as <-; by vm_compute in Hc).
  destruct (Hcreate _ _ _ _ _ Hc) as (v & Hv & _ & _ & Habove).
  exists s1, s2, p, w'. repeat (split; [done|]).
  split; [vm_compute in H1; injection H1 as <-; vm_compute in H2;
          injection H2 as <-; by vm_compute|].
  split; [by apply Hkeys|]. split; [done|].
  exists v. split; [done|]. by apply Habove.
Defined.

(** C2 as stated fails: an explicit insertion of a post whose ID is the
    largest [int] makes the counter wrap to the smallest one, below the key
    just stored, and the next generated ID is that smallest [int]. *)
Lemma nextID_wraps_at_MaxInt :
  exists s p w',
    run [CallerNew (mkPost GoInt.MaxInt "Title" "Content" "Author");
         DoCreate (Some 0%nat)] init = Some s /\
    reachable s /\
    is_Some (posts (repo (world s)) !! GoInt.MaxInt) /\
    nextID (repo (world s)) = GoInt.MinInt /\
    ~ GoInt.MaxInt < nextID (repo (world s)) /\
    Repo.CreatePost "Next" "Content" "Author" (world s) =
      Some ((Some p, None), w') /\
    ID <$> mem w' !! p = Some GoInt.MinInt.
Proof.
  eexists _, _, _. split; [by vm_compute|].
  split.
  { exists [CallerNew (mkPost GoInt.MaxInt "Title" "Content" "Author");
            DoCreate (Some 0%nat)]. by vm_compute. }
  split; [vm_compute; eauto|]. split; [by vm_compute|].
  split; [by vm_compute|]. split; by vm_compute.
Qed.
(** * Further properties of the code

    The rest of the repository's methods, the service, the data loader,
    the response structs and the handlers of the REST interface. *)

(** ** The repository's [Create], [GetByID], [Delete] and [Exists] *)

Lemma contents_None w id :
  cells_ok w -> contents w !! id = None <-> posts (repo w) !! id = None.
Proof.
  intros Hc. rewrite contents_lookup. split.
  - destruct (posts (repo w) !! id) as [l|] eqn:Hid; [|done]. cbn.
    destruct (Hc _ _ Hid) as (v & -> & _). done.
  - by intros ->.
Qed.

Lemma contents_Some w id v :
  cells_ok w -> contents w !! id = Some v ->
  exists l, posts (repo w) !! id = Some l /\ mem w !! l = Some v /\ ID v = id.
Proof.
  intros Hc H. pose proof (contents_ID _ _ _ Hc H) as Hid.
  rewrite contents_lookup in H.
  destruct (posts (repo w) !! id) as [l|]; [|done]. by exists l.
Qed.

Lemma store_state_alloc w ext :
  cells_ok w -> store_state (mkWorld (mem w ++ ext) (repo w)) = store_state w.
Proof. intros Hc. unfold store_state. f_equal. by apply contents_alloc. Qed.

Lemma reachable_init : reachable init.
Proof. by exists []. Qed.

(** X1. In every reachable state, [Create] of a post returns
    [ErrPostExists] exactly when a post is stored under the ID of the post
    handed in, and [nil] exactly when none is; when it returns the error,
    nothing has changed: the map, the counter and every cell are as before
    (the stored post is not overwritten and no copy is made). *)
Theorem Create_error_iff_id_stored s l v :
  reachable s ->
  mem (world s) !! l = Some v ->
  exists err w',
    Repo.Create (Some l) (world s) = Some (err, w') /\
    (err = Some ErrPostExists <-> is_Some (contents (world s) !! ID v)) /\
    (err = None <-> contents (world s) !! ID v = None) /\
    (err <> None -> w' = world s).
Proof.
  intros Hr Hv. apply reachable_wf in Hr as [Hc _ _].
  rewrite (Create_eq _ _ _ Hv).
  destruct (posts (repo (world s)) !! ID v) as [l0|] eqn:Hid.
  - eexists _, _. split; [reflexivity|].
    assert (is_Some (contents (world s) !! ID v)) as Hs
      by (apply contents_is_Some; [done|by eexists]).
    split; [done|]. split; [|done].
    split; [done|]. intros H. rewrite H in Hs. by destruct Hs.
  - eexists _, _. split; [reflexivity|].
    apply (contents_None _ _ Hc) in Hid. rewrite Hid.
    split; [|done]. split; [done|]. by intros [].
Qed.

(** The test of the repository: the same post created twice; the second
    call returns [ErrPostExists] and leaves the world as it is. *)
Lemma Create_error_iff_id_stored_witness :
  Repo.Create (Some 0%nat)
    (world (after [CallerNew (mkPost 1 "Test Title" "Test Content" "Test Author");
                   DoCreate (Some 0%nat)]))
  = Some (Some ErrPostExists,
          world (after [CallerNew (mkPost 1 "Test Title" "Test Content" "Test Author");
                        DoCreate (Some 0%nat)])).
Proof.
  assert (reachable
            (after [CallerNew (mkPost 1 "Test Title" "Test Content" "Test Author");
                    DoCreate (Some 0%nat)])) as Hr
    by (apply after_reachable; vm_compute; eauto).
  destruct (Create_error_iff_id_stored _ 0%nat
              (mkPost 1 "Test Title" "Test Content" "Test Author") Hr)
    as (err & w' & Hrun & Hex & _ & Hsame); [by vm_compute|].
  assert (err = Some ErrPostExists) as Herr by (apply Hex; vm_compute; eauto).
  rewrite Hrun, Hsame, Herr; [done|]. by rewrite Herr.
Defined.

(** X2. Round trip of [Create] and [GetByID].  In every reachable state,
    [Create] of a post whose ID is not stored returns [nil]; afterwards the
    store holds the post under its ID, the other entries unchanged, the
    counter is one past the ID if the ID was at or above the counter and
    unchanged otherwise, and the map does not hold the caller's pointer.
    [GetByID] of that ID then returns, with a [nil] error, a pointer to a
    post equal in all fields to the one created; the pointer is neither
    the caller's nor the one in the map, and the store is as [Create] left
    it. *)
Theorem Create_then_GetByID s l v :
  reachable s ->
  mem (world s) !! l = Some v ->
  contents (world s) !! ID v = None ->
  exists w1 p w2,
    Repo.Create (Some l) (world s) = Some (None, w1) /\
    contents w1 = <[ID v := v]> (contents (world s)) /\
    nextID (repo w1) =
      (if nextID (repo (world s)) <=? ID v then GoInt.add (ID v) 1
       else nextID (repo (world s))) /\
    posts (repo w1) !! ID v <> Some l /\
    Repo.GetByID (ID v) w1 = Some ((Some p, None), w2) /\
    mem w2 !! p = Some v /\
    p <> l /\
    posts (repo w2) !! ID v <> Some p /\
    store_state w2 = store_state w1.
Proof.
  intros Hr Hv Hid. apply reachable_wf in Hr as [Hc _ _].
  apply (contents_None _ _ Hc) in Hid.
  pose proof (lookup_lt_Some _ _ _ Hv) as Hlt.
  rewrite (Create_eq _ _ _ Hv), Hid.
  eexists _, _, _. split; [reflexivity|].
  split; [by apply contents_inserted|]. split; [reflexivity|].
  split. { rewrite posts_inserted, lookup_insert_eq. intros [= H]. lia. }
  rewrite GetByID_eq, posts_inserted, lookup_insert_eq.
  unfold inserted at 1. mred. rewrite lookup_new_cell.
  split; [reflexivity|]. mred. split; [apply lookup_new_cell|].
  split. { unfold inserted. mred. rewrite length_app. cbn. lia. }
  split. { unfold inserted. mred. rewrite lookup_insert_eq, length_app.
           cbn. intros [= H]. lia. }
  apply store_state_alloc. by apply cells_ok_inserted.
Qed.

Lemma Create_then_GetByID_witness :
  exists w1 p w2,
    Repo.Create (Some 0%nat)
      (world (after [CallerNew (mkPost 7 "Test Title" "Test Content" "Test Author")]))
      = Some (None, w1) /\
    nextID (repo w1) = 8 /\
    Repo.GetByID 7 w1 = Some ((Some p, None), w2) /\
    mem w2 !! p = Some (mkPost 7 "Test Title" "Test Content" "Test Author").
Proof.
  assert (reachable
            (after [CallerNew (mkPost 7 "Test Title" "Test Content" "Test Author")]))
    as Hr by (apply after_reachable; vm_compute; eauto).
  destruct (Create_then_GetByID _ 0%nat
              (mkPost 7 "Test Title" "Test Content" "Test Author") Hr)
    as (w1 & p & w2 & Hc & _ & Hn & _ & Hg & Hm & _);
    [by vm_compute|by vm_compute|].
  exists w1, p, w2. split; [exact Hc|]. split; [by rewrite Hn|].
  split; [exact Hg|exact Hm].
Defined.

(** X3. Round trip of [CreatePost] and [GetByID].  In every reachable
    state, [CreatePost] with fields that pass validation returns, with a
    [nil] error, a pointer to a post that carries the fields and the value
    of the counter as its ID; the store then holds that post under that
    ID, and the pointer returned is not the one in the map.  [GetByID] of
    the ID then returns a pointer to a post equal in all fields, again a
    copy of its own, and leaves the store as it is. *)
Theorem CreatePost_then_GetByID s title content author :
  reachable s ->
  validate (mkPost (nextID (repo (world s))) title content author) = None ->
  let id := nextID (repo (world s)) in
  let v := mkPost id title content author in
  exists p w1 q w2,
    Repo.CreatePost title content author (world s) = Some ((Some p, None), w1) /\
    mem w1 !! p = Some v /\
    contents w1 = <[id := v]> (contents (world s)) /\
    posts (repo w1) !! id <> Some p /\
    Repo.GetByID id w1 = Some ((Some q, None), w2) /\
    mem w2 !! q = Some v /\
    q <> p /\
    store_state w2 = store_state w1.
Proof.
  intros Hr Hvalid id v. apply reachable_wf in Hr as [Hc _ _].
  rewrite CreatePost_eq. cbn zeta. rewrite Hvalid. fold id. fold v.
  assert ((mem (world s) ++ [v; v; v]) !! S (length (mem (world s))) = Some v
          /\ (mem (world s) ++ [v; v; v]) !! S (S (length (mem (world s)))) = Some v)
    as [Hnew1 Hnew2].
  { rewrite !lookup_app_r by lia.
    replace (S (length (mem (world s))) - length (mem (world s)))%nat
      with 1%nat by lia.
    by replace (S (S (length (mem (world s)))) - length (mem (world s)))%nat
      with 2%nat by lia. }
  assert (cells_ok (mkWorld (mem (world s) ++ [v; v; v])
            (mkRepo (<[id := S (length (mem (world s)))]> (posts (repo (world s))))
                    (GoInt.incr id)))) as Hc1.
  { intros id' l'. mred. destruct (decide (id = id')) as [<-|Hne].
    - rewrite lookup_insert_eq. intros [= <-]. by exists v.
    - rewrite lookup_insert_ne by done. intros H.
      destruct (Hc _ _ H) as (x & Hx & Hidx). exists x. split; [|done].
      rewrite lookup_app_l; [done|]. by eapply lookup_lt_Some. }
  eexists _, _, _, _. split; [reflexivity|]. mred.
  split; [done|].
  split; [by apply contents_insert|].
  split. { rewrite lookup_insert_eq. intros [= H]. lia. }
  rewrite GetByID_eq. mred. rewrite lookup_insert_eq, Hnew1.
  split; [reflexivity|]. mred.
  split; [apply lookup_new_cell|].
  split. { rewrite length_app. cbn. lia. }
  exact (store_state_alloc _ [v] Hc1).
Qed.

Lemma CreatePost_then_GetByID_witness :
  exists p w1 q w2,
    Repo.CreatePost "Test Title" "Test Content" "Test Author" (world init)
      = Some ((Some p, None), w1) /\
    Repo.GetByID 1 w1 = Some ((Some q, None), w2) /\
    mem w2 !! q = Some (mkPost 1 "Test Title" "Test Content" "Test Author").
Proof.
  destruct (CreatePost_then_GetByID init "Test Title" "Test Content" "Test Author"
              reachable_init)
    as (p & w1 & q & w2 & Hc & _ & _ & _ & Hg & Hm & _); [by vm_compute|].
  exists p, w1, q, w2. split; [exact Hc|]. split; [exact Hg|exact Hm].
Defined.

(** X4. In every reachable state, [GetByID] of an id that is not stored
    returns a [nil] post and [ErrPostNotFound] and leaves the world as it
    is; [GetByID] of a stored id returns, with a [nil] error, a pointer to
    a cell that did not exist before the call and holds the stored post,
    whose ID is the id asked for; the cells that existed and the store are
    unchanged. *)
Theorem GetByID_not_found_or_copy s id :
  reachable s ->
  match contents (world s) !! id with
  | None =>
    Repo.GetByID id (world s) = Some ((nil, Some ErrPostNotFound), world s)
  | Some v =>
    exists p w',
      Repo.GetByID id (world s) = Some ((Some p, None), w') /\
      mem w' !! p = Some v /\
      ID v = id /\
      mem (world s) !! p = None /\
      (forall l x, mem (world s) !! l = Some x -> mem w' !! l = Some x) /\
      repo w' = repo (world s) /\
      store_state w' = store_state (world s)
  end.
Proof.
  intros Hr. apply reachable_wf in Hr as [Hc _ _].
  destruct (contents (world s) !! id) as [v|] eqn:Hv.
  - destruct (contents_Some _ _ _ Hc Hv) as (l & Hl & Hm & Hid).
    rewrite GetByID_eq, Hl, Hm. eexists _, _. split; [reflexivity|]. mred.
    split; [apply lookup_new_cell|]. split; [done|].
    split; [by apply lookup_ge_None_2|].
    split; [intros l' x Hx; by apply lookup_old_cell|].
    split; [done|]. by apply store_state_alloc.
  - apply (contents_None _ _ Hc) in Hv. by rewrite GetByID_eq, Hv.
Qed.

(** The test of the repository: [GetByID] of 1 on a new repository is
    refused; once a post is stored under 1 it comes back. *)
Lemma GetByID_not_found_or_copy_witness :
  Repo.GetByID 1 (world init) = Some ((nil, Some ErrPostNotFound), world init)
  /\ exists p w',
       Repo.GetByID 1
         (world (after [DoCreatePost "Test Title" "Test Content" "Test Author"]))
         = Some ((Some p, None), w') /\
       mem w' !! p = Some (mkPost 1 "Test Title" "Test Content" "Test Author").
Proof.
  split.
  - exact (GetByID_not_found_or_copy init 1 reachable_init).
  - assert (reachable
              (after [DoCreatePost "Test Title" "Test Content" "Test Author"]))
      as Hr by (apply after_reachable; vm_compute; eauto).
    pose proof (GetByID_not_found_or_copy _ 1 Hr) as H.
    assert (contents (world (after [DoCreatePost "Test Title" "Test Content"
                                                 "Test Author"])) !! 1 =
            Some (mkPost 1 "Test Title" "Test Content" "Test Author")) as Hc
      by (by vm_compute).
    rewrite Hc in H. destruct H as (p & w' & Hg & Hm & _).
    exists p, w'. split; [exact Hg|exact Hm].
Defined.

(** X5. In every reachable state, [Delete] of an id that is not stored
    returns [ErrPostNotFound] and leaves the world as it is; [Delete] of a
    stored id returns [nil] and removes that entry only: the other
    entries, the counter and every cell are unchanged.  Afterwards
    [GetByID] and a second [Delete] of the id return [ErrPostNotFound] and
    [Exists] returns false. *)
Theorem Delete_removes_the_entry s id :
  reachable s ->
  match contents (world s) !! id with
  | None => Repo.Delete id (world s) = Some (Some ErrPostNotFound, world s)
  | Some _ =>
    exists w',
      Repo.Delete id (world s) = Some (None, w') /\
      contents w' = delete id (contents (world s)) /\
      nextID (repo w') = nextID (repo (world s)) /\
      mem w' = mem (world s) /\
      Repo.GetByID id w' = Some ((nil, Some ErrPostNotFound), w') /\
      Repo.Exists id w' = Some (false, w') /\
      Repo.Delete id w' = Some (Some ErrPostNotFound, w')
  end.
Proof.
  intros Hr. apply reachable_wf in Hr as [Hc _ _].
  destruct (contents (world s) !! id) as [v|] eqn:Hv.
  - destruct (contents_Some _ _ _ Hc Hv) as (l & Hl & Hm & Hid).
    rewrite Delete_eq, Hl. eexists. split; [reflexivity|].
    split; [apply contents_delete|]. split; [done|]. split; [done|].
    rewrite GetByID_eq, Exists_eq, Delete_eq. mred.
    rewrite lookup_delete_eq. split; [done|]. split; [|done].
    rewrite bool_decide_eq_false_2; [done|]. by intros [? ?].
  - apply (contents_None _ _ Hc) in Hv. by rewrite Delete_eq, Hv.
Qed.

(** The test of the repository: a post is created and deleted; it cannot
    be fetched any more. *)
Lemma Delete_removes_the_entry_witness :
  exists w',
    Repo.Delete 1
      (world (after [DoCreatePost "Test Title" "Test Content" "Test Author"]))
      = Some (None, w') /\
    Repo.GetByID 1 w' = Some ((nil, Some ErrPostNotFound), w') /\
    nextID (repo w') = 2.
Proof.
  assert (reachable
            (after [DoCreatePost "Test Title" "Test Content" "Test Author"]))
    as Hr by (apply after_reachable; vm_compute; eauto).
  pose proof (Delete_removes_the_entry _ 1 Hr) as H.
  assert (contents (world (after [DoCreatePost "Test Title" "Test Content"
                                               "Test Author"])) !! 1 =
          Some (mkPost 1 "Test Title" "Test Content" "Test Author")) as Hc
    by (by vm_compute).
  rewrite Hc in H. destruct H as (w' & Hd & _ & Hn & _ & Hg & _).
  exists w'. split; [exact Hd|]. split; [exact Hg|]. by rewrite Hn.
Defined.

(** X6. In every reachable state, [Exists] leaves the world as it is and
    returns true exactly when a post is stored under the id, which is
    exactly when [GetByID] of the id returns a post; it returns false
    exactly when [GetByID] returns [ErrPostNotFound]. *)
Theorem Exists_iff_GetByID_succeeds s id :
  reachable s ->
  exists b,
    Repo.Exists id (world s) = Some (b, world s) /\
    (b = true <-> is_Some (contents (world s) !! id)) /\
    (b = true <->
     exists p w', Repo.GetByID id (world s) = Some ((Some p, None), w')) /\
    (b = false <->
     Repo.GetByID id (world s) = Some ((nil, Some ErrPostNotFound), world s)).
Proof.
  intros Hr. apply reachable_wf in Hr as [Hc _ _].
  rewrite Exists_eq, GetByID_eq. eexists. split; [reflexivity|].
  destruct (posts (repo (world s)) !! id) as [l|] eqn:Hl.
  - destruct (Hc _ _ Hl) as (v & Hv & Hid). rewrite Hv.
    rewrite bool_decide_eq_true_2 by (by eexists).
    split. { split; [|done]. intros _. apply contents_is_Some; [done|by eexists]. }
    split. { split; [|done]. intros _. by eexists _, _. }
    split; done.
  - apply (contents_None _ _ Hc) in Hl as Hn. rewrite Hn.
    rewrite bool_decide_eq_false_2 by (by intros [? ?]).
    split. { split; [done|]. by intros [? ?]. }
    split. { split; [done|]. by intros (? & ? & ?). }
    split; done.
Qed.

(** The test of the repository: [Exists] is false before the post is
    created and true after. *)
Lemma Exists_iff_GetByID_succeeds_witness :
  Repo.Exists 1 (world init) = Some (false, world init)
  /\ Repo.Exists 1
       (world (after [DoCreatePost "Test Title" "Test Content" "Test Author"]))
     = Some (true,
             world (after [DoCreatePost "Test Title" "Test Content" "Test Author"])).
Proof.
  split.
  - destruct (Exists_iff_GetByID_succeeds init 1 reachable_init)
      as (b & Hrun & Hb & _).
    destruct b; [|exact Hrun].
    destruct (proj1 Hb eq_refl) as [v Hv]. by vm_compute in Hv.
  - assert (reachable
              (after [DoCreatePost "Test Title" "Test Content" "Test Author"]))
      as Hr by (apply after_reachable; vm_compute; eauto).
    destruct (Exists_iff_GetByID_succeeds _ 1 Hr) as (b & Hrun & Hb & _).
    assert (b = true) as Htrue by (apply Hb; vm_compute; eauto).
    by rewrite Hrun, Htrue.
Defined.

(** X7. In every reachable state, every key of the map leads to a stored
    post (no [nil] and no dangling pointer is ever stored, so that neither
    [GetByID] nor [GetAll] can fail on a stored entry), and the ID field of
    a stored post is the key it is stored under, whichever of [Create],
    [CreatePost], [Update], [LoadData] and the service's [UpdatePost] put it
    there. *)
Theorem stored_post_ID_is_its_key s id :
  reachable s ->
  (is_Some (posts (repo (world s)) !! id) <-> is_Some (contents (world s) !! id))
  /\ (forall v, contents (world s) !! id = Some v -> ID v = id).
Proof.
  intros Hr. apply reachable_wf in Hr as [Hc Hp _].
  split.
  - split; [by apply contents_is_Some|].
    intros [v Hv]. destruct (contents_Some _ _ _ Hc Hv) as (l & Hl & _).
    by eexists.
  - intros v. by apply contents_ID.
Qed.

(** [Update] of the repository with a post that carries the ID 99: what is
    stored under 1 carries the ID 1. *)
Lemma stored_post_ID_is_its_key_witness :
  contents (world (after [DoCreatePost "Test Title" "Test Content" "Test Author";
                          CallerNew (mkPost 99 "Updated Title" "Updated Content"
                                            "Updated Author");
                          DoUpdate 1 (Some 3%nat)])) !! 1
    = Some (mkPost 1 "Updated Title" "Updated Content" "Updated Author")
  /\ ID (mkPost 1 "Updated Title" "Updated Content" "Updated Author") = 1.
Proof.
  assert (reachable
            (after [DoCreatePost "Test Title" "Test Content" "Test Author";
                    CallerNew (mkPost 99 "Updated Title" "Updated Content"
                                      "Updated Author");
                    DoUpdate 1 (Some 3%nat)])) as Hr
    by (apply after_reachable; vm_compute; eauto).
  destruct (stored_post_ID_is_its_key _ 1 Hr) as [_ Hid].
  split; [by vm_compute|]. apply Hid. by vm_compute.
Defined.

(** ** What a call does to the stored posts *)

Lemma contents_counter m ps n n' :
  contents (mkWorld m (mkRepo ps n)) = contents (mkWorld m (mkRepo ps n')).
Proof. reflexivity. Qed.

Lemma contents_step c s s' :
  wf s -> run_call c s = Some s' ->
  match c with
  | DoCreate post =>
    exists v, deref (world s) post = Some v /\
      (contents (world s') = contents (world s) \/
       contents (world s') = <[ID v := v]> (contents (world s)))
  | DoCreatePost title content author =>
    contents (world s') = contents (world s) \/
    validate (mkPost (nextID (repo (world s))) title content author) = None /\
    contents (world s') =
      <[nextID (repo (world s)) :=
          mkPost (nextID (repo (world s))) title content author]>
        (contents (world s))
  | DoUpdate id post =>
    contents (world s') = contents (world s) \/
    exists v, deref (world s) post = Some v /\
      contents (world s') =
        <[id := mkPost id (Title v) (Content v) (Author v)]> (contents (world s))
  | DoDelete id => contents (world s') = delete id (contents (world s))
  | DoLoadData ps =>
    exists vs, Forall2 (fun p v => deref (world s) p = Some v) ps vs /\
      forall id, contents (world s') !! id =
        match last (filter (fun v => ID v = id) vs) with
        | Some v => Some v
        | None => contents (world s) !! id
        end
  | DoUpdatePost id title content author =>
    contents (world s') = contents (world s) \/
    validate (mkPost id title content author) = None /\
    contents (world s') =
      <[id := mkPost id title content author]> (contents (world s))
  | _ => contents (world s') = contents (world s)
  end.
Proof.
  intros Hwf Hrun. destruct s as [w h]. pose proof (wf_cells _ Hwf) as Hc.
  cbn [world] in Hc.
  destruct c as [v|l v|post|t c a|id|order|id post|id|id|ps|id t c a];
    cbn [run_call world held] in *.
  - rewrite run_alloc in Hrun. cbn in Hrun. injection Hrun as <-.
    cbn [world]. by apply contents_alloc.
  - destruct (decide (l ∈ h)) as [Hin|]; [|done]. rewrite run_store in Hrun.
    destruct (mem w !! l); [|done]. cbn in Hrun. injection Hrun as <-.
    cbn [world]. apply contents_write. intros id Hid.
    by apply (wf_private _ Hwf _ _ Hid).
  - destruct (decide (known h post)) as [Hkn|]; [|done].
    destruct (known_points_to _ _ Hwf Hkn) as [->|(v & p & -> & Hp)]; [done|].
    cbn in Hp. rewrite (Create_eq _ _ _ Hp) in Hrun. cbn in Hrun.
    exists v. split; [done|].
    destruct (posts (repo w) !! ID v); injection Hrun as <-; cbn [world].
    + by left.
    + right. by apply contents_inserted.
  - rewrite CreatePost_eq in Hrun. cbn zeta in Hrun.
    destruct (validate _) eqn:Hv; cbn in Hrun; injection Hrun as <-; cbn [world].
    + left. rewrite (contents_counter _ _ _ (nextID (repo w))).
      rewrite Repo_eta. by apply contents_alloc.
    + right. split; [done|]. apply contents_insert; [done|].
      rewrite lookup_app_r by lia.
      by replace (S (length (mem w)) - length (mem w))%nat with 1%nat by lia.
  - rewrite GetByID_eq in Hrun.
    destruct (posts (repo w) !! id) as [l|].
    + destruct (mem w !! l); [|done]. cbn in Hrun. injection Hrun as <-.
      cbn [world]. by apply contents_alloc.
    + cbn in Hrun. by injection Hrun as <-.
  - destruct (decide (order ≡ₚ map_to_list (posts (repo w)))) as [Hord|]; [|done].
    destruct (GetAll_in_eq w order Hc Hord) as (vs & _ & Heq).
    rewrite Heq in Hrun. cbn in Hrun. injection Hrun as <-.
    cbn [world]. by apply contents_alloc.
  - destruct (decide (known h post)) as [Hkn|]; [|done].
    destruct (posts (repo w) !! id) as [l0|] eqn:Hid.
    + destruct (known_points_to _ _ Hwf Hkn) as [->|(v & p & -> & Hp)].
      * unfold Repo.Update in Hrun. rewrite run_bind, run_get_repo in Hrun.
        cbn in Hrun. by rewrite Hid in Hrun.
      * cbn in Hp. rewrite (Repo_Update_eq _ _ _ _ _ Hid Hp) in Hrun.
        cbn in Hrun. injection Hrun as <-. cbn [world]. right.
        exists v. split; [done|]. apply contents_insert; [done|].
        apply lookup_new_cell.
    + rewrite (Repo_Update_absent _ _ _ Hid) in Hrun. cbn in Hrun.
      injection Hrun as <-. by left.
  - rewrite Delete_eq in Hrun. cbn in Hrun.
    destruct (posts (repo w) !! id) eqn:Hid; injection Hrun as <-; cbn [world].
    + apply contents_delete.
    + symmetry. apply delete_id. by apply contents_None.
  - rewrite Exists_eq in Hrun. cbn in Hrun. by injection Hrun as <-.
  - destruct (decide (Forall (known h) ps)) as [Hkn|]; [|done].
    destruct (known_batch _ _ Hwf Hkn) as [Hnil|[vs Hvs]].
    + by rewrite (LoadData_nil _ _ Hnil) in Hrun.
    + cbn in Hvs. rewrite (LoadData_eq _ _ _ Hvs) in Hrun. cbn in Hrun.
      injection Hrun as <-. cbn [world]. exists vs. split.
      * eapply Forall2_impl; [exact Hvs|]. intros p v. by apply points_to_deref.
      * intros id. by apply contents_loaded.
  - destruct (posts (repo w) !! id) as [l|] eqn:Hid.
    + destruct (Hc _ _ Hid) as (v & Hv & Hidv).
      rewrite (UpdatePost_eq _ _ _ _ _ _ _ Hid Hv) in Hrun. cbn zeta in Hrun.
      rewrite Hidv in Hrun.
      destruct (validate _) eqn:Hval; cbn in Hrun; injection Hrun as <-;
        cbn [world].
      * left. by apply contents_alloc.
      * right. split; [done|]. apply contents_insert; [done|].
        rewrite lookup_app_r by lia.
        by replace (S (S (length (mem w))) - length (mem w))%nat with 2%nat by lia.
    + rewrite (UpdatePost_absent _ _ _ _ _ Hid) in Hrun. cbn in Hrun.
      injection Hrun as <-. by left.
Qed.

(** ** Stored posts are valid *)

Lemma all_valid_insert w w' id v :
  all_valid w -> validate v = None ->
  contents w' = <[id := v]> (contents w) -> all_valid w'.
Proof.
  intros Ha Hv Heq id' v'. rewrite Heq.
  destruct (decide (id = id')) as [<-|Hne].
  - rewrite lookup_insert_eq. by intros [= <-].
  - rewrite lookup_insert_ne by done. apply Ha.
Qed.

Lemma all_valid_same w w' :
  all_valid w -> contents w' = contents w -> all_valid w'.
Proof. intros Ha Heq id v. rewrite Heq. apply Ha. Qed.

Lemma valid_at_deref w p v :
  valid_at w p = true -> deref w p = Some v -> validate v = None.
Proof. unfold valid_at. intros H Hv. rewrite Hv in H. by destruct (validate v). Qed.

Lemma valid_step c s s' :
  wf s -> all_valid (world s) -> validated c s = true ->
  run_call c s = Some s' -> all_valid (world s').
Proof.
  intros Hwf Ha Hval Hrun. pose proof (contents_step _ _ _ Hwf Hrun) as Hstep.
  destruct c as [v|l v|post|t c a|id|order|id post|id|id|ps|id t c a];
    cbn [validated] in Hval; try (by eapply all_valid_same).
  - destruct Hstep as (v & Hv & [Heq|Heq]); [by eapply all_valid_same|].
    eapply all_valid_insert; [done| |done]. by eapply valid_at_deref.
  - destruct Hstep as [Heq|[Hv Heq]]; [by eapply all_valid_same|].
    by eapply all_valid_insert.
  - destruct Hstep as [Heq|(v & Hv & Heq)]; [by eapply all_valid_same|].
    eapply all_valid_insert; [done| |done].
    pose proof (valid_at_deref _ _ _ Hval Hv) as Hvalid.
    destruct v as [i t c a]. exact Hvalid.
  - intros id' v. rewrite Hstep. intros [Hne H]%lookup_delete_Some.
    by eapply Ha.
  - destruct Hstep as (vs & Hvs & Heq). intros id v. rewrite Heq.
    destruct (last _) as [x|] eqn:Hlast; [|apply Ha].
    intros [= ->]. apply last_Some_elem_of in Hlast.
    apply list_elem_of_filter in Hlast as [_ Hin].
    apply list_elem_of_lookup in Hin as [i Hi].
    destruct (Forall2_lookup_r _ _ _ _ _ Hvs Hi) as (p & Hp & Hd).
    apply (valid_at_deref (world s) p); [|done].
    rewrite forallb_forall in Hval. apply Hval.
    apply list_elem_of_In. by eapply list_elem_of_lookup_2.
  - destruct Hstep as [Heq|[Hv Heq]]; [by eapply all_valid_same|].
    by eapply all_valid_insert.
Qed.

Lemma valid_steps cs s s' :
  wf s -> all_valid (world s) -> validated_run cs s = true ->
  run cs s = Some s' -> all_valid (world s').
Proof.
  revert s. induction cs as [|c cs IH]; intros s Hwf Ha Hval Hrun; cbn in *.
  - by injection Hrun as <-.
  - destruct (run_call c s) as [s1|] eqn:Hc; [|done].
    apply andb_prop in Hval as [Hv1 Hv2].
    apply (IH s1); [by eapply wf_step|by eapply valid_step|done|done].
Qed.

(** X8. Validation on the way into the store.  [CreatePost] and the
    service's [UpdatePost] validate what they store; [Create], [Update] and
    [LoadData] of the repository store what they are given.  So along every
    run from the initial store in which the posts handed to those three
    pass [Validate] at the time of the call ([validated_run]), every post
    the store holds passes [Validate], whatever callers do to the posts
    they hold. *)
Theorem stored_posts_pass_validation cs s :
  run cs init = Some s ->
  validated_run cs init = true ->
  forall id v, contents (world s) !! id = Some v -> validate v = None.
Proof.
  intros Hrun Hval. apply (valid_steps cs init s wf_init); [|done|done].
  intros id v. unfold contents. cbn. by rewrite lookup_omap, lookup_empty.
Qed.

(** A post made by a caller and stored by [Create], one created by
    [CreatePost], then the first one changed by [UpdatePost]: what is
    stored under 5 passes validation. *)
Lemma stored_posts_pass_validation_witness :
  contents (world (after [CallerNew (mkPost 5 "Title" "Content" "Author");
                          DoCreate (Some 0%nat);
                          DoCreatePost "Second" "Content" "Author";
                          DoUpdatePost 5 "Updated Title" "Updated Content"
                                       "Updated Author"])) !! 5
    = Some (mkPost 5 "Updated Title" "Updated Content" "Updated Author")
  /\ validate (mkPost 5 "Updated Title" "Updated Content" "Updated Author") = None.
Proof.
  split; [by vm_compute|].
  apply (stored_posts_pass_validation
           [CallerNew (mkPost 5 "Title" "Content" "Author");
            DoCreate (Some 0%nat);
            DoCreatePost "Second" "Content" "Author";
            DoUpdatePost 5 "Updated Title" "Updated Content" "Updated Author"]
           (after [CallerNew (mkPost 5 "Title" "Content" "Author");
                   DoCreate (Some 0%nat);
                   DoCreatePost "Second" "Content" "Author";
                   DoUpdatePost 5 "Updated Title" "Updated Content"
                                "Updated Author"])
           ltac:(by vm_compute) ltac:(by vm_compute) 5).
  by vm_compute.
Defined.

(** ** The service *)

Lemma GetAll_in_no_error entries w ps err w' :
  Repo.GetAll_in entries w = Some ((ps, err), w') -> err = None.
Proof.
  unfold Repo.GetAll_in. rewrite run_bind.
  destruct (Repo.GetAll_range entries [] w) as [[ps0 w0]|]; [|done].
  rewrite run_bind. destruct (Repo.sort_Slice ps0 w0) as [[sorted w1]|]; [|done].
  rewrite run_ret. by intros [= _ <- _].
Qed.

Lemma Service_CreatePost_eq title content author w :
  Service.CreatePost title content author w =
  Repo.CreatePost title content author w.
Proof.
  unfold Service.CreatePost. rewrite run_bind, CreatePost_eq.
  cbn zeta. by destruct (validate _).
Qed.

Lemma Service_GetPostByID_eq id w :
  Service.GetPostByID id w = Repo.GetByID id w.
Proof.
  unfold Service.GetPostByID. rewrite run_bind, GetByID_eq.
  destruct (posts (repo w) !! id) as [l|]; [|done]. by destruct (mem w !! l).
Qed.

Lemma Service_DeletePost_eq id w : Service.DeletePost id w = Repo.Delete id w.
Proof.
  unfold Service.DeletePost. rewrite run_bind, Delete_eq.
  by destruct (posts (repo w) !! id).
Qed.

Lemma Service_GetAllPosts_in_eq entries w :
  Service_GetAllPosts_in entries w = Repo.GetAll_in entries w.
Proof.
  unfold Service_GetAllPosts_in. rewrite run_bind.
  destruct (Repo.GetAll_in entries w) as [[[ps err] w']|] eqn:H; [|done].
  by rewrite (GetAll_in_no_error _ _ _ _ _ H).
Qed.

Lemma Service_GetAllPosts_unfold w :
  Service.GetAllPosts w = Service_GetAllPosts_in (map_to_list (posts (repo w))) w.
Proof. reflexivity. Qed.

(** X9. In every reachable state, the service's [UpdatePost] of a stored
    id with fields that pass validation returns, with a [nil] error, a
    pointer to a post carrying the id and the new fields; the store then
    holds that post under the id, the other entries and the counter are
    unchanged, and the pointer returned is a cell made during the call that
    the map does not hold. *)
Theorem UpdatePost_replaces_fields s id v title content author :
  reachable s ->
  contents (world s) !! id = Some v ->
  validate (mkPost id title content author) = None ->
  exists p w',
    Service.UpdatePost id title content author (world s) =
      Some ((Some p, None), w') /\
    mem w' !! p = Some (mkPost id title content author) /\
    contents w' = <[id := mkPost id title content author]> (contents (world s)) /\
    nextID (repo w') = nextID (repo (world s)) /\
    posts (repo w') !! id <> Some p /\
    mem (world s) !! p = None.
Proof.
  intros Hr Hv Hvalid. apply reachable_wf in Hr as [Hc _ _].
  destruct (contents_Some _ _ _ Hc Hv) as (l & Hl & Hm & Hid).
  rewrite (UpdatePost_eq _ _ _ _ _ _ _ Hl Hm). cbn zeta. rewrite Hid, Hvalid.
  eexists _, _. split; [reflexivity|]. mred.
  split. { rewrite lookup_app_r by lia. by rewrite Nat.sub_diag. }
  split. { apply contents_insert; [done|]. rewrite lookup_app_r by lia.
           by replace (S (S (length (mem (world s)))) - length (mem (world s)))%nat
             with 2%nat by lia. }
  split; [done|].
  split. { rewrite lookup_insert_eq. intros [= H]. lia. }
  by apply lookup_ge_None_2.
Qed.

Lemma UpdatePost_replaces_fields_witness :
  exists p w',
    Service.UpdatePost 1 "Updated Title" "Updated Content" "Updated Author"
      (world (after [DoCreatePost "Original Title" "Original Content"
                                  "Original Author"]))
      = Some ((Some p, None), w') /\
    mem w' !! p =
      Some (mkPost 1 "Updated Title" "Updated Content" "Updated Author") /\
    contents w' !! 1 =
      Some (mkPost 1 "Updated Title" "Updated Content" "Updated Author").
Proof.
  assert (reachable
            (after [DoCreatePost "Original Title" "Original Content"
                                 "Original Author"]))
    as Hr by (apply after_reachable; vm_compute; eauto).
  destruct (UpdatePost_replaces_fields _ 1
              (mkPost 1 "Original Title" "Original Content" "Original Author")
              "Updated Title" "Updated Content" "Updated Author" Hr)
    as (p & w' & Hrun & Hm & Hc & _); [by vm_compute|by vm_compute|].
  exists p, w'. split; [exact Hrun|]. split; [exact Hm|].
  rewrite Hc. apply lookup_insert_eq.
Defined.

(** X10. The service adds nothing to what the repository returns: in
    every world, [CreatePost], [GetPostByID], [GetAllPosts] and [DeletePost]
    of the service return the result of [CreatePost], [GetByID], [GetAll]
    and [Delete] of the repository and leave the same world; and
    [UpdatePost] of an id that is not in the map returns a [nil] post and
    [ErrPostNotFound] and leaves the world as it is, without validating the
    fields. *)
Theorem service_hands_on_repository_results w :
  (forall title content author,
     Service.CreatePost title content author w =
     Repo.CreatePost title content author w)
  /\ (forall id, Service.GetPostByID id w = Repo.GetByID id w)
  /\ Service.GetAllPosts w = Repo.GetAll w
  /\ (forall id, Service.DeletePost id w = Repo.Delete id w)
  /\ (forall id title content author,
        posts (repo w) !! id = None ->
        Service.UpdatePost id title content author w =
        Some ((nil, Some ErrPostNotFound), w)).
Proof.
  split; [|split; [|split; [|split]]].
  - intros t c a. apply Service_CreatePost_eq.
  - intros id. apply Service_GetPostByID_eq.
  - rewrite Service_GetAllPosts_unfold, GetAll_unfold.
    apply Service_GetAllPosts_in_eq.
  - intros id. apply Service_DeletePost_eq.
  - intros id t c a H. by apply UpdatePost_absent.
Qed.

(** The test of the service: [UpdatePost] of the id 999, with a blank
    title at that, is refused as not found. *)
Lemma service_hands_on_repository_results_witness :
  Service.UpdatePost 999 "" "Content" "Author" (world init)
  = Some ((nil, Some ErrPostNotFound), world init).
Proof.
  destruct (service_hands_on_repository_results (world init))
    as (_ & _ & _ & _ & H).
  apply H. by vm_compute.
Defined.

(** ** The loader *)

Lemma LoadFromFile_range_valid data acc w :
  Forall (fun d => validate (to_Post d) = None) data ->
  loader.LoadFromFile_range data acc w =
  Some ((acc ++ (Some <$> seq (length (mem w)) (length data)), None),
        mkWorld (mem w ++ (to_Post <$> data)) (repo w)).
Proof.
  intros H. revert acc w. induction H as [|d data Hd _ IH]; intros acc w.
  - cbn. by rewrite !app_nil_r, World_eta.
  - cbn [loader.LoadFromFile_range]. rewrite run_bind, NewPost_eq.
    fold (to_Post d). rewrite Hd. rewrite IH. mred.
    rewrite length_app. cbn [length fmap list_fmap seq].
    rewrite Nat.add_1_r, <- !app_assoc. reflexivity.
Qed.

Lemma LoadFromFile_range_invalid good bad rest e acc w :
  Forall (fun d => validate (to_Post d) = None) good ->
  validate (to_Post bad) = Some e ->
  loader.LoadFromFile_range (good ++ bad :: rest) acc w =
  Some ((acc ++ (Some <$> seq (length (mem w)) (length good)), Some e),
        mkWorld (mem w ++ (to_Post <$> good) ++ [to_Post bad]) (repo w)).
Proof.
  intros H Hbad. revert acc w. induction H as [|d data Hd _ IH]; intros acc w.
  - cbn [app loader.LoadFromFile_range]. rewrite run_bind, NewPost_eq.
    fold (to_Post bad). rewrite Hbad. cbn. by rewrite app_nil_r.
  - cbn [app loader.LoadFromFile_range]. rewrite run_bind, NewPost_eq.
    fold (to_Post d). rewrite Hd. rewrite IH. mred.
    rewrite length_app. cbn [length fmap list_fmap seq].
    rewrite Nat.add_1_r, <- !app_assoc. reflexivity.
Qed.

(** The records of a file, split at the first one that fails
    validation. *)
Lemma first_invalid (data : list loader.PostData.t) :
  Forall (fun d => validate (to_Post d) = None) data \/
  exists good bad rest e,
    data = good ++ bad :: rest /\
    Forall (fun d => validate (to_Post d) = None) good /\
    validate (to_Post bad) = Some e.
Proof.
  induction data as [|d data IH]; [by left|].
  destruct (validate (to_Post d)) as [e|] eqn:Hd.
  - right. exists [], d, data, e. by split.
  - destruct IH as [IH|(good & bad & rest & e & -> & Hgood & Hbad)].
    + left. by constructor.
    + right. exists (d :: good), bad, rest, e. split; [done|].
      split; [by constructor|done].
Qed.

Lemma first_invalid_unique (good good' : list loader.PostData.t) bad bad' rest rest' e e' :
  good ++ bad :: rest = good' ++ bad' :: rest' ->
  Forall (fun d => validate (to_Post d) = None) good ->
  validate (to_Post bad) = Some e ->
  Forall (fun d => validate (to_Post d) = None) good' ->
  validate (to_Post bad') = Some e' ->
  e = e'.
Proof.
  intros Heq Hgood Hbad Hgood' Hbad'.
  enough (good = good' /\ bad = bad') as [-> ->] by congruence.
  revert good' Heq Hgood'. induction Hgood as [|d good Hd _ IH];
    intros good' Heq Hgood'.
  - destruct good' as [|d' good']; [by injection Heq as -> _|].
    injection Heq as -> _. apply Forall_cons in Hgood' as [Hd' _]. congruence.
  - destruct good' as [|d' good'].
    + injection Heq as -> _. congruence.
    + injection Heq as -> Heq. apply Forall_cons in Hgood' as [_ Hgood'].
      destruct (IH _ Heq Hgood') as [-> ->]. done.
Qed.

Lemma new_cells_points_to (m : list Post) r (vs : list Post) :
  Forall2 (points_to (mkWorld (m ++ vs) r))
          (Some <$> seq (length m) (length vs)) vs.
Proof.
  revert m. induction vs as [|v vs IH]; intros m; [constructor|].
  cbn. constructor.
  - exists (length m). split; [done|]. cbn. by apply list_lookup_middle.
  - specialize (IH (m ++ [v])). rewrite <- app_assoc in IH. cbn in IH.
    rewrite length_app in IH. cbn in IH. by rewrite Nat.add_1_r in IH.
Qed.

Lemma LoadFromFile_valid data w :
  Forall (fun d => validate (to_Post d) = None) data ->
  loader.LoadFromFile (loader.BlogData data) w =
  Some (None, loaded (to_Post <$> data)
                     (mkWorld (mem w ++ (to_Post <$> data)) (repo w))).
Proof.
  intros H. unfold loader.LoadFromFile.
  rewrite run_bind, (LoadFromFile_range_valid _ _ _ H). cbn [app].
  rewrite run_bind.
  rewrite (LoadData_eq _ (to_Post <$> data)); [done|].
  rewrite <- (length_fmap to_Post data). apply new_cells_points_to.
Qed.

(** X11. The loader fails fast and loads nothing when it fails.  In every
    reachable state [LoadFromFile] returns; it returns [nil] exactly when
    the file could be read and parsed and every record passes the
    validation of [NewPost]; otherwise it returns the error of reading, of
    parsing, or the validation error of the first record that fails, and
    then the repository is untouched: [LoadData] has not been called, the
    map, the counter and the stored posts are as before, also for the
    records before the one that failed. *)
Theorem LoadFromFile_fails_without_loading s f :
  reachable s ->
  exists r w',
    loader.LoadFromFile f (world s) = Some (r, w') /\
    (r = None <->
     exists data, f = loader.BlogData data /\
                  Forall (fun d => validate (to_Post d) = None) data) /\
    (r <> None ->
     repo w' = repo (world s) /\ store_state w' = store_state (world s)) /\
    (forall err, f = loader.ReadFile_error err \/ f = loader.Unmarshal_error err ->
                 r = Some err) /\
    (forall good bad rest e,
       f = loader.BlogData (good ++ bad :: rest) ->
       Forall (fun d => validate (to_Post d) = None) good ->
       validate (to_Post bad) = Some e ->
       r = Some e).
Proof.
  intros Hr. apply reachable_wf in Hr as [Hc _ _].
  destruct f as [err|err|data].
  - exists (Some err), (world s). split; [done|].
    split; [split; [done|by intros (? & ? & ?)]|]. split; [done|].
    split; [by intros ? [[= ->]|?]|done].
  - exists (Some err), (world s). split; [done|].
    split; [split; [done|by intros (? & ? & ?)]|]. split; [done|].
    split; [by intros ? [?|[= ->]]|done].
  - destruct (first_invalid data) as [Hall|(good & bad & rest & e & -> & Hgood & Hbad)].
    + rewrite (LoadFromFile_valid _ _ Hall). eexists _, _. split; [reflexivity|].
      split; [split; [by eexists|done]|]. split; [done|].
      split; [by intros ? [?|?]|].
      intros good bad rest e [= ->] _ Hbad.
      apply Forall_app in Hall as [_ Hall]. apply Forall_cons in Hall as [Hb _].
      congruence.
    + unfold loader.LoadFromFile.
      rewrite run_bind, (LoadFromFile_range_invalid _ _ _ _ _ _ Hgood Hbad).
      rewrite run_ret. eexists _, _. split; [reflexivity|].
      split.
      { split; [done|]. intros (data & [= Hd] & Hall). rewrite <- Hd in Hall.
        apply Forall_app in Hall as [_ Hall]. apply Forall_cons in Hall as [Hb _].
        congruence. }
      split; [intros _; split; [done|by apply store_state_alloc]|].
      split; [by intros ? [?|?]|].
      intros good' bad' rest' e' [= Heq] Hgood' Hbad'. f_equal.
      by eapply first_invalid_unique.
Qed.

(** A file of three records, the second with a blank title: the error is
    the one of the second record and the repository is still the new
    one. *)
Lemma LoadFromFile_fails_without_loading_witness :
  exists w',
    loader.LoadFromFile
      (loader.BlogData [loader.PostData.mk 1 "Post 1" "Content 1" "Author 1";
                        loader.PostData.mk 2 "  " "Content 2" "Author 2";
                        loader.PostData.mk 3 "Post 3" "Content 3" "Author 3"])
      (world init)
    = Some (Some (errors_New "title is required"), w') /\
    store_state w' = store_state (world init).
Proof.
  destruct (LoadFromFile_fails_without_loading init
              (loader.BlogData
                 [loader.PostData.mk 1 "Post 1" "Content 1" "Author 1";
                  loader.PostData.mk 2 "  " "Content 2" "Author 2";
                  loader.PostData.mk 3 "Post 3" "Content 3" "Author 3"])
              reachable_init)
    as (r & w' & Hrun & _ & Hsame & _ & Hfirst).
  assert (r = Some (errors_New "title is required")) as Hr.
  { apply (Hfirst [loader.PostData.mk 1 "Post 1" "Content 1" "Author 1"]
                  (loader.PostData.mk 2 "  " "Content 2" "Author 2")
                  [loader.PostData.mk 3 "Post 3" "Content 3" "Author 3"]);
      [done|repeat constructor; by vm_compute|by vm_compute]. }
  exists w'. split; [by rewrite Hrun, Hr|]. apply Hsame. by rewrite Hr.
Defined.

Lemma last_filter_to_Post id (data : list loader.PostData.t) :
  last (filter (fun v => ID v = id) (to_Post <$> data)) =
  to_Post <$> last (filter (fun d => loader.PostData.ID d = id) data).
Proof.
  induction data as [|d data IH]; [done|].
  cbn [fmap list_fmap]. rewrite !filter_cons. cbn [to_Post ID].
  destruct (decide (loader.PostData.ID d = id)) as [Hd|Hd]; [|exact IH].
  rewrite !last_cons. fold (to_Post d).
  change (list_fmap _ _ to_Post data) with (to_Post <$> data).
  rewrite IH. by destruct (last (filter _ data)).
Qed.

(** X12. In every reachable state, on a file whose records all pass the
    validation of [NewPost] and carry IDs below the largest [int],
    [LoadFromFile] returns [nil] and every record is stored under its ID
    with its four fields: of several records with one ID the last one is
    kept, without an error, and a post stored before under the ID of a
    record is replaced; the counter ends at the larger of its old value and
    one past the largest ID of the file. *)
Theorem LoadFromFile_stores_every_record s data :
  reachable s ->
  Forall (fun d => validate (to_Post d) = None) data ->
  Forall (fun d => GoInt.in_range (loader.PostData.ID d + 1)) data ->
  exists w',
    loader.LoadFromFile (loader.BlogData data) (world s) = Some (None, w') /\
    (forall id,
       contents w' !! id =
       match last (filter (fun d => loader.PostData.ID d = id) data) with
       | Some d => Some (to_Post d)
       | None => contents (world s) !! id
       end) /\
    nextID (repo w') =
      foldl Z.max (nextID (repo (world s)))
            ((fun d => loader.PostData.ID d + 1) <$> data).
Proof.
  intros Hr Hvalid Hrange. apply reachable_wf in Hr as [Hc _ _].
  rewrite (LoadFromFile_valid _ _ Hvalid). eexists. split; [reflexivity|].
  assert (cells_ok (mkWorld (mem (world s) ++ (to_Post <$> data)) (repo (world s))))
    as Hc1.
  { intros id l H. destruct (Hc _ _ H) as (v & Hv & Hid). exists v.
    split; [|done]. cbn. rewrite lookup_app_l; [done|]. by eapply lookup_lt_Some. }
  split.
  - intros id. rewrite (contents_loaded _ _ _ Hc1), (contents_alloc _ _ Hc).
    rewrite last_filter_to_Post. by destruct (last _).
  - rewrite nextID_loaded.
    + cbn [repo]. by rewrite <- list_fmap_compose.
    + apply Forall_fmap. eapply Forall_impl; [exact Hrange|]. done.
Qed.

(** A file with the IDs 1, 3, 1: the second record with the ID 1 is the
    one kept and the counter ends at 4. *)
Lemma LoadFromFile_stores_every_record_witness :
  exists w',
    loader.LoadFromFile
      (loader.BlogData [loader.PostData.mk 1 "Post 1" "Content 1" "Author 1";
                        loader.PostData.mk 3 "Post 3" "Content 3" "Author 3";
                        loader.PostData.mk 1 "Post 1 again" "Content" "Author"])
      (world init)
    = Some (None, w') /\
    contents w' !! 1 = Some (mkPost 1 "Post 1 again" "Content" "Author") /\
    contents w' !! 3 = Some (mkPost 3 "Post 3" "Content 3" "Author 3") /\
    nextID (repo w') = 4.
Proof.
  destruct (LoadFromFile_stores_every_record init
              [loader.PostData.mk 1 "Post 1" "Content 1" "Author 1";
               loader.PostData.mk 3 "Post 3" "Content 3" "Author 3";
               loader.PostData.mk 1 "Post 1 again" "Content" "Author"]
              reachable_init)
    as (w' & Hrun & Hc & Hn).
  - repeat constructor; by vm_compute.
  - repeat constructor; by vm_compute.
  - exists w'. split; [exact Hrun|]. split; [by rewrite Hc|].
    split; [by rewrite Hc|by rewrite Hn].
Defined.

(** ** The handlers *)

Lemma ToPostResponse_eq l v w :
  mem w !! l = Some v ->
  dto.ToPostResponse (Some l) w = Some (to_response v, w).
Proof. intros H. unfold dto.ToPostResponse. mrun. rewrite H. by mrun. Qed.

Lemma ToPostsResponse_range_eq ps vs w :
  Forall2 (points_to w) ps vs ->
  dto.ToPostsResponse_range ps w = Some (to_response <$> vs, w).
Proof.
  induction 1 as [|p v ps vs (l & -> & Hl) _ IH]; [done|].
  cbn [dto.ToPostsResponse_range]. rewrite run_bind, (ToPostResponse_eq _ _ _ Hl).
  rewrite run_bind, IH. by rewrite run_ret.
Qed.

Lemma ToPostsResponse_eq ps vs w :
  Forall2 (points_to w) ps vs ->
  dto.ToPostsResponse ps w =
  Some (dto.PostsResponse.mk (to_response <$> vs) (Z.of_nat (length vs)), w).
Proof.
  intros H. unfold dto.ToPostsResponse.
  rewrite run_bind, (ToPostsResponse_range_eq _ _ _ H), run_ret.
  by rewrite (Forall2_length _ _ _ H).
Qed.

Lemma with_id_eq idStr next w :
  rest.with_id idStr next w =
  match route_id idStr with
  | inl id => next id w
  | inr r => Some (r, w)
  end.
Proof.
  unfold rest.with_id, route_id. case_bool_decide; [done|].
  by destruct (strconv.Atoi idStr) as [id [e|]].
Qed.

Lemma route_id_Atoi idStr id :
  strconv.Atoi idStr = (id, None) -> route_id idStr = inl id.
Proof.
  intros H. unfold route_id. case_bool_decide as He.
  - subst idStr. by vm_compute in H.
  - by rewrite H.
Qed.

Lemma route_id_refused idStr r :
  route_id idStr = inr r ->
  exists message, r = validation_error message /\
    (idStr = "" \/ exists n e, strconv.Atoi idStr = (n, Some e)).
Proof.
  unfold route_id. case_bool_decide as He.
  - intros [= <-]. eexists. split; [done|]. by left.
  - destruct (strconv.Atoi idStr) as [n [e|]] eqn:Ha; [|done].
    intros [= <-]. eexists. split; [done|]. right. by eexists _, _.
Qed.

Lemma GetPost_eq idStr w :
  cells_ok w ->
  rest.GetPost idStr w =
  Some (match route_id idStr with
        | inr r => (r, w)
        | inl id =>
          match contents w !! id with
          | None => (not_found, w)
          | Some v => (post_response http.StatusOK v,
                       mkWorld (mem w ++ [v]) (repo w))
          end
        end).
Proof.
  intros Hc. unfold rest.GetPost. rewrite with_id_eq.
  destruct (route_id idStr) as [id|r]; [|done].
  rewrite run_bind, Service_GetPostByID_eq, GetByID_eq, contents_lookup.
  destruct (posts (repo w) !! id) as [l|] eqn:Hl; [|done]. cbn.
  destruct (Hc _ _ Hl) as (v & Hv & _). rewrite Hv. mred.
  rewrite run_bind, (ToPostResponse_eq _ v) by apply lookup_new_cell.
  done.
Qed.

Lemma rest_CreatePost_eq req w :
  rest.CreatePost (inr req) w =
  let title := dto.CreatePostRequest.Title req in
  let content := dto.CreatePostRequest.Content req in
  let author := dto.CreatePostRequest.Author req in
  let v := mkPost (nextID (repo w)) title content author in
  match Repo.CreatePost title content author w with
  | Some (_, w') =>
    Some (match validate v with
          | Some e =>
            mkResponse http.StatusBadRequest
              (JSON_ErrorResponse (dto.ErrorResponse.mk "creation_failed" (Error e)))
          | None => post_response http.StatusCreated v
          end, w')
  | None => None
  end.
Proof.
  unfold rest.CreatePost. rewrite run_bind, Service_CreatePost_eq, CreatePost_eq.
  cbn zeta. destruct (validate _) eqn:Hv; [done|]. mred.
  rewrite run_bind. erewrite ToPostResponse_eq; [done|]. mred.
  rewrite lookup_app_r by lia.
  by replace (S (S (length (mem w))) - length (mem w))%nat with 2%nat by lia.
Qed.

Lemma rest_DeletePost_eq idStr w :
  rest.DeletePost idStr w =
  match route_id idStr with
  | inr r => Some (r, w)
  | inl id =>
    match Repo.Delete id w with
    | Some (err, w') =>
      Some (match posts (repo w) !! id with
            | None => not_found
            | Some _ => mkResponse http.StatusNoContent JSON_nil
            end, w')
    | None => None
    end
  end.
Proof.
  unfold rest.DeletePost. rewrite with_id_eq.
  destruct (route_id idStr) as [id|r]; [|done].
  rewrite run_bind, Service_DeletePost_eq, Delete_eq.
  by destruct (posts (repo w) !! id).
Qed.

Lemma validate_errors_New v e : validate v = Some e -> exists msg, e = errors_New msg.
Proof.
  unfold validate. repeat case_bool_decide; try (intros [= <-]; by eexists).
  destruct (255 <? _); [intros [= <-]; by eexists|done].
Qed.

Lemma rest_UpdatePost_eq idStr req w :
  cells_ok w ->
  rest.UpdatePost idStr (inr req) w =
  let title := dto.UpdatePostRequest.Title req in
  let content := dto.UpdatePostRequest.Content req in
  let author := dto.UpdatePostRequest.Author req in
  match route_id idStr with
  | inr r => Some (r, w)
  | inl id =>
    match Service.UpdatePost id title content author w with
    | Some (_, w') =>
      Some (match contents w !! id with
            | None => not_found
            | Some _ =>
              match validate (mkPost id title content author) with
              | Some e =>
                mkResponse http.StatusBadRequest
                  (JSON_ErrorResponse
                     (dto.ErrorResponse.mk "update_failed" (Error e)))
              | None =>
                post_response http.StatusOK (mkPost id title content author)
              end
            end, w')
    | None => None
    end
  end.
Proof.
  intros Hc. unfold rest.UpdatePost. rewrite with_id_eq. cbn zeta.
  destruct (route_id idStr) as [id|r]; [|done].
  rewrite run_bind, contents_lookup.
  destruct (posts (repo w) !! id) as [l|] eqn:Hl.
  - destruct (Hc _ _ Hl) as (v & Hv & Hid). cbn. rewrite Hv.
    rewrite (UpdatePost_eq _ _ _ _ _ _ _ Hl Hv). cbn zeta. rewrite Hid.
    destruct (validate _) as [e|] eqn:Hval.
    + destruct (validate_errors_New _ _ Hval) as [msg ->]. done.
    + mred. rewrite run_bind. erewrite ToPostResponse_eq; [done|]. mred.
      rewrite lookup_app_r by lia. by rewrite Nat.sub_diag.
  - by rewrite (UpdatePost_absent _ _ _ _ _ Hl).
Qed.

Lemma GetAllPosts_in_eq entries w :
  cells_ok w ->
  entries ≡ₚ map_to_list (posts (repo w)) ->
  exists vs w',
    rest.GetAllPosts_in entries w =
      Some (mkResponse http.StatusOK
              (JSON_PostsResponse
                 (dto.PostsResponse.mk (to_response <$> vs) (Z.of_nat (length vs)))),
            w') /\
    with_ID <$> vs ≡ₚ map_to_list (contents w) /\
    StronglySorted (fun a b => ID a < ID b) vs /\
    (exists ps, Repo.GetAll_in entries w = Some ((ps, None), w')) /\
    repo w' = repo w /\
    (forall l, (l < length (mem w))%nat -> mem w' !! l = mem w !! l).
Proof.
  intros Hc Hperm.
  destruct (GetAll_in_sorted _ _ Hc Hperm)
    as (ps & vs & w' & Heq & Hpt & Hvs & Hsorted & _ & _ & Hrepo & Hold).
  exists vs, w'. unfold rest.GetAllPosts_in.
  rewrite run_bind, Service_GetAllPosts_in_eq, Heq. mred.
  rewrite run_bind, (ToPostsResponse_eq _ _ _ Hpt).
  split; [done|]. split; [done|]. split; [done|]. split; [by eexists|]. done.
Qed.

Lemma route_id_cases idStr :
  match strconv.Atoi idStr with
  | (id, None) => route_id idStr = inl id
  | (_, Some _) => exists message, route_id idStr = inr (validation_error message)
  end.
Proof.
  unfold route_id. case_bool_decide as He.
  - subst idStr. vm_compute. by eexists.
  - destruct (strconv.Atoi idStr) as [id [e|]]; [by eexists|done].
Qed.

(** X13. [GetPost] in every reachable state: it answers every request and
    leaves the store as it is.  When [Atoi] refuses the id of the route
    (the empty id included) the answer is 400 with the error
    "validation_error" and nothing is allocated; when the id parses and no
    post is stored under the number, the answer is 404 "not_found"; when a
    post is stored under it, the answer is 200 with the fields of the stored
    post, whose ID is the number asked for.  The answer 500 of the handler
    is never given. *)
Theorem GetPost_answers s idStr :
  reachable s ->
  exists resp w',
    rest.GetPost idStr (world s) = Some (resp, w') /\
    store_state w' = store_state (world s) /\
    match strconv.Atoi idStr with
    | (id, None) =>
      match contents (world s) !! id with
      | Some v => resp = post_response http.StatusOK v /\ ID v = id
      | None => resp = not_found /\ w' = world s
      end
    | (_, Some _) =>
      (exists message, resp = validation_error message) /\ w' = world s
    end.
Proof.
  intros Hr. apply reachable_wf in Hr as [Hc _ _].
  rewrite (GetPost_eq _ _ Hc).
  pose proof (route_id_cases idStr) as Hid.
  destruct (strconv.Atoi idStr) as [id [e|]].
  - destruct Hid as [message ->]. eexists _, _. split; [reflexivity|].
    split; [done|]. split; [by eexists|done].
  - rewrite Hid. destruct (contents (world s) !! id) as [v|] eqn:Hv.
    + eexists _, _. split; [reflexivity|].
      split; [by apply store_state_alloc|]. split; [done|].
      by eapply contents_ID.
    + by eexists _, _.
Qed.

Lemma GetPost_answers_witness :
  exists w',
    rest.GetPost "1"
      (world (after [DoCreatePost "Test Title" "Test Content" "Test Author"]))
    = Some (post_response http.StatusOK
              (mkPost 1 "Test Title" "Test Content" "Test Author"), w').
Proof.
  assert (reachable
            (after [DoCreatePost "Test Title" "Test Content" "Test Author"]))
    as Hr by (apply after_reachable; vm_compute; eauto).
  destruct (GetPost_answers _ "1" Hr) as (resp & w' & Hrun & _ & H).
  assert (strconv.Atoi "1" = (1, None)) as Ha by (by vm_compute).
  assert (contents (world (after [DoCreatePost "Test Title" "Test Content"
                                               "Test Author"])) !! 1 =
          Some (mkPost 1 "Test Title" "Test Content" "Test Author")) as Hc
    by (by vm_compute).
  rewrite Ha, Hc in H. destruct H as [Hresp _].
  exists w'. by rewrite Hrun, Hresp.
Defined.


(** X14. [CreatePost] of the handlers in every reachable state.  A body
    that does not bind is answered 400 "validation_error" with the message
    of the binding error, and nothing changes.  A bound body is passed to
    the service: fields that fail validation are answered 400
    "creation_failed" with the message of the first rule violated, and the
    stored posts are unchanged; fields that pass are answered 201 with the
    post created, whose ID is the value of the counter, and that post is
    stored under that ID.  In both cases of a bound body the counter has
    advanced by one. *)
Theorem rest_CreatePost_answers s bind :
  reachable s ->
  exists resp w',
    rest.CreatePost bind (world s) = Some (resp, w') /\
    match bind with
    | inl err =>
      resp = validation_error (Error err) /\ w' = world s
    | inr req =>
      let v := mkPost (nextID (repo (world s)))
                      (dto.CreatePostRequest.Title req)
                      (dto.CreatePostRequest.Content req)
                      (dto.CreatePostRequest.Author req) in
      nextID (repo w') = GoInt.incr (nextID (repo (world s))) /\
      match validate v with
      | Some e =>
        resp = mkResponse http.StatusBadRequest
                 (JSON_ErrorResponse
                    (dto.ErrorResponse.mk "creation_failed" (Error e))) /\
        contents w' = contents (world s)
      | None =>
        resp = post_response http.StatusCreated v /\
        contents w' = <[ID v := v]> (contents (world s))
      end
    end.
Proof.
  intros Hr. apply reachable_wf in Hr as [Hc _ _].
  destruct bind as [err|req].
  - by eexists _, _.
  - rewrite rest_CreatePost_eq. cbn zeta. rewrite CreatePost_eq. cbn zeta.
    destruct (validate _) eqn:Hv; (eexists _, _; split; [reflexivity|]); mred.
    + split; [done|]. split; [done|].
      rewrite (contents_counter _ _ _ (nextID (repo (world s)))), Repo_eta.
      by apply contents_alloc.
    + split; [done|]. split; [done|]. apply contents_insert; [done|].
      rewrite lookup_app_r by lia.
      by replace (S (length (mem (world s))) - length (mem (world s)))%nat
        with 1%nat by lia.
Qed.

Lemma rest_CreatePost_answers_witness :
  exists w',
    rest.CreatePost
      (inr (dto.CreatePostRequest.mk "Test Title" "Test Content" "Test Author"))
      (world init)
    = Some (post_response http.StatusCreated
              (mkPost 1 "Test Title" "Test Content" "Test Author"), w') /\
    nextID (repo w') = 2.
Proof.
  destruct (rest_CreatePost_answers init
              (inr (dto.CreatePostRequest.mk "Test Title" "Test Content"
                                             "Test Author"))
              reachable_init)
    as (resp & w' & Hrun & Hn & H).
  assert (validate (mkPost 1 "Test Title" "Test Content" "Test Author") = None)
    as Hv by (by vm_compute).
  cbn in H. rewrite Hv in H. destruct H as [Hresp _].
  exists w'. split; [by rewrite Hrun, Hresp|]. by rewrite Hn.
Defined.





(** X16. [DeletePost] of the handlers in every reachable state; the
    counter and the cells are never changed.  When [Atoi] refuses the id of
    the route the answer is 400 "validation_error"; when no post is stored
    under the number the answer is 404 "not_found" and nothing changes;
    otherwise the answer is 204 with no body and the entry is removed, the
    others staying.  The answer 500 of the handler is never given. *)
Theorem rest_DeletePost_answers s idStr :
  reachable s ->
  exists resp w',
    rest.DeletePost idStr (world s) = Some (resp, w') /\
    nextID (repo w') = nextID (repo (world s)) /\
    mem w' = mem (world s) /\
    match strconv.Atoi idStr with
    | (id, None) =>
      match contents (world s) !! id with
      | Some _ =>
        resp = mkResponse http.StatusNoContent JSON_nil /\
        contents w' = delete id (contents (world s))
      | None => resp = not_found /\ w' = world s
      end
    | (_, Some _) =>
      (exists message, resp = validation_error message) /\ w' = world s
    end.
Proof.
  intros Hr. apply reachable_wf in Hr as [Hc _ _].
  pose proof (route_id_cases idStr) as Hid.
  rewrite rest_DeletePost_eq.
  destruct (strconv.Atoi idStr) as [id [e|]].
  - destruct Hid as [message ->]. eexists _, _. split; [reflexivity|].
    split; [done|]. split; [done|]. split; [by eexists|done].
  - rewrite Hid, Delete_eq.
    destruct (contents (world s) !! id) as [v|] eqn:Hv.
    + destruct (contents_Some _ _ _ Hc Hv) as (l & Hl & _). rewrite Hl.
      eexists _, _. split; [reflexivity|]. split; [done|]. split; [done|].
      split; [done|]. apply contents_delete.
    + apply (contents_None _ _ Hc) in Hv. rewrite Hv. by eexists _, _.
Qed.

Lemma rest_DeletePost_answers_witness :
  exists w',
    rest.DeletePost "1"
      (world (after [DoCreatePost "Test Title" "Test Content" "Test Author"]))
    = Some (mkResponse http.StatusNoContent JSON_nil, w') /\
    contents w' !! 1 = None.
Proof.
  assert (reachable
            (after [DoCreatePost "Test Title" "Test Content" "Test Author"]))
    as Hr by (apply after_reachable; vm_compute; eauto).
  destruct (rest_DeletePost_answers _ "1" Hr) as (resp & w' & Hrun & _ & _ & H).
  assert (strconv.Atoi "1" = (1, None)) as Ha by (by vm_compute).
  assert (contents (world (after [DoCreatePost "Test Title" "Test Content"
                                               "Test Author"])) !! 1 =
          Some (mkPost 1 "Test Title" "Test Content" "Test Author")) as Hc
    by (by vm_compute).
  rewrite Ha, Hc in H. destruct H as [Hresp Hcont].
  exists w'. split; [by rewrite Hrun, Hresp|].
  rewrite Hcont. apply lookup_delete_eq.
Defined.


Lemma sorted_by_ID_unique (vs1 vs2 : list Post) :
  StronglySorted (fun a b => ID a < ID b) vs1 ->
  StronglySorted (fun a b => ID a < ID b) vs2 ->
  vs1 ≡ₚ vs2 -> vs1 = vs2.
Proof.
  intros H1. revert vs2. induction H1 as [|x l1 Hs1 IH Hx]; intros vs2 H2 Hp.
  - by apply Permutation_nil_l in Hp.
  - destruct H2 as [|y l2 Hs2 Hy].
    + by apply Permutation_nil_r in Hp.
    + assert (x = y) as ->.
      { assert (x ∈ y :: l2) as Hin1 by (rewrite <- Hp; by left).
        assert (y ∈ x :: l1) as Hin2 by (rewrite Hp; by left).
        apply elem_of_cons in Hin1 as [?|Hin1]; [done|].
        apply elem_of_cons in Hin2 as [?|Hin2]; [done|].
        rewrite Forall_forall in Hx, Hy.
        specialize (Hx _ Hin2). specialize (Hy _ Hin1). lia. }
      f_equal. apply IH; [done|]. by apply (inj (cons y)).
Qed.

(** X17. [GetAllPosts] of the handlers in every reachable state and for
    every order in which the repository may visit its map: the answer is
    200 with one response struct for every stored post and no other, in
    strictly ascending order of ID, and [Total] is the number of stored
    posts; the store is as before.  The answer does not depend on the order
    in which the map is visited, and the answer 500 of the handler is never
    given. *)
Theorem GetAllPosts_answers s entries :
  reachable s ->
  entries ≡ₚ map_to_list (posts (repo (world s))) ->
  exists vs w',
    rest.GetAllPosts_in entries (world s) =
      Some (mkResponse http.StatusOK
              (JSON_PostsResponse
                 (dto.PostsResponse.mk (to_response <$> vs)
                                       (Z.of_nat (size (contents (world s)))))),
            w') /\
    length vs = size (contents (world s)) /\
    StronglySorted (fun a b => ID a < ID b) vs /\
    (forall v, v ∈ vs <-> contents (world s) !! ID v = Some v) /\
    store_state w' = store_state (world s) /\
    (forall entries' resp w'',
       entries' ≡ₚ map_to_list (posts (repo (world s))) ->
       rest.GetAllPosts_in entries' (world s) = Some (resp, w'') ->
       resp = mkResponse http.StatusOK
                (JSON_PostsResponse
                   (dto.PostsResponse.mk (to_response <$> vs)
                                         (Z.of_nat (size (contents (world s))))))).
Proof.
  intros Hr Hperm. apply reachable_wf in Hr as [Hc _ _].
  destruct (GetAllPosts_in_eq _ _ Hc Hperm)
    as (vs & w' & Heq & Hvs & Hsorted & _ & Hrepo & Hold).
  assert (length vs = size (contents (world s))) as Hlen.
  { rewrite <- (length_fmap with_ID), Hvs. by rewrite length_map_to_list. }
  exists vs, w'. rewrite <- Hlen. split; [exact Heq|]. split; [done|].
  split; [done|]. split; [|split].
  - intros v. rewrite <- elem_of_map_to_list, <- Hvs. split.
    + intros Hin. apply list_elem_of_fmap. by exists v.
    + intros (v' & [= Hid Heqv] & Hin)%list_elem_of_fmap. by subst.
  - unfold store_state. rewrite Hrepo. f_equal.
    apply map_eq. intros id. rewrite !contents_lookup, Hrepo.
    destruct (posts (repo (world s)) !! id) as [l|] eqn:Hid; [|done]. cbn.
    destruct (Hc _ _ Hid) as (v & Hv & _). apply Hold. by eapply lookup_lt_Some.
  - intros entries' resp w'' Hperm' Hrun.
    destruct (GetAllPosts_in_eq _ _ Hc Hperm')
      as (vs' & w2 & Heq' & Hvs' & Hsorted' & _).
    rewrite Heq' in Hrun. injection Hrun as <- _.
    assert (vs' = vs) as ->; [|done].
    apply sorted_by_ID_unique; [done|done|].
    assert (with_ID <$> vs' ≡ₚ with_ID <$> vs) as Hp by (by rewrite Hvs, Hvs').
    apply (fmap_Permutation snd) in Hp.
    rewrite <- !list_fmap_compose in Hp.
    by rewrite !list_fmap_id in Hp.
Qed.

(** Posts stored with the IDs 3, 1, 2: the answer lists three posts and
    [Total] is 3. *)
Lemma GetAllPosts_answers_witness :
  exists vs w',
    rest.GetAllPosts
      (world (after [CallerNew (mkPost 3 "Title 3" "Content 3" "Author 3");
                     CallerNew (mkPost 1 "Title 1" "Content 1" "Author 1");
                     CallerNew (mkPost 2 "Title 2" "Content 2" "Author 2");
                     DoCreate (Some 0%nat); DoCreate (Some 1%nat);
                     DoCreate (Some 2%nat)]))
    = Some (mkResponse http.StatusOK
              (JSON_PostsResponse
                 (dto.PostsResponse.mk (to_response <$> vs) 3)), w') /\
    length vs = 3%nat /\
    StronglySorted (fun a b => ID a < ID b) vs.
Proof.
  assert (reachable
            (after [CallerNew (mkPost 3 "Title 3" "Content 3" "Author 3");
                    CallerNew (mkPost 1 "Title 1" "Content 1" "Author 1");
                    CallerNew (mkPost 2 "Title 2" "Content 2" "Author 2");
                    DoCreate (Some 0%nat); DoCreate (Some 1%nat);
                    DoCreate (Some 2%nat)]))
    as Hr by (apply after_reachable; vm_compute; eauto).
  destruct (GetAllPosts_answers _ _ Hr (Permutation_refl _))
    as (vs & w' & Hrun & Hlen & Hsorted & _).
  exists vs, w'. split; [exact Hrun|]. split; [|exact Hsorted].
  rewrite Hlen. by vm_compute.
Defined.


(** ** The server: every request is a run of calls of the store *)

Ltac expected := unfold expected_codes, http.StatusOK, http.StatusCreated,
  http.StatusNoContent, http.StatusBadRequest, http.StatusNotFound;
  cbn [code validation_error not_found post_response];
  unfold http.StatusOK, http.StatusCreated,
  http.StatusNoContent, http.StatusBadRequest, http.StatusNotFound;
  set_solver.

Lemma route_run r w h resp w' :
  wf (mkSys w h) -> route r w = Some (resp, w') ->
  exists h', run (calls_of r) (mkSys w h) = Some (mkSys w' h') /\
             code resp ∈ expected_codes.
Proof.
  intros Hwf Hroute. pose proof (wf_cells _ Hwf) as Hc. cbn [world] in Hc.
  destruct r as [[err|req]|order|idStr|idStr [err|req]|idStr];
    cbn [route calls_of run run_call world held] in *.
  - injection Hroute as <- <-. exists h. split; [done|expected].
  - rewrite rest_CreatePost_eq in Hroute. cbn zeta in Hroute.
    destruct (Repo.CreatePost _ _ _ w) as [[r w1]|]; [|done].
    injection Hroute as <- <-. cbn. eexists. split; [done|].
    destruct (validate _); expected.
  - destruct (decide (order ≡ₚ map_to_list (posts (repo w)))) as [Hord|]; [|done].
    destruct (GetAllPosts_in_eq _ _ Hc Hord) as (vs & w1 & Heq & _ & _ & [ps Hall] & _).
    rewrite Heq in Hroute. injection Hroute as <- <-. rewrite Hall. cbn.
    eexists. split; [done|expected].
  - rewrite (GetPost_eq _ _ Hc) in Hroute. injection Hroute as Hroute.
    destruct (route_id idStr) as [id|r] eqn:Hid.
    + cbn [run run_call world held]. rewrite GetByID_eq.
      rewrite contents_lookup in Hroute.
      destruct (posts (repo w) !! id) as [l|] eqn:Hl; cbn in Hroute.
      * destruct (Hc _ _ Hl) as (v & Hv & _). rewrite Hv in *.
        injection Hroute as <- <-. cbn. eexists. split; [done|expected].
      * injection Hroute as <- <-. cbn. eexists. split; [done|expected].
    + injection Hroute as <- <-. exists h. split; [done|].
      destruct (route_id_refused _ _ Hid) as (message & -> & _). expected.
  - unfold rest.UpdatePost in Hroute. rewrite with_id_eq in Hroute.
    destruct (route_id idStr) as [id|r] eqn:Hid.
    + injection Hroute as <- <-. exists h. split; [done|expected].
    + injection Hroute as <- <-. exists h. split; [done|].
      destruct (route_id_refused _ _ Hid) as (message & -> & _). expected.
  - rewrite (rest_UpdatePost_eq _ _ _ Hc) in Hroute. cbn zeta in Hroute.
    destruct (route_id idStr) as [id|r] eqn:Hid.
    + cbn [run run_call world held].
      destruct (Service.UpdatePost _ _ _ _ w) as [[r w1]|]; [|done].
      injection Hroute as <- <-. cbn. eexists. split; [done|].
      destruct (contents w !! id); [|expected].
      destruct (validate _); expected.
    + injection Hroute as <- <-. exists h. split; [done|].
      destruct (route_id_refused _ _ Hid) as (message & -> & _). expected.
  - rewrite rest_DeletePost_eq in Hroute.
    destruct (route_id idStr) as [id|r] eqn:Hid.
    + cbn [run run_call world held].
      destruct (Repo.Delete id w) as [[r w1]|]; [|done].
      injection Hroute as <- <-. cbn. eexists. split; [done|].
      destruct (posts (repo w) !! id); expected.
    + injection Hroute as <- <-. exists h. split; [done|].
      destruct (route_id_refused _ _ Hid) as (message & -> & _). expected.
Qed.

Lemma route_total r w :
  cells_ok w ->
  (forall order, r = GET_posts order ->
                 order ≡ₚ map_to_list (posts (repo w))) ->
  is_Some (route r w).
Proof.
  intros Hc Hord.
  destruct r as [[err|req]|order|idStr|idStr [err|req]|idStr]; cbn [route].
  - by eexists.
  - rewrite rest_CreatePost_eq. cbn zeta. rewrite CreatePost_eq. cbn zeta.
    destruct (validate _); by eexists.
  - specialize (Hord _ eq_refl). rewrite decide_True by done.
    destruct (GetAllPosts_in_eq _ _ Hc Hord) as (vs & w1 & -> & _). by eexists.
  - rewrite (GetPost_eq _ _ Hc). by eexists.
  - unfold rest.UpdatePost. rewrite with_id_eq.
    destruct (route_id idStr); by eexists.
  - rewrite (rest_UpdatePost_eq _ _ _ Hc). cbn zeta.
    destruct (route_id idStr) as [id|r]; [|by eexists].
    destruct (posts (repo w) !! id) as [l|] eqn:Hl.
    + destruct (Hc _ _ Hl) as (v & Hv & _).
      rewrite (UpdatePost_eq _ _ _ _ _ _ _ Hl Hv). cbn zeta.
      destruct (validate (mkPost (ID v) _ _ _)); by eexists.
    + rewrite (UpdatePost_absent _ _ _ _ _ Hl). by eexists.
  - rewrite rest_DeletePost_eq.
    destruct (route_id idStr) as [id|r]; [|by eexists].
    rewrite Delete_eq. destruct (posts (repo w) !! id); by eexists.
Qed.

Lemma serve_run rs w h resps w' :
  wf (mkSys w h) -> serve rs w = Some (resps, w') ->
  exists h', run (concat (calls_of <$> rs)) (mkSys w h) = Some (mkSys w' h') /\
             Forall (fun r => code r ∈ expected_codes) resps /\
             length resps = length rs.
Proof.
  revert w h resps. induction rs as [|r rs IH]; intros w h resps Hwf Hserve.
  - injection Hserve as <- <-. exists h. by split.
  - cbn [serve] in Hserve. rewrite run_bind in Hserve.
    destruct (route r w) as [[resp w1]|] eqn:Hroute; [|done].
    rewrite run_bind in Hserve.
    destruct (serve rs w1) as [[resps1 w2]|] eqn:Hrest; [|done].
    injection Hserve as <- <-.
    destruct (route_run _ _ _ _ _ Hwf Hroute) as (h1 & Hrun1 & Hcode).
    destruct (IH w1 h1 resps1 (wf_run _ _ _ Hwf Hrun1) Hrest)
      as (h2 & Hrun2 & Hcodes & Hlen).
    exists h2. cbn [fmap list_fmap concat]. rewrite run_app, Hrun1.
    split; [done|]. split; [by constructor|]. cbn. by rewrite Hlen.
Qed.

Lemma validated_calls_of rs s :
  validated_run (concat (calls_of <$> rs)) s = true.
Proof.
  assert (forall cs, Forall (fun c => forall s, validated c s = true) cs ->
                     forall s, validated_run cs s = true) as Hgen.
  { induction 1 as [|c cs Hc _ IH]; intros s'; [done|].
    cbn. rewrite Hc. cbn. destruct (run_call c s'); [apply IH|done]. }
  apply Hgen. clear. induction rs as [|r rs IH]; [constructor|].
  cbn [fmap list_fmap concat]. apply Forall_app. split; [|exact IH].
  destruct r as [[err|req]|order|idStr|idStr [err|req]|idStr]; cbn [calls_of];
    try destruct (route_id idStr); repeat constructor.
Qed.

Lemma LoadFromFile_keeps_invariants f w h r w0 :
  wf (mkSys w h) -> all_valid w ->
  loader.LoadFromFile f w = Some (r, w0) ->
  wf (mkSys w0 h) /\ all_valid w0.
Proof.
  intros Hwf Ha Hload. pose proof (wf_cells _ Hwf) as Hc. cbn [world] in Hc.
  assert (forall ext, wf (mkSys (mkWorld (mem w ++ ext) (repo w)) h)) as Hext.
  { intros ext. rewrite <- (Repo_eta (repo w)).
    apply (wf_alloc (mkSys w h) ext); [done|by left|by left]. }
  destruct f as [err|err|data].
  - by injection Hload as <- <-.
  - by injection Hload as <- <-.
  - destruct (first_invalid data) as [Hall|(good & bad & rest & e & -> & Hgood & Hbad)].
    + rewrite (LoadFromFile_valid _ _ Hall) in Hload. injection Hload as <- <-.
      split; [by apply wf_loaded|].
      intros id v. rewrite contents_loaded by apply (wf_cells _ (Hext _)).
      destruct (last _) as [x|] eqn:Hlast.
      * intros [= ->]. apply last_Some_elem_of in Hlast.
        apply list_elem_of_filter in Hlast as [_ Hin].
        apply list_elem_of_fmap in Hin as (d & -> & Hin).
        rewrite Forall_forall in Hall. by apply Hall.
      * rewrite (contents_alloc _ _ Hc). apply Ha.
    + unfold loader.LoadFromFile in Hload.
      rewrite run_bind, (LoadFromFile_range_invalid _ _ _ _ _ _ Hgood Hbad) in Hload.
      injection Hload as <- <-. split; [apply Hext|].
      intros id v. rewrite (contents_alloc _ _ Hc). apply Ha.
Qed.

Lemma LoadFromFile_total f w : is_Some (loader.LoadFromFile f w).
Proof.
  destruct f as [err|err|data]; [by eexists|by eexists|].
  destruct (first_invalid data) as [Hall|(good & bad & rest & e & -> & Hgood & Hbad)].
  - rewrite (LoadFromFile_valid _ _ Hall). by eexists.
  - unfold loader.LoadFromFile.
    rewrite run_bind, (LoadFromFile_range_invalid _ _ _ _ _ _ Hgood Hbad).
    by eexists.
Qed.

Lemma serve_total rs w h :
  wf (mkSys w h) -> orders_fit rs w = true -> is_Some (serve rs w).
Proof.
  revert w h. induction rs as [|r rs IH]; intros w h Hwf Hfit; [by eexists|].
  cbn [orders_fit] in Hfit. apply andb_prop in Hfit as [Hr Hrest].
  destruct (route_total r w (wf_cells _ Hwf)) as [[resp w1] Hroute].
  { intros order ->. by apply bool_decide_eq_true_1 in Hr. }
  rewrite Hroute in Hrest.
  destruct (route_run _ _ _ _ _ Hwf Hroute) as (h1 & Hrun & _).
  destruct (IH w1 h1 (wf_run _ _ _ Hwf Hrun) Hrest) as [[resps w2] Hserve].
  cbn [serve]. rewrite run_bind, Hroute, run_bind, Hserve. by eexists.
Qed.

(** X18. The program as [main] sets it up: a new repository, the data
    file loaded into it (or not, when [LoadFromFile] fails), then requests
    on the routes of the posts answered one after the other, every request
    for all posts with an order in which the map can be visited
    ([main_orders_fit]).  Whatever the file and the requests, the run goes
    through: no handler panics, every request is answered, and with one of
    the codes 200, 201, 204, 400 and 404 (never with the 500 of the
    handlers); every post stored at the end passes [Validate] and carries
    the ID it is stored under. *)
Theorem main_keeps_the_store_valid f rs :
  main_orders_fit f rs = true ->
  exists resps w',
    main f rs (world init) = Some (resps, w') /\
    length resps = length rs /\
    Forall (fun r => code r ∈ expected_codes) resps /\
    (forall id v, contents w' !! id = Some v -> validate v = None /\ ID v = id).
Proof.
  unfold main_orders_fit, main. rewrite run_bind.
  destruct (LoadFromFile_total f (world init)) as [[e w0] Hload].
  rewrite Hload. intros Hfit.
  assert (all_valid (world init)) as Ha0.
  { intros id v. unfold contents. cbn. by rewrite lookup_omap, lookup_empty. }
  destruct (LoadFromFile_keeps_invariants _ _ _ _ _ wf_init Ha0 Hload)
    as [Hwf0 Ha].
  destruct (serve_total _ _ _ Hwf0 Hfit) as [[resps w'] Hserve].
  destruct (serve_run _ _ _ _ _ Hwf0 Hserve) as (h' & Hrun & Hcodes & Hlen).
  pose proof (wf_run _ _ _ Hwf0 Hrun) as Hwf.
  pose proof (valid_steps _ _ _ Hwf0 Ha (validated_calls_of _ _) Hrun) as Hvalid.
  exists resps, w'. split; [done|]. split; [done|]. split; [done|].
  intros id v Hv. split; [by eapply Hvalid|].
  by apply (contents_ID _ _ _ (wf_cells _ Hwf)).
Qed.

(** A file with one post; a post is created and read, the loaded one is
    deleted, all posts are listed, an update with a blank title and a read
    with an id that is no number are refused. *)
Lemma main_keeps_the_store_valid_witness :
  exists resps w',
    main (loader.BlogData [loader.PostData.mk 1 "Post 1" "Content 1" "Author 1"])
         [POST_posts (inr (dto.CreatePostRequest.mk "Test Title" "Test Content"
                                                    "Test Author"));
          GET_posts_id "2";
          DELETE_posts_id "1";
          GET_posts [(2, 3%nat)];
          PUT_posts_id "2" (inr (dto.UpdatePostRequest.mk " " "Content" "Author"));
          GET_posts_id "abc"]
         (world init) = Some (resps, w') /\
    code <$> resps = [201; 200; 204; 200; 400; 400] /\
    Forall (fun r => code r ∈ expected_codes) resps /\
    contents w' !! 2 = Some (mkPost 2 "Test Title" "Test Content" "Test Author").
Proof.
  destruct (main_keeps_the_store_valid
              (loader.BlogData
                 [loader.PostData.mk 1 "Post 1" "Content 1" "Author 1"])
              [POST_posts (inr (dto.CreatePostRequest.mk "Test Title" "Test Content"
                                                         "Test Author"));
               GET_posts_id "2";
               DELETE_posts_id "1";
               GET_posts [(2, 3%nat)];
               PUT_posts_id "2" (inr (dto.UpdatePostRequest.mk " " "Content"
                                                               "Author"));
               GET_posts_id "abc"])
    as (resps & w' & Hrun & _ & Hcodes & _); [by vm_compute|].
  exists resps, w'. split; [exact Hrun|].
  vm_compute in Hrun. injection Hrun as <- <-.
  split; [by vm_compute|]. split; [exact Hcodes|by vm_compute].
Defined.

(** ** A read after a write, through the handlers *)

Lemma cells_ok_insert w ext id l v n :
  cells_ok w -> (mem w ++ ext) !! l = Some v -> ID v = id ->
  cells_ok (mkWorld (mem w ++ ext) (mkRepo (<[id := l]> (posts (repo w))) n)).
Proof.
  intros Hc Hl Hid id' l'. mred. destruct (decide (id = id')) as [<-|Hne].
  - rewrite lookup_insert_eq. intros [= <-]. by exists v.
  - rewrite lookup_insert_ne by done. intros H.
    destruct (Hc _ _ H) as (x & Hx & Hidx). exists x. split; [|done].
    rewrite lookup_app_l; [done|]. by eapply lookup_lt_Some.
Qed.

Lemma cells_ok_delete w id n :
  cells_ok w -> cells_ok (mkWorld (mem w) (mkRepo (delete id (posts (repo w))) n)).
Proof.
  intros Hc id' l'. mred. intros [_ H]%lookup_delete_Some. by apply Hc.
Qed.

(** X19. A post created through the handler is the post read through the
    handler.  In every reachable state, [CreatePost] of the handlers on a
    body whose fields pass validation answers 201 with a post, and
    [GetPost] on a route id that [Atoi] parses to the ID of that post then
    answers 200 with the same post, leaving the store as it is. *)
Theorem POST_then_GET s title content author idStr :
  reachable s ->
  validate (mkPost (nextID (repo (world s))) title content author) = None ->
  strconv.Atoi idStr = (nextID (repo (world s)), None) ->
  let v := mkPost (nextID (repo (world s))) title content author in
  exists w1 w2,
    rest.CreatePost (inr (dto.CreatePostRequest.mk title content author)) (world s)
      = Some (post_response http.StatusCreated v, w1) /\
    rest.GetPost idStr w1 = Some (post_response http.StatusOK v, w2) /\
    store_state w2 = store_state w1.
Proof.
  intros Hr Hvalid Hid v. apply reachable_wf in Hr as [Hc _ _].
  rewrite rest_CreatePost_eq. cbn zeta.
  cbn [dto.CreatePostRequest.Title dto.CreatePostRequest.Content
       dto.CreatePostRequest.Author].
  rewrite CreatePost_eq. cbn zeta. rewrite Hvalid. fold v.
  assert ((mem (world s) ++ [v; v; v]) !! S (length (mem (world s))) = Some v)
    as Hnew.
  { rewrite lookup_app_r by lia.
    by replace (S (length (mem (world s))) - length (mem (world s)))%nat
      with 1%nat by lia. }
  pose proof (cells_ok_insert _ _ _ _ _ (GoInt.incr (nextID (repo (world s))))
                Hc Hnew eq_refl) as Hc1.
  eexists _, _. split; [reflexivity|].
  rewrite (GetPost_eq _ _ Hc1), (route_id_Atoi _ _ Hid).
  rewrite (contents_insert _ _ _ _ _ _ Hc Hnew). cbn [ID v].
  rewrite lookup_insert_eq. split; [reflexivity|].
  exact (store_state_alloc _ [v] Hc1).
Qed.

Lemma POST_then_GET_witness :
  exists w1 w2,
    rest.CreatePost
      (inr (dto.CreatePostRequest.mk "Test Title" "Test Content" "Test Author"))
      (world init)
    = Some (post_response http.StatusCreated
              (mkPost 1 "Test Title" "Test Content" "Test Author"), w1) /\
    rest.GetPost "1" w1
    = Some (post_response http.StatusOK
              (mkPost 1 "Test Title" "Test Content" "Test Author"), w2).
Proof.
  destruct (POST_then_GET init "Test Title" "Test Content" "Test Author" "1"
              reachable_init)
    as (w1 & w2 & Hpost & Hget & _); [by vm_compute|by vm_compute|].
  exists w1, w2. split; [exact Hpost|exact Hget].
Defined.


(** X20. A post updated through the handler is the post read through the
    handler.  In every reachable state, [UpdatePost] of the handlers on the
    route id of a stored post and a body whose fields pass validation
    answers 200 with the id and the new fields, and [GetPost] on the same
    route id then answers 200 with the same post, leaving the store as it
    is. *)
Theorem PUT_then_GET s id idStr title content author :
  reachable s ->
  strconv.Atoi idStr = (id, None) ->
  is_Some (contents (world s) !! id) ->
  validate (mkPost id title content author) = None ->
  let v := mkPost id title content author in
  exists w1 w2,
    rest.UpdatePost idStr (inr (dto.UpdatePostRequest.mk title content author))
                    (world s)
      = Some (post_response http.StatusOK v, w1) /\
    rest.GetPost idStr w1 = Some (post_response http.StatusOK v, w2) /\
    store_state w2 = store_state w1.
Proof.
  intros Hr Hid [v0 Hv0] Hvalid v. apply reachable_wf in Hr as [Hc _ _].
  destruct (contents_Some _ _ _ Hc Hv0) as (l & Hl & Hm & Hidv).
  rewrite (rest_UpdatePost_eq _ _ _ Hc). cbn zeta.
  cbn [dto.UpdatePostRequest.Title dto.UpdatePostRequest.Content
       dto.UpdatePostRequest.Author].
  rewrite (route_id_Atoi _ _ Hid), Hv0, Hvalid.
  rewrite (UpdatePost_eq _ _ _ _ _ _ _ Hl Hm). cbn zeta. rewrite Hidv, Hvalid.
  fold v.
  assert ((mem (world s) ++ [v; v; v]) !! S (S (length (mem (world s)))) = Some v)
    as Hnew.
  { rewrite lookup_app_r by lia.
    by replace (S (S (length (mem (world s)))) - length (mem (world s)))%nat
      with 2%nat by lia. }
  pose proof (cells_ok_insert _ _ _ _ _ (nextID (repo (world s)))
                Hc Hnew eq_refl) as Hc1.
  eexists _, _. split; [reflexivity|].
  rewrite (GetPost_eq _ _ Hc1), (route_id_Atoi _ _ Hid).
  rewrite (contents_insert _ _ _ _ _ _ Hc Hnew).
  rewrite lookup_insert_eq. split; [reflexivity|].
  exact (store_state_alloc _ [v] Hc1).
Qed.

Lemma PUT_then_GET_witness :
  exists w1 w2,
    rest.UpdatePost "1"
      (inr (dto.UpdatePostRequest.mk "Updated Title" "Updated Content"
                                     "Updated Author"))
      (world (after [DoCreatePost "Original Title" "Original Content"
                                  "Original Author"]))
    = Some (post_response http.StatusOK
              (mkPost 1 "Updated Title" "Updated Content" "Updated Author"), w1) /\
    rest.GetPost "1" w1
    = Some (post_response http.StatusOK
              (mkPost 1 "Updated Title" "Updated Content" "Updated Author"), w2).
Proof.
  assert (reachable
            (after [DoCreatePost "Original Title" "Original Content"
                                 "Original Author"]))
    as Hr by (apply after_reachable; vm_compute; eauto).
  destruct (PUT_then_GET _ 1 "1" "Updated Title" "Updated Content" "Updated Author"
              Hr)
    as (w1 & w2 & Hput & Hget & _);
    [by vm_compute|vm_compute; eauto|by vm_compute|].
  exists w1, w2. split; [exact Hput|exact Hget].
Defined.


(** X21. A post deleted through the handler is gone for every handler.
    In every reachable state, [DeletePost] of the handlers on the route id
    of a stored post answers 204 with no body; afterwards [GetPost], a
    second [DeletePost] and [UpdatePost] with any bound body on the same
    route id are answered 404 "not_found" and change nothing. *)
Theorem DELETE_then_not_found s id idStr :
  reachable s ->
  strconv.Atoi idStr = (id, None) ->
  is_Some (contents (world s) !! id) ->
  exists w1,
    rest.DeletePost idStr (world s) =
      Some (mkResponse http.StatusNoContent JSON_nil, w1) /\
    rest.GetPost idStr w1 = Some (not_found, w1) /\
    rest.DeletePost idStr w1 = Some (not_found, w1) /\
    (forall req, rest.UpdatePost idStr (inr req) w1 = Some (not_found, w1)).
Proof.
  intros Hr Hid [v0 Hv0]. apply reachable_wf in Hr as [Hc _ _].
  destruct (contents_Some _ _ _ Hc Hv0) as (l & Hl & Hm & Hidv).
  rewrite rest_DeletePost_eq, (route_id_Atoi _ _ Hid), Delete_eq, Hl.
  pose proof (cells_ok_delete _ id (nextID (repo (world s))) Hc) as Hc1.
  eexists. split; [reflexivity|].
  rewrite (GetPost_eq _ _ Hc1), rest_DeletePost_eq, !(route_id_Atoi _ _ Hid).
  rewrite contents_delete, Delete_eq. mred. rewrite !lookup_delete_eq.
  split; [done|]. split; [done|].
  intros req. rewrite (rest_UpdatePost_eq _ _ _ Hc1). cbn zeta.
  rewrite (route_id_Atoi _ _ Hid), contents_delete, lookup_delete_eq.
  rewrite UpdatePost_absent; [done|]. mred. apply lookup_delete_eq.
Qed.

Lemma DELETE_then_not_found_witness :
  exists w1,
    rest.DeletePost "1"
      (world (after [DoCreatePost "Test Title" "Test Content" "Test Author"]))
    = Some (mkResponse http.StatusNoContent JSON_nil, w1) /\
    rest.GetPost "1" w1 = Some (not_found, w1).
Proof.
  assert (reachable
            (after [DoCreatePost "Test Title" "Test Content" "Test Author"]))
    as Hr by (apply after_reachable; vm_compute; eauto).
  destruct (DELETE_then_not_found _ 1 "1" Hr) as (w1 & Hdel & Hget & _);
    [by vm_compute|vm_compute; eauto|].
  exists w1. split; [exact Hdel|exact Hget].
Defined.


(** ** The entity: one rule set for construction, update and validation *)

(** X22. One rule set for construction and update.  On the same fields,
    [NewPost] (with any id) and [Update] (on any post) return the same
    error or both return [nil]: [nil] exactly when the fields violate no
    rule, and otherwise the message of the first rule violated in the order
    title blank, content blank, author blank, title too long. *)
Theorem Update_refuses_what_NewPost_refuses w p v id title content author :
  mem w !! p = Some v ->
  exists post err w1 w2,
    NewPost id title content author w = Some ((post, err), w1) /\
    Update (Some p) title content author w = Some (err, w2) /\
    (err = None <-> first_violated title content author = None) /\
    (forall r, first_violated title content author = Some r ->
               err = Some (errors_New (message r))).
Proof.
  intros Hp. rewrite NewPost_eq, (Update_eq _ _ _ _ _ _ Hp).
  rewrite (validate_ID_irrelevant (ID v) id).
  rewrite (validate_first_violated id title content author).
  destruct (first_violated title content author) as [r|]; cbn.
  - eexists _, _, _, _. split; [reflexivity|]. split; [reflexivity|].
    split; [done|]. by intros r' [= <-].
  - eexists _, _, _, _. split; [reflexivity|]. split; [reflexivity|]. done.
Qed.

Lemma Update_refuses_what_NewPost_refuses_witness :
  exists post w1 w2,
    NewPost 2 "Title" "   " "Author"
      (world (after [CallerNew (mkPost 1 "Original Title" "Original Content"
                                       "Original Author")]))
    = Some ((post, Some (errors_New "content is required")), w1) /\
    Update (Some 0%nat) "Title" "   " "Author"
      (world (after [CallerNew (mkPost 1 "Original Title" "Original Content"
                                       "Original Author")]))
    = Some (Some (errors_New "content is required"), w2).
Proof.
  destruct (Update_refuses_what_NewPost_refuses
              (world (after [CallerNew (mkPost 1 "Original Title" "Original Content"
                                               "Original Author")]))
              0%nat (mkPost 1 "Original Title" "Original Content" "Original Author")
              2 "Title" "   " "Author")
    as (post & err & w1 & w2 & Hnew & Hupd & _ & Hfirst); [by vm_compute|].
  assert (err = Some (errors_New "content is required")) as Herr
    by (apply (Hfirst ContentBlank); by vm_compute).
  exists post, w1, w2. by rewrite Hnew, Hupd, Herr.
Defined.


(** X23. A post that passes [Validate] passes it after any call of
    [Update] on it, refused or not, and carries the same ID: [Update]
    cannot leave a post invalid or renumbered. *)
Theorem entity_stays_valid w p v title content author :
  mem w !! p = Some v ->
  validate v = None ->
  exists err w' v',
    Update (Some p) title content author w = Some (err, w') /\
    mem w' !! p = Some v' /\
    ID v' = ID v /\
    Validate (Some p) w' = Some (None, w').
Proof.
  intros Hp Hv. rewrite (Update_eq _ _ _ _ _ _ Hp).
  destruct (validate (mkPost (ID v) title content author)) as [e|] eqn:Hnew.
  - eexists _, _, v. split; [reflexivity|]. mred.
    pose proof (lookup_old_cell _ (mkPost (ID v) title content author) _ _ Hp) as H1.
    split; [done|]. split; [done|]. rewrite run_Validate. mred. by rewrite H1, Hv.
  - eexists _, _, (mkPost (ID v) title content author). split; [reflexivity|]. mred.
    pose proof (lookup_old_cell _ (mkPost (ID v) title content author) _ _ Hp) as H1.
    pose proof (lookup_written_cell _ (mkPost (ID v) title content author) _ _ H1)
      as H2.
    split; [done|]. split; [done|]. rewrite run_Validate. mred. by rewrite H2, Hnew.
Qed.

Lemma entity_stays_valid_witness :
  exists err w' v',
    Update (Some 0%nat) "" "Updated Content" "Updated Author"
      (world (after [CallerNew (mkPost 1 "Original Title" "Original Content"
                                       "Original Author")]))
    = Some (err, w') /\
    mem w' !! 0%nat = Some v' /\
    Validate (Some 0%nat) w' = Some (None, w').
Proof.
  destruct (entity_stays_valid
              (world (after [CallerNew (mkPost 1 "Original Title" "Original Content"
                                               "Original Author")]))
              0%nat (mkPost 1 "Original Title" "Original Content" "Original Author")
              "" "Updated Content" "Updated Author")
    as (err & w' & v' & Hupd & Hm & _ & Hval); [by vm_compute|by vm_compute|].
  exists err, w', v'. split; [exact Hupd|]. split; [exact Hm|exact Hval].
Defined.


(** ** [CreatePost] and the posts already stored *)

(** X24. Along every run from the initial store in which no sum on the
    counter wraps around, no post is stored under the value of the counter;
    so [CreatePost], which does not look whether its ID is taken, never
    replaces a post: every post stored before the call is stored unchanged
    after it, whether the call is refused by validation or not. *)
Theorem CreatePost_never_replaces cs s title content author :
  run cs init = Some s ->
  nowrap_run cs init = true ->
  contents (world s) !! nextID (repo (world s)) = None
  /\ exists r w',
       Repo.CreatePost title content author (world s) = Some (r, w') /\
       forall id v, contents (world s) !! id = Some v ->
                    contents w' !! id = Some v.
Proof.
  intros Hrun Hnw.
  destruct (nowrap_steps _ _ _ wf_init keys_below_init Hnw Hrun) as [Hk _].
  pose proof (wf_cells _ (wf_run _ _ _ wf_init Hrun)) as Hc.
  assert (posts (repo (world s)) !! nextID (repo (world s)) = None) as Hfree.
  { destruct (posts (repo (world s)) !! nextID (repo (world s))) eqn:H; [|done].
    specialize (Hk _ (mk_is_Some _ _ H)). lia. }
  split; [by apply contents_None|].
  rewrite CreatePost_eq. cbn zeta.
  destruct (validate _) eqn:Hv; (eexists _, _; split; [reflexivity|]).
  - intros id v Hid.
    rewrite (contents_counter _ _ _ (nextID (repo (world s)))), Repo_eta.
    by rewrite (contents_alloc _ _ Hc).
  - intros id v Hid. erewrite contents_insert; [|done|]; cycle 1.
    { rewrite lookup_app_r by lia.
      by replace (S (length (mem (world s))) - length (mem (world s)))%nat
        with 1%nat by lia. }
    rewrite lookup_insert_ne; [done|]. intros <-.
    apply (contents_None _ _ Hc) in Hfree. congruence.
Qed.

(** The post 1 is created and deleted and a post is stored under 5 by
    [Create]: the next [CreatePost] leaves the post 5 where it is. *)
Lemma CreatePost_never_replaces_witness :
  exists r w',
    Repo.CreatePost "Test Title" "Test Content" "Test Author"
      (world (after [DoCreatePost "First" "Content" "Author"; DoDelete 1;
                     CallerNew (mkPost 5 "Fifth" "Content" "Author");
                     DoCreate (Some 3%nat)]))
    = Some (r, w') /\
    contents w' !! 5 = Some (mkPost 5 "Fifth" "Content" "Author").
Proof.
  destruct (CreatePost_never_replaces
              [DoCreatePost "First" "Content" "Author"; DoDelete 1;
               CallerNew (mkPost 5 "Fifth" "Content" "Author");
               DoCreate (Some 3%nat)]
              (after [DoCreatePost "First" "Content" "Author"; DoDelete 1;
                      CallerNew (mkPost 5 "Fifth" "Content" "Author");
                      DoCreate (Some 3%nat)])
              "Test Title" "Test Content" "Test Author")
    as (_ & r & w' & Hrun & Hkeep); [by vm_compute|by vm_compute|].
  exists r, w'. split; [exact Hrun|]. apply Hkeep. by vm_compute.
Defined.


(** ** Blank fields *)

Lemma all_bytes_get f s k c :
  all_bytes f s = true -> String.get k s = Some c -> f (GoStrings.byte c) = true.
Proof.
  revert k. induction s as [|c' s IH]; intros k H Hget; [done|].
  cbn in H. apply andb_prop in H as [Hc Hs].
  destruct k as [|k]; cbn in Hget; [by injection Hget as <-|by eapply IH].
Qed.

Lemma get_lt s k : (k < String.length s)%nat -> is_Some (String.get k s).
Proof.
  revert k. induction s as [|c s IH]; intros k Hk; cbn in *; [lia|].
  destruct k as [|k]; [by eexists|]. apply IH. lia.
Qed.

Lemma TrimSpace_stop_visible c t stop :
  GoStrings.asciiSpace (GoStrings.byte c) = false ->
  is_ascii (String c t) = true ->
  (1 <= stop <= String.length (String c t))%nat ->
  GoStrings.TrimSpace_stop (String c t) stop <> "".
Proof.
  intros Hc Ha. induction stop as [|k IH]; intros Hk; [lia|].
  cbn [GoStrings.TrimSpace_stop]. unfold GoStrings.byte_at.
  destruct (get_lt (String c t) k ltac:(lia)) as [c' Hget]. rewrite Hget. cbn.
  pose proof (all_bytes_get _ _ _ _ Ha Hget) as Hlt. cbn in Hlt.
  apply Z.ltb_lt in Hlt.
  destruct (GoStrings.RuneSelf <=? GoStrings.byte c') eqn:E;
    [apply Z.leb_le in E; lia|].
  destruct (GoStrings.asciiSpace (GoStrings.byte c')) eqn:Hsp.
  - destruct k as [|k]; [cbn in Hget; injection Hget as <-; congruence|].
    apply IH. lia.
  - unfold GoStrings.slice_to. done.
Qed.

Lemma blank_iff_white_space s :
  is_ascii s = true ->
  (GoStrings.TrimSpace s = "" <-> white_space_only s = true).
Proof.
  induction s as [|c s IH]; intros Ha; [done|].
  pose proof Ha as Ha'. cbn in Ha. apply andb_prop in Ha as [Hc Hs].
  apply Z.ltb_lt in Hc. cbn [GoStrings.TrimSpace white_space_only all_bytes].
  destruct (GoStrings.RuneSelf <=? GoStrings.byte c) eqn:E;
    [apply Z.leb_le in E; lia|].
  destruct (GoStrings.asciiSpace (GoStrings.byte c)) eqn:Hsp.
  - cbn. by apply IH.
  - cbn. split; [|done]. intros H.
    by apply (TrimSpace_stop_visible c s (String.length (String c s))) in H;
      [|done|done|cbn; lia].
Qed.

(** X25. What validation asks of fields made of ASCII bytes: a post
    passes [Validate] exactly when its title, its content and its author
    each hold at least one byte that is not white space (tab, line feed,
    vertical tab, form feed, carriage return, space) and the title is at
    most 255 bytes long; white space around the text is allowed and counts
    towards the length.  A title that is empty or all white space is refused
    with "title is required", whatever the other fields. *)
Theorem valid_fields_have_visible_text id title content author :
  is_ascii title = true ->
  is_ascii content = true ->
  is_ascii author = true ->
  (validate (mkPost id title content author) = None <->
   white_space_only title = false /\
   white_space_only content = false /\
   white_space_only author = false /\
   GoStrings.len title <= 255)
  /\ (white_space_only title = true ->
      validate (mkPost id title content author) = Some (errors_New title_required)).
Proof.
  intros Ht Hc Ha. unfold validate. cbn [Title Content Author].
  pose proof (blank_iff_white_space _ Ht) as Bt.
  pose proof (blank_iff_white_space _ Hc) as Bc.
  pose proof (blank_iff_white_space _ Ha) as Ba.
  repeat case_bool_decide;
    destruct (white_space_only title), (white_space_only content),
             (white_space_only author);
    try (exfalso; intuition congruence);
    try (split; [split; [done|intros (? & ? & ? & ?); done]|done]);
    try (split; [|done]).
  all: destruct (255 <? GoStrings.len title) eqn:E;
    [apply Z.ltb_lt in E|apply Z.ltb_ge in E].
  all: split; try done; try (intros (? & ? & ? & ?); lia).
Qed.

Lemma valid_fields_have_visible_text_witness :
  validate (mkPost 1 "  Test Title  " "Test Content" "Test Author") = None
  /\ validate (mkPost 1 "   " "" "Test Author") = Some (errors_New title_required).
Proof.
  destruct (valid_fields_have_visible_text 1 "  Test Title  " "Test Content"
              "Test Author") as [Hiff _]; [done|done|done|].
  destruct (valid_fields_have_visible_text 1 "   " "" "Test Author")
    as [_ Hblank]; [done|done|done|].
  split; [|by apply Hblank].
  apply Hiff. repeat split; by vm_compute.
Defined.

